(** * Evalu8: the interview / evaluation orchestration core

    A shallow embedding of

    - [server/services/evaluationAgent.ts]  (the Scorer, [runEvaluationAgent]),
    - [server/services/interviewAgent.ts]   (the Conductor, [runInterviewAgent]),
    - [server/storage.ts] and [shared/schema.ts] (the record store),
    - [server/routes.ts] (the candidate's intake, message and submit routes
      and the recruiter's status edit),

    together with the part of the JavaScript value semantics those functions
    rely on ([||], [!], [Array.isArray], [Math.round], [Math.min],
    [Math.max], property reads and writes on the result of [JSON.parse]). *)

From Stdlib Require Import ZArith QArith Qround List String Ascii Bool Lia.
From Stdlib Require Import DecimalString Sorting.Sorted Sorting.Permutation.
Import ListNotations.

Set Warnings "-register-all".

Local Open Scope string_scope.
Local Open Scope list_scope.
Local Open Scope Z_scope.

(* ================================================================== *)
(** ** JavaScript values *)
(* ================================================================== *)

Module Js.

(** A JavaScript Number.  Every finite double is a rational, and the three
    operations used on numbers here ([Math.round], [Math.min], [Math.max])
    are exact on doubles, so a finite number is carried as the rational it
    denotes; the theorems quantify over all rationals, hence over all
    doubles.  Negative zero is identified with zero (it is falsy, and
    [Math.max(0, -0)] is [+0]). *)
Inductive number : Type :=
| NaN
| PosInf
| NegInf
| Fin (q : Q).

(** A value as [JSON.parse] builds it, plus [undefined] (what reading an
    absent property gives).  A string is the sequence of the bytes of its
    text in UTF-8.  [JObj] lists the own properties of a plain object,
    each name once. *)
Inductive value : Type :=
| JUndefined
| JNull
| JBool (b : bool)
| JNum (n : number)
| JStr (s : string)
| JArr (elems : list value)
| JObj (props : list (string * value)).

Definition zero : number := Fin (inject_Z 0).
Definition one : number := Fin (inject_Z 1).
Definition hundred : number := Fin (inject_Z 100).
Definition fifty : number := Fin (inject_Z 50).

(** [ToBoolean]: the falsy values are [undefined], [null], [false], [0],
    [NaN] and the empty string. *)
Definition ToBoolean (v : value) : bool :=
  match v with
  | JUndefined | JNull => false
  | JBool b => b
  | JNum NaN => false
  | JNum (Fin q) => negb (Qeq_bool q 0)
  | JNum _ => true
  | JStr s => negb (String.eqb s "")
  | JArr _ | JObj _ => true
  end.

(** [a || b] *)
Definition or_else (a b : value) : value := if ToBoolean a then a else b.

Definition isArray (v : value) : bool :=
  match v with JArr _ => true | _ => false end.

Fixpoint own (k : string) (props : list (string * value)) : option value :=
  match props with
  | [] => None
  | (k', v) :: rest => if String.eqb k k' then Some v else own k rest
  end.

Definition has_own (k : string) (props : list (string * value)) : bool :=
  match own k props with Some _ => true | None => false end.

(** Reading [v.k], for the property names this program reads
    ([overallScore], [summary], [stage], [severity], ...), none of which is
    defined on a built-in prototype.  [None] is the [TypeError] raised on
    [null] and [undefined]. *)
Definition Get (v : value) (k : string) : option value :=
  match v with
  | JUndefined | JNull => None
  | JObj props =>
      Some (match own k props with Some x => x | None => JUndefined end)
  | JBool _ | JNum _ | JStr _ | JArr _ => Some JUndefined
  end.

(** Whether [v.k = e] succeeds.  The services are ES modules, hence strict
    code: assigning a property of a primitive raises a [TypeError]. *)
Definition assignable (v : value) : bool :=
  match v with JObj _ | JArr _ => true | _ => false end.

(** *** String to number ([StringToNumber]) *)

(** The white space and line terminator characters of one byte: U+0009 to
    U+000D and U+0020. *)
Definition is_ws (c : ascii) : bool :=
  let n := nat_of_ascii c in
  (((9 <=? n) && (n <=? 13)) || (n =? 32))%nat.

(** Those of two bytes: U+00A0. *)
Definition is_ws2 (a b : ascii) : bool :=
  ((nat_of_ascii a =? 194) && (nat_of_ascii b =? 160))%nat.

(** Those of three bytes: U+1680, U+2000 to U+200A, U+2028, U+2029,
    U+202F, U+205F, U+3000 and U+FEFF. *)
Definition is_ws3 (a b c : ascii) : bool :=
  let x := nat_of_ascii a in
  let y := nat_of_ascii b in
  let z := nat_of_ascii c in
  (((x =? 225) && (y =? 154) && (z =? 128))
   || ((x =? 226) && (y =? 128)
       && (((128 <=? z) && (z <=? 138)) || (z =? 168) || (z =? 169)
           || (z =? 175)))
   || ((x =? 226) && (y =? 129) && (z =? 159))
   || ((x =? 227) && (y =? 128) && (z =? 128))
   || ((x =? 239) && (y =? 187) && (z =? 191)))%nat.

Fixpoint drop_ws (l : list ascii) : list ascii :=
  match l with
  | a :: r1 =>
      if is_ws a then drop_ws r1
      else
        match r1 with
        | b :: r2 =>
            if is_ws2 a b then drop_ws r2
            else
              match r2 with
              | c :: r3 => if is_ws3 a b c then drop_ws r3 else l
              | [] => l
              end
        | [] => l
        end
  | [] => []
  end.

(** The same from the end, on the reversed text. *)
Fixpoint drop_ws_end (l : list ascii) : list ascii :=
  match l with
  | a :: r1 =>
      if is_ws a then drop_ws_end r1
      else
        match r1 with
        | b :: r2 =>
            if is_ws2 b a then drop_ws_end r2
            else
              match r2 with
              | c :: r3 => if is_ws3 c b a then drop_ws_end r3 else l
              | [] => l
              end
        | [] => l
        end
  | [] => []
  end.

Definition trim (l : list ascii) : list ascii :=
  rev (drop_ws_end (rev (drop_ws l))).

(** *** Rounding to a double *)

(** The whole part of the binary logarithm of [n / d], for positive [n]
    and [d]. *)
Definition floor_log2 (n d : Z) : Z :=
  let k := Z.log2 n - Z.log2 d in
  let reached :=
    if 0 <=? k then d * 2 ^ k <=? n else d <=? n * 2 ^ (- k) in
  if reached then k else k - 1.

(** [p / r] rounded to the nearest integer, a tie to the even one. *)
Definition round_half_even (p r : Z) : Z :=
  let f := p / r in
  match (2 * (p mod r) ?= r) with
  | Lt => f
  | Gt => f + 1
  | Eq => if Z.even f then f else f + 1
  end.

(** The Number value for a rational: the double nearest to it, a tie to
    the one with the even significand, an infinity from 2^1024 on.  A
    double is a multiple, by less than 2^53, of a power of two that is at
    least 2^-1074. *)
Definition round_double (q : Q) : number :=
  let n := Qnum q in
  let d := Zpos (Qden q) in
  if n =? 0 then zero
  else
    let a := Z.abs n in
    let shift := Z.max (floor_log2 a d) (- 1022) - 52 in
    let m :=
      if shift <? 0 then round_half_even (a * 2 ^ (- shift)) d
      else round_half_even a (d * 2 ^ shift) in
    if 1024 <=? Z.log2 m + shift then (if n <? 0 then NegInf else PosInf)
    else
      let sm := if n <? 0 then - m else m in
      Fin (Qred (if shift <? 0 then sm # Z.to_pos (2 ^ (- shift))
                 else inject_Z (sm * 2 ^ shift))).

Definition digit_val (base : Z) (c : ascii) : option Z :=
  let n := Z.of_nat (nat_of_ascii c) in
  let d :=
    if (48 <=? n) && (n <=? 57) then n - 48
    else if (97 <=? n) && (n <=? 102) then n - 87
    else if (65 <=? n) && (n <=? 70) then n - 55
    else 99 in
  if d <? base then Some d else None.

(** All of [l] read as digits in [base], most significant first. *)
Fixpoint digits_val (base acc : Z) (l : list ascii) : option Z :=
  match l with
  | [] => Some acc
  | c :: r =>
      match digit_val base c with
      | Some d => digits_val base (acc * base + d) r
      | None => None
      end
  end.

Definition nonempty_digits (base : Z) (l : list ascii) : option Z :=
  match l with [] => None | _ => digits_val base 0 l end.

Fixpoint span_digits (l : list ascii) : list ascii * list ascii :=
  match l with
  | c :: r =>
      match digit_val 10 c with
      | Some _ => let (d, rest) := span_digits r in (c :: d, rest)
      | None => ([], l)
      end
  | [] => ([], [])
  end.

Definition is_char (a b : ascii) : bool := Ascii.eqb a b.

(** [ExponentPart]: [e] or [E], an optional sign, one or more digits. *)
Definition exponent_part (l : list ascii) : option Z :=
  match l with
  | [] => Some 0
  | c :: r =>
      if is_char c "e" || is_char c "E" then
        match r with
        | s :: r' =>
            if is_char s "-" then option_map Z.opp (nonempty_digits 10 r')
            else if is_char s "+" then nonempty_digits 10 r'
            else nonempty_digits 10 r
        | [] => None
        end
      else None
  end.

(** [StrUnsignedDecimalLiteral] other than [Infinity]: digits, an optional
    fraction, an optional exponent, with a digit before or after the dot. *)
Definition unsigned_decimal (l : list ascii) : option Q :=
  let (ip, r1) := span_digits l in
  let (fp, r2) :=
    match r1 with
    | c :: r => if is_char c "." then span_digits r else ([], r1)
    | [] => ([], r1)
    end in
  match ip ++ fp with
  | [] => None
  | ds =>
      match digits_val 10 0 ds, exponent_part r2 with
      | Some m, Some e =>
          Some (inject_Z m * Qpower (inject_Z 10) (e - Z.of_nat (List.length fp)))%Q
      | _, _ => None
      end
  end.

Definition str_infinity : list ascii := list_ascii_of_string "Infinity".

Definition list_ascii_eqb (a b : list ascii) : bool :=
  String.eqb (string_of_list_ascii a) (string_of_list_ascii b).

Definition unsigned_literal (l : list ascii) : number :=
  if list_ascii_eqb l str_infinity then PosInf
  else match unsigned_decimal l with
       | Some q => round_double q
       | None => NaN
       end.

Definition negate (n : number) : number :=
  match n with
  | NaN => NaN
  | PosInf => NegInf
  | NegInf => PosInf
  | Fin q => Fin (- q)%Q
  end.

(** [0x], [0o] and [0b] literals (no sign allowed). *)
Definition non_decimal (l : list ascii) : option number :=
  match l with
  | z :: p :: r =>
      if is_char z "0" then
        let lit base :=
          Some (match nonempty_digits base r with
                | Some n => round_double (inject_Z n)
                | None => NaN
                end) in
        if is_char p "x" || is_char p "X" then lit 16
        else if is_char p "o" || is_char p "O" then lit 8
        else if is_char p "b" || is_char p "B" then lit 2
        else None
      else None
  | _ => None
  end.

(** [Number(s)] for a string [s]: surrounding white space and line
    terminators are dropped, the empty string is [0], anything that is not
    a numeric literal is [NaN], and the value of a literal is rounded to
    the nearest double. *)
Definition StringToNumber (s : string) : number :=
  match trim (list_ascii_of_string s) with
  | [] => zero
  | (c :: r) as l =>
      match non_decimal l with
      | Some n => n
      | None =>
          if is_char c "-" then negate (unsigned_literal r)
          else if is_char c "+" then unsigned_literal r
          else unsigned_literal l
      end
  end.

(** *** [ToNumber] *)

(** Converting an object to a primitive raises a [TypeError] exactly when
    no callable [toString] is found: a plain object parsed from JSON with an
    own (hence non-callable) [toString] property, or an array that holds
    such an object (its [join] converts every element). *)
Fixpoint unconvertible (v : value) : bool :=
  match v with
  | JObj props => has_own "toString" props
  | JArr l => existsb unconvertible l
  | _ => false
  end.

(** [ToNumber].  [None] is a [TypeError].  A plain object converts through
    the text [[object Object]], which is [NaN].  An array converts through
    [join(",")]: the empty array through the empty string ([0]); a
    one-element array through the text of its element (empty for [null] and
    [undefined]; a number's text reads back as that number); a longer array
    through a text with a comma, which is no numeric literal. *)
Fixpoint ToNumber (v : value) : option number :=
  match v with
  | JUndefined => Some NaN
  | JNull => Some zero
  | JBool b => Some (if b then one else zero)
  | JNum n => Some n
  | JStr s => Some (StringToNumber s)
  | JObj props => if has_own "toString" props then None else Some NaN
  | JArr l =>
      if existsb unconvertible l then None
      else match l with
           | [] => Some zero
           | [x] =>
               match x with
               | JUndefined | JNull => Some zero
               | JBool _ | JObj _ => Some NaN
               | JNum _ | JStr _ | JArr _ => ToNumber x
               end
           | _ :: _ :: _ => Some NaN
           end
  end.

(** *** [Math] *)

(** [a < b]; false as soon as one side is [NaN]. *)
Definition lt (a b : number) : bool :=
  match a, b with
  | NaN, _ | _, NaN => false
  | _, NegInf => false
  | NegInf, _ => true
  | PosInf, _ => false
  | Fin _, PosInf => true
  | Fin p, Fin q => negb (Qle_bool q p)
  end.

(** [Math.round]: the nearest integer, ties towards [+Infinity]. *)
Definition Math_round (n : number) : number :=
  match n with
  | Fin q => Fin (inject_Z (Qfloor (q + (1 # 2))%Q))
  | _ => n
  end.

Definition Math_min (a b : number) : number :=
  match a, b with
  | NaN, _ | _, NaN => NaN
  | _, _ => if lt b a then b else a
  end.

Definition Math_max (a b : number) : number :=
  match a, b with
  | NaN, _ | _, NaN => NaN
  | _, _ => if lt a b then b else a
  end.

(** An integer between [lo] and [hi]. *)
Definition integer_in (lo hi : Z) (n : number) : Prop :=
  exists z : Z, n = Fin (inject_Z z) /\ lo <= z <= hi.

End Js.

Import Js.

(* ================================================================== *)
(** ** Shared schema ([shared/schema.ts]) *)
(* ================================================================== *)

(** Identifiers are [gen_random_uuid()] values; they are drawn from a
    counter.  Timestamps ([defaultNow()], [new Date()]) are readings of a
    clock. *)
Definition Id : Type := nat.
Definition Timestamp : Type := nat.
Bind Scope nat_scope with Id.
Bind Scope nat_scope with Timestamp.

Record Job : Type := {
  job_id : Id;
  ownerId : Id;
  title : string;
  description : string;
  simulationType : string;
  seniorityLevel : string;
  timeLimitMinutes : Z;
  numQuestions : Z;
  jobToken : string;
  isActive : bool
}.

Record Application : Type := {
  app_id : Id;
  jobId : Id;
  status : string;
  candidateName : string;
  candidateEmail : string;
  startedAt : Timestamp;
  submittedAt : option Timestamp
}.

Record Message : Type := {
  msg_id : Id;
  msg_applicationId : Id;
  role : string;
  content : string;
  msg_createdAt : Timestamp
}.

(** The scorecard as the Scorer returns it and as the submit route copies
    it, field by field, into the row it inserts. *)
Record EvaluationResult : Type := {
  overallScore : number;
  decisionQuality : number;
  communicationClarity : number;
  structuredProcess : number;
  riskAwareness : number;
  professionalJudgment : number;
  recommendation : value;
  summary : value;
  strengths : value;
  concerns : value
}.

Record Evaluation : Type := {
  eval_id : Id;
  eval_applicationId : Id;
  eval_scores : EvaluationResult;
  eval_createdAt : Timestamp
}.

Record Flag : Type := {
  flag_id : Id;
  flag_applicationId : Id;
  severity : string;
  category : string;
  excerpt : string;
  flag_createdAt : Timestamp
}.

(* ================================================================== *)
(** ** The world: record store and completion service *)
(* ================================================================== *)

(** One entry of the [messages] array of a chat completion request. *)
Record ChatMessage : Type := {
  chat_role : string;
  chat_content : string
}.

(** What a completion request ends in: the call rejects (or the response
    has no choice to read), its content is not JSON ([JSON.parse] throws,
    as it does on the empty content), or it parses to a value. *)
Inductive Completion : Type :=
| CallFails
| Unparseable
| Parsed (v : value).

Inductive DbOp : Type :=
| OpGetApplication | OpGetJob | OpGetJobByToken | OpCreateApplication
| OpUpdateApplicationStatus | OpSubmitApplication
| OpCreateMessage | OpGetMessagesByApplication
| OpCreateEvaluation | OpCreateFlag.

(** What the program does not control: the answers of the completion
    service, which storage calls fail for reasons of their own, and the
    text the database driver writes for an array, an object or a number
    whose text is not embedded below, given as its first character and the
    rest: that text is never empty ([{}], [0.5] and so on). *)
Record Env : Type := {
  llm : list ChatMessage -> Completion;
  db_fails : DbOp -> bool;
  db_text : value -> ascii * string
}.

(** The record store.  Tables hold their rows in insertion order. *)
Record Store : Type := {
  jobs : list Job;
  applications : list Application;
  messages : list Message;
  evaluations : list Evaluation;
  flags : list Flag;
  next_id : Id;
  clock : Timestamp
}.

(** The store, and the requests issued so far to the completion service
    (oldest first). *)
Record World : Type := {
  store : Store;
  sent : list (list ChatMessage)
}.

Inductive Error : Type :=
| TypeError
| SyntaxError
| ServiceError
| DbFailure (op : DbOp)
| UniqueViolation
| NotNullViolation
| InvalidText
| ZodError.

Inductive Result (A : Type) : Type :=
| Ok (a : A)
| Thrown (e : Error).
Arguments Ok {A} a.
Arguments Thrown {A} e.

(** A computation over the world that returns or throws.  What was written
    before a throw stays written: no route opens a transaction. *)
Definition M (A : Type) : Type := World -> Result A * World.

Definition ret {A} (a : A) : M A := fun w => (Ok a, w).

Definition throw {A} (e : Error) : M A := fun w => (Thrown e, w).

Definition bind {A B} (m : M A) (k : A -> M B) : M B :=
  fun w =>
    match m w with
    | (Ok a, w') => k a w'
    | (Thrown e, w') => (Thrown e, w')
    end.

(** [try { m } catch (e) { h e }] *)
Definition try_catch {A} (m : M A) (h : Error -> M A) : M A :=
  fun w =>
    match m w with
    | (Ok a, w') => (Ok a, w')
    | (Thrown e, w') => h e w'
    end.

Definition lift {A} (o : option A) (e : Error) : M A :=
  match o with Some a => ret a | None => throw e end.

Notation "x <- m ;; k" := (bind m (fun x => k))
  (at level 61, m at next level, right associativity).
Notation "m ;; k" := (bind m (fun _ => k))
  (at level 61, right associativity).
Notation "'let?' x := o 'in' k" :=
  (match o with Some x => k | None => None end)
  (at level 10, x name, o at level 100, k at level 200).

(* ================================================================== *)
(** ** Text helpers *)
(* ================================================================== *)

Definition dq : string := String (ascii_of_nat 34) EmptyString.
Definition nl : string := String (ascii_of_nat 10) EmptyString.
Definition cat (pieces : list string) : string := String.concat "" pieces.
Definition lines (l : list string) : string := String.concat nl l.
Definition quoted (s : string) : string := cat [dq; s; dq].

(** The text of an integer inside a template literal. *)
Definition show (z : Z) : string := NilZero.string_of_int (Z.to_int z).

(** Whether a character occurs in a text. *)
Fixpoint occurs (c : ascii) (s : string) : bool :=
  match s with
  | EmptyString => false
  | String d rest => Ascii.eqb d c || occurs c rest
  end.

(** [s || d] on strings and [n || d] on integers. *)
Definition str_or (s d : string) : string :=
  if String.eqb s "" then d else s.
Definition int_or (n d : Z) : Z := if n =? 0 then d else n.

(* ================================================================== *)
(** ** Model Gateway *)
(* ================================================================== *)

Section Gateway.
Variable env : Env.

(** [openai.chat.completions.create({messages, ...})] followed by
    [JSON.parse(response.choices[0]?.message?.content || "")]. *)
Definition complete (request : list ChatMessage) : M value :=
  fun w =>
    let w' := {| store := store w; sent := sent w ++ [request] |} in
    match llm env request with
    | CallFails => (Thrown ServiceError, w')
    | Unparseable => (Thrown SyntaxError, w')
    | Parsed v => (Ok v, w')
    end.
End Gateway.

(* ================================================================== *)
(** ** Evaluation Scorer ([server/services/evaluationAgent.ts]) *)
(* ================================================================== *)

Definition speaker (m : Message) : string :=
  if String.eqb (role m) "assistant" then "Interviewer" else "Candidate".

Definition transcript (conversationHistory : list Message) : string :=
  String.concat (cat [nl; nl])
    (map (fun m => cat [speaker m; ": "; content m]) conversationHistory).

Definition evaluationPrompt (job : Job) : string :=
  lines [
    cat ["You are an expert hiring evaluator. Analyze the following interview transcript for the role: "; quoted (title job); "."];
    "";
    cat ["Job Description: "; description job];
    cat ["Simulation Type: "; simulationType job];
    cat ["Seniority Level: "; seniorityLevel job];
    "";
    "Evaluate the candidate on these dimensions (score each 0-100):";
    "1. Decision Quality - How sound were the candidate's decisions in the scenarios?";
    "2. Communication Clarity - How clearly did the candidate express ideas?";
    "3. Structured Process - Did the candidate use a structured approach to problem-solving?";
    "4. Risk Awareness - Did the candidate identify and address risks appropriately?";
    "5. Professional Judgment - Did the candidate demonstrate appropriate professional standards?";
    "";
    "Also calculate an overall score (weighted average of above).";
    "";
    cat ["Provide a recommendation: "; quoted "strong_hire"; ", "; quoted "hire"; ", "; quoted "maybe"; ", "; quoted "no_hire"; ", or "; quoted "strong_no_hire"];
    "";
    "You MUST respond with valid JSON in this exact format:";
    "{";
    cat ["  "; quoted "overallScore"; ": <number 0-100>,"];
    cat ["  "; quoted "decisionQuality"; ": <number 0-100>,"];
    cat ["  "; quoted "communicationClarity"; ": <number 0-100>,"];
    cat ["  "; quoted "structuredProcess"; ": <number 0-100>,"];
    cat ["  "; quoted "riskAwareness"; ": <number 0-100>,"];
    cat ["  "; quoted "professionalJudgment"; ": <number 0-100>,"];
    cat ["  "; quoted "recommendation"; ": "; quoted "<strong_hire|hire|maybe|no_hire|strong_no_hire>"; ","];
    cat ["  "; quoted "summary"; ": "; quoted "<2-3 paragraph evaluation summary>"; ","];
    cat ["  "; quoted "strengths"; ": ["; quoted "<strength 1>"; ", "; quoted "<strength 2>"; ", ...],"];
    cat ["  "; quoted "concerns"; ": ["; quoted "<concern 1>"; ", "; quoted "<concern 2>"; ", ...]"];
    "}"
  ].

Definition evaluationMessages (job : Job) (conversationHistory : list Message)
  : list ChatMessage :=
  [ {| chat_role := "system"; chat_content := evaluationPrompt job |};
    {| chat_role := "user";
       chat_content := cat ["Interview Transcript:"; nl; nl;
                            transcript conversationHistory] |} ].

(** [clamp = v => Math.max(0, Math.min(100, Math.round(v || 0)))];
    [None] when converting the argument to a number raises. *)
Definition clamp (v : value) : option number :=
  let? x := ToNumber (or_else v (JNum zero)) in
  Some (Math_max zero (Math_min hundred (Math_round x))).

(** [parsed.k = clamp(parsed.k)], giving the value assigned. *)
Definition clampField (parsed : value) (k : string) : option number :=
  let? v := Get parsed k in
  let? n := clamp v in
  if assignable parsed then Some n else None.

(** [if (!parsed.k) parsed.k = d], giving the resulting [parsed.k]. *)
Definition defaultField (parsed : value) (k : string) (d : value)
  : option value :=
  let? v := Get parsed k in
  if ToBoolean v then Some v
  else if assignable parsed then Some d else None.

(** [if (!Array.isArray(parsed.k)) parsed.k = []] *)
Definition arrayField (parsed : value) (k : string) : option value :=
  let? v := Get parsed k in
  if isArray v then Some v
  else if assignable parsed then Some (JArr []) else None.

(** The statements of the [try] block that follow [JSON.parse], read as
    the fields of the object they return.  [None] when one of them raises
    a [TypeError]. *)
Definition scoreParsed (parsed : value) : option EvaluationResult :=
  let? overall := clampField parsed "overallScore" in
  let? decision := clampField parsed "decisionQuality" in
  let? communication := clampField parsed "communicationClarity" in
  let? process := clampField parsed "structuredProcess" in
  let? risk := clampField parsed "riskAwareness" in
  let? judgment := clampField parsed "professionalJudgment" in
  let? rec := defaultField parsed "recommendation" (JStr "maybe") in
  let? sum := defaultField parsed "summary" (JStr "Evaluation completed.") in
  let? str := arrayField parsed "strengths" in
  let? con := arrayField parsed "concerns" in
  Some {| overallScore := overall;
          decisionQuality := decision;
          communicationClarity := communication;
          structuredProcess := process;
          riskAwareness := risk;
          professionalJudgment := judgment;
          recommendation := rec;
          summary := sum;
          strengths := str;
          concerns := con |}.

(** The object returned by the [catch] block. *)
Definition fallbackEvaluation : EvaluationResult :=
  {| overallScore := fifty;
     decisionQuality := fifty;
     communicationClarity := fifty;
     structuredProcess := fifty;
     riskAwareness := fifty;
     professionalJudgment := fifty;
     recommendation := JStr "maybe";
     summary := JStr "The evaluation could not be fully completed due to a processing error. A manual review is recommended.";
     strengths := JArr [JStr "Completed the interview simulation"];
     concerns := JArr [JStr "Automated evaluation encountered an error"] |}.

Definition runEvaluationAgent (env : Env) (job : Job)
    (conversationHistory : list Message) : M EvaluationResult :=
  try_catch
    (parsed <- complete env (evaluationMessages job conversationHistory) ;;
     lift (scoreParsed parsed) TypeError)
    (fun _ => ret fallbackEvaluation).

(* ================================================================== *)
(** ** Interview Conductor ([server/services/interviewAgent.ts]) *)
(* ================================================================== *)

Record InterviewResponse : Type := {
  assistant_message : value;
  detected_flags : value;
  stage : value
}.

Definition is_assistant (m : Message) : bool := String.eqb (role m) "assistant".

(** [conversationHistory.filter(m => m.role === "assistant").length] *)
Definition questionCount (conversationHistory : list Message) : Z :=
  Z.of_nat (List.length (filter is_assistant conversationHistory)).

(** [job.numQuestions || 8] *)
Definition maxQuestions (job : Job) : Z := int_or (numQuestions job) 8.

(** The stage rule for [closing], with the two numbers written into it. *)
Definition closingRule (count limit : Z) : string :=
  cat ["- "; quoted "closing"; " if wrapping up (";
       show count; " >= "; show (limit - 1); ")"].

Definition interviewPromptLines (job : Job) (count : Z) : list string :=
  let simulationType := str_or (simulationType job) "problem_solving" in
  let seniorityLevel := str_or (seniorityLevel job) "mid" in
  let timeLimitMinutes := int_or (timeLimitMinutes job) 15 in
  [ cat ["You are an AI interviewer conducting a workplace simulation interview for the role: "; quoted (title job); "."];
    "";
    cat ["Job Description: "; description job];
    cat ["Simulation Type: "; simulationType];
    cat ["Seniority Level: "; seniorityLevel];
    cat ["Time Limit: "; show timeLimitMinutes; " minutes"];
    cat ["Maximum Questions: "; show (maxQuestions job)];
    cat ["Questions Asked So Far: "; show count];
    "";
    "Your role is to simulate real workplace scenarios and evaluate the candidate's decision-making abilities. Follow these rules:";
    "1. Ask ONE question at a time based on realistic workplace scenarios relevant to this role";
    "2. Adapt your follow-up questions based on the candidate's responses";
    "3. Watch for red flags: inconsistencies, evasiveness, lack of depth, unprofessional responses, poor judgment";
    "4. Be professional but probing - dig deeper when answers are vague";
    "5. If this is the first message (no prior conversation), introduce the simulation scenario and ask the first question";
    cat ["6. If you've asked "; show (maxQuestions job); " or more questions, wrap up the interview gracefully"];
    "";
    "Determine the current stage:";
    cat ["- "; quoted "introduction"; " if this is the first interaction"];
    cat ["- "; quoted "questioning"; " if actively asking scenario questions"];
    cat ["- "; quoted "follow_up"; " if probing deeper on a previous answer"];
    closingRule count (maxQuestions job);
    "";
    "You MUST respond with valid JSON in this exact format:";
    "{";
    cat ["  "; quoted "assistant_message"; ": "; quoted "Your message to the candidate"; ","];
    cat ["  "; quoted "detected_flags"; ": [{"; quoted "severity"; ": "; quoted "low|medium|high"; ", "; quoted "category"; ": "; quoted "category name"; ", "; quoted "excerpt"; ": "; quoted "relevant quote or observation"; "}],"];
    cat ["  "; quoted "stage"; ": "; quoted "introduction|questioning|follow_up|closing"];
    "}";
    "";
    "If no flags are detected, return an empty array for detected_flags." ].

Definition systemPrompt (job : Job) (conversationHistory : list Message)
  : string :=
  lines (interviewPromptLines job (questionCount conversationHistory)).

Definition chat_of (msg : Message) : ChatMessage :=
  {| chat_role := role msg; chat_content := content msg |}.

(** The [messages] array: the system prompt, the history, then the
    candidate's message. *)
Definition interviewMessages (job : Job) (conversationHistory : list Message)
    (candidateMessage : string) : list ChatMessage :=
  ({| chat_role := "system";
      chat_content := systemPrompt job conversationHistory |}
   :: map chat_of conversationHistory)
  ++ [ {| chat_role := "user"; chat_content := candidateMessage |} ].

Definition stages : list string :=
  ["introduction"; "questioning"; "follow_up"; "closing"].

(** [l.includes(v)] for a list of strings. *)
Definition includes (l : list string) (v : value) : bool :=
  match v with
  | JStr s => existsb (String.eqb s) l
  | _ => false
  end.

(** [if (!stages.includes(parsed.stage)) parsed.stage = "questioning"] *)
Definition stageField (parsed : value) : option value :=
  let? v := Get parsed "stage" in
  if includes stages v then Some v
  else if assignable parsed then Some (JStr "questioning") else None.

(** The statements of the [try] block that follow [JSON.parse]. *)
Definition validateParsed (parsed : value) : option InterviewResponse :=
  let? msg := defaultField parsed "assistant_message"
                (JStr "Could you elaborate on that?") in
  let? fl := arrayField parsed "detected_flags" in
  let? st := stageField parsed in
  Some {| assistant_message := msg; detected_flags := fl; stage := st |}.

Definition fallbackInterview : InterviewResponse :=
  {| assistant_message := JStr "Thank you for your response. Could you tell me more about how you would handle a challenging situation in this role?";
     detected_flags := JArr [];
     stage := JStr "questioning" |}.

Definition runInterviewAgent (env : Env) (job : Job)
    (conversationHistory : list Message) (candidateMessage : string)
  : M InterviewResponse :=
  try_catch
    (parsed <- complete env
                 (interviewMessages job conversationHistory candidateMessage) ;;
     lift (validateParsed parsed) TypeError)
    (fun _ => ret fallbackInterview).

(* ================================================================== *)
(** ** Record store ([server/storage.ts]) *)
(* ================================================================== *)

Record InsertApplication : Type := {
  ins_jobId : Id;
  ins_candidateName : string;
  ins_candidateEmail : string
}.

(** The objects handed to [createMessage], [createFlag] and
    [createEvaluation]; a column typed [string] holds whatever value the
    caller read from a model response. *)
Record InsertMessage : Type := {
  im_applicationId : Id;
  im_role : string;
  im_content : value
}.

Record InsertFlag : Type := {
  if_applicationId : Id;
  if_severity : value;
  if_category : value;
  if_excerpt : value
}.

Record InsertEvaluation : Type := {
  ie_applicationId : Id;
  ie_scores : EvaluationResult
}.

Definition with_applications (s : Store) (l : list Application) : Store :=
  {| jobs := jobs s; applications := l; messages := messages s;
     evaluations := evaluations s; flags := flags s;
     next_id := next_id s; clock := clock s |}.

(** The store once the clock was read: the next reading is later. *)
Definition tick (s : Store) : Store :=
  {| jobs := jobs s; applications := applications s; messages := messages s;
     evaluations := evaluations s; flags := flags s;
     next_id := next_id s; clock := S (clock s) |}.

(** The store once a row was inserted: the next identifier is fresh too. *)
Definition advance (s : Store) : Store :=
  {| jobs := jobs s; applications := applications s; messages := messages s;
     evaluations := evaluations s; flags := flags s;
     next_id := S (next_id s); clock := S (clock s) |}.

Definition add_application (s : Store) (a : Application) : Store :=
  advance (with_applications s (applications s ++ [a])).

Definition add_message (s : Store) (m : Message) : Store :=
  advance {| jobs := jobs s; applications := applications s;
             messages := messages s ++ [m];
             evaluations := evaluations s; flags := flags s;
             next_id := next_id s; clock := clock s |}.

Definition add_evaluation (s : Store) (e : Evaluation) : Store :=
  advance {| jobs := jobs s; applications := applications s;
             messages := messages s;
             evaluations := evaluations s ++ [e]; flags := flags s;
             next_id := next_id s; clock := clock s |}.

Definition add_flag (s : Store) (f : Flag) : Store :=
  advance {| jobs := jobs s; applications := applications s;
             messages := messages s;
             evaluations := evaluations s; flags := flags s ++ [f];
             next_id := next_id s; clock := clock s |}.

Definition set_status (id : Id) (st : string) (sub : option Timestamp)
    (a : Application) : Application :=
  if Nat.eqb (app_id a) id then
    {| app_id := app_id a; jobId := jobId a; status := st;
       candidateName := candidateName a; candidateEmail := candidateEmail a;
       startedAt := startedAt a;
       submittedAt := match sub with Some t => Some t | None => submittedAt a end |}
  else a.

(** [ORDER BY created_at] (ascending). *)
Fixpoint insert_by_createdAt (m : Message) (l : list Message) : list Message :=
  match l with
  | [] => [m]
  | x :: r =>
      if Nat.leb (msg_createdAt m) (msg_createdAt x) then m :: l
      else x :: insert_by_createdAt m r
  end.

Definition orderBy_createdAt (l : list Message) : list Message :=
  fold_right insert_by_createdAt [] l.

Definition of_application (applicationId : Id) (m : Message) : bool :=
  Nat.eqb (msg_applicationId m) applicationId.

(** U+0000, which no text and no [jsonb] value of the database can hold. *)
Definition NUL : ascii := Ascii.zero.

(** What a [jsonb] value holds for a value of the program, as it is read
    back: the value that the text [JSON.stringify] writes for it parses
    to.  [undefined], [NaN] and the infinities are written [null]; a
    property whose value is [undefined] is left out; the properties of an
    object are listed in the order they had, where the database keeps them
    in an order of its own.  [None]: the database refuses the text,
    because a string or the name of a property holds U+0000. *)
Fixpoint json_value (v : value) : option value :=
  match v with
  | JUndefined | JNull => Some JNull
  | JBool b => Some (JBool b)
  | JNum (Fin q) => Some (JNum (Fin q))
  | JNum _ => Some JNull
  | JStr s => if occurs NUL s then None else Some (JStr s)
  | JArr l =>
      option_map JArr
        ((fix elements (l : list value) : option (list value) :=
            match l with
            | [] => Some []
            | x :: rest =>
                let? x' := json_value x in
                let? rest' := elements rest in
                Some (x' :: rest')
            end) l)
  | JObj props =>
      option_map JObj
        ((fix properties (l : list (string * value))
            : option (list (string * value)) :=
            match l with
            | [] => Some []
            | (k, x) :: rest =>
                match x with
                | JUndefined => properties rest
                | _ =>
                    if occurs NUL k then None
                    else
                      let? x' := json_value x in
                      let? rest' := properties rest in
                      Some ((k, x') :: rest')
                end
            end) props)
  end.

Section Storage.
Variable env : Env.

(** One statement against the database: it fails as a whole or runs. *)
Definition db {A} (op : DbOp) (body : Store -> Result A * Store) : M A :=
  fun w =>
    if db_fails env op then (Thrown (DbFailure op), w)
    else let (r, s') := body (store w) in
         (r, {| store := s'; sent := sent w |}).

(** The text the driver writes for a value that is no string: that of
    [String(v)] for a boolean, for [NaN], for an infinity and for a whole
    number below 10^21 in size; for any other value, the text the
    environment gives. *)
Definition driver_text (v : value) : string :=
  let other := let (c, rest) := db_text env v in String c rest in
  match v with
  | JBool b => if b then "true" else "false"
  | JNum NaN => "NaN"
  | JNum PosInf => "Infinity"
  | JNum NegInf => "-Infinity"
  | JNum (Fin q) =>
      let r := Qred q in
      if (Qden r =? 1)%positive && (Z.abs (Qnum r) <? 10 ^ 21)
      then show (Qnum r) else other
  | _ => other
  end.

(** What a [text NOT NULL] column receives. *)
Definition column_text (v : value) : option string :=
  match v with
  | JUndefined | JNull => None
  | JStr s => Some s
  | _ => Some (driver_text v)
  end.

Definition getJob (id : Id) : M (option Job) :=
  db OpGetJob (fun s =>
    (Ok (find (fun j => Nat.eqb (job_id j) id) (jobs s)), s)).

Definition getJobByToken (token : string) : M (option Job) :=
  db OpGetJobByToken (fun s =>
    (Ok (find (fun j => String.eqb (jobToken j) token) (jobs s)), s)).

Definition createApplication (app : InsertApplication) : M Application :=
  db OpCreateApplication (fun s =>
    let created :=
      {| app_id := next_id s; jobId := ins_jobId app;
         status := "in_progress";
         candidateName := ins_candidateName app;
         candidateEmail := ins_candidateEmail app;
         startedAt := clock s; submittedAt := None |} in
    (Ok created, add_application s created)).

Definition getApplication (id : Id) : M (option Application) :=
  db OpGetApplication (fun s =>
    (Ok (find (fun a => Nat.eqb (app_id a) id) (applications s)), s)).

Definition updateApplicationStatus (id : Id) (st : string)
  : M (option Application) :=
  db OpUpdateApplicationStatus (fun s =>
    let updated := map (set_status id st None) (applications s) in
    (Ok (find (fun a => Nat.eqb (app_id a) id) updated),
     with_applications s updated)).

Definition submitApplication (id : Id) : M (option Application) :=
  db OpSubmitApplication (fun s =>
    let updated :=
      map (set_status id "submitted" (Some (clock s))) (applications s) in
    (Ok (find (fun a => Nat.eqb (app_id a) id) updated),
     tick (with_applications s updated))).

Definition createMessage (msg : InsertMessage) : M Message :=
  db OpCreateMessage (fun s =>
    match column_text (im_content msg) with
    | None => (Thrown NotNullViolation, s)
    | Some text =>
        let created :=
          {| msg_id := next_id s;
             msg_applicationId := im_applicationId msg;
             role := im_role msg; content := text;
             msg_createdAt := clock s |} in
        (Ok created, add_message s created)
    end).

Definition getMessagesByApplication (applicationId : Id)
  : M (list Message) :=
  db OpGetMessagesByApplication (fun s =>
    (Ok (orderBy_createdAt
           (filter (of_application applicationId) (messages s))), s)).

(** A [text NOT NULL] column of the scorecard: the text of the value, which
    the database refuses when it holds U+0000. *)
Definition text_column (v : value) : Result string :=
  match column_text v with
  | None => Thrown NotNullViolation
  | Some text => if occurs NUL text then Thrown InvalidText else Ok text
  end.

(** A [jsonb NOT NULL] column of the scorecard, as it is read back. *)
Definition jsonb_column (v : value) : Result value :=
  match v with
  | JUndefined | JNull => Thrown NotNullViolation
  | _ => match json_value v with
         | Some stored => Ok stored
         | None => Thrown InvalidText
         end
  end.

(** The columns of the row a scorecard becomes.  The six scores go to
    [real] columns (which hold [NaN] and the integers from 0 to 100 as
    they are), the recommendation and the summary to [text] columns, the
    strengths and the concerns to [jsonb] columns. *)
Definition evaluation_columns (r : EvaluationResult)
  : Result EvaluationResult :=
  match text_column (recommendation r), text_column (summary r),
        jsonb_column (strengths r), jsonb_column (concerns r) with
  | Ok rec, Ok sum, Ok str, Ok con =>
      Ok {| overallScore := overallScore r;
            decisionQuality := decisionQuality r;
            communicationClarity := communicationClarity r;
            structuredProcess := structuredProcess r;
            riskAwareness := riskAwareness r;
            professionalJudgment := professionalJudgment r;
            recommendation := JStr rec;
            summary := JStr sum;
            strengths := str;
            concerns := con |}
  | Thrown e, _, _, _ => Thrown e
  | _, Thrown e, _, _ => Thrown e
  | _, _, Thrown e, _ => Thrown e
  | _, _, _, Thrown e => Thrown e
  end.

(** [evaluations.application_id] is [UNIQUE]. *)
Definition createEvaluation (evaluation : InsertEvaluation) : M Evaluation :=
  db OpCreateEvaluation (fun s =>
    match evaluation_columns (ie_scores evaluation) with
    | Thrown e => (Thrown e, s)
    | Ok columns =>
        if existsb (fun e => Nat.eqb (eval_applicationId e)
                               (ie_applicationId evaluation)) (evaluations s)
        then (Thrown UniqueViolation, s)
        else
          let created :=
            {| eval_id := next_id s;
               eval_applicationId := ie_applicationId evaluation;
               eval_scores := columns;
               eval_createdAt := clock s |} in
          (Ok created, add_evaluation s created)
    end).

Definition getEvaluationByApplication (s : Store) (applicationId : Id)
  : option Evaluation :=
  find (fun e => Nat.eqb (eval_applicationId e) applicationId)
       (evaluations s).

Definition createFlag (flag : InsertFlag) : M Flag :=
  db OpCreateFlag (fun s =>
    match column_text (if_severity flag), column_text (if_category flag),
          column_text (if_excerpt flag) with
    | Some sev, Some cat_, Some exc =>
        let created :=
          {| flag_id := next_id s;
             flag_applicationId := if_applicationId flag;
             severity := sev; category := cat_; excerpt := exc;
             flag_createdAt := clock s |} in
        (Ok created, add_flag s created)
    | _, _, _ => (Thrown NotNullViolation, s)
    end).
End Storage.

(* ================================================================== *)
(** ** Routes ([server/routes.ts]) *)
(* ================================================================== *)

Inductive Body : Type :=
| BMessage (message : string)
| BError (e : Error)
| BTurn (message : Message) (stage : value)
| BApplication (a : option Application).

Record Response : Type := {
  code : nat;
  body : Body
}.

(** [res.json(b)] and [res.status(c).json(b)] *)
Definition json (b : Body) : M Response := ret {| code := 200; body := b |}.
Definition status_json (c : nat) (b : Body) : M Response :=
  ret {| code := c; body := b |}.

(** [status === "submitted" || status === "evaluated"] *)
Definition closed (st : string) : bool :=
  String.eqb st "submitted" || String.eqb st "evaluated".

(** The elements a [for ... of] loop visits. *)
Definition iterate (v : value) : M (list value) :=
  match v with
  | JArr l => ret l
  | JStr s =>
      ret (map (fun c => JStr (String c EmptyString)) (list_ascii_of_string s))
  | _ => throw TypeError
  end.

Section Routes.
Variable env : Env.
Variable interviewAgent : Job -> list Message -> string -> M InterviewResponse.
Variable evaluationAgent : Job -> list Message -> M EvaluationResult.

Fixpoint createFlags (applicationId : Id) (l : list value) : M unit :=
  match l with
  | [] => ret tt
  | flag :: rest =>
      sev <- lift (Get flag "severity") TypeError ;;
      cat_ <- lift (Get flag "category") TypeError ;;
      exc <- lift (Get flag "excerpt") TypeError ;;
      createFlag env {| if_applicationId := applicationId;
                        if_severity := sev;
                        if_category := cat_;
                        if_excerpt := exc |} ;;
      createFlags applicationId rest
  end.

(** The second half of the message route: the interviewer's turn is
    stored, then each detected flag, and the turn is returned. *)
Definition persist_turn (application : Application)
    (aiResponse : InterviewResponse) : M Response :=
  assistantMessage <-
    createMessage env
      {| im_applicationId := app_id application;
         im_role := "assistant";
         im_content := assistant_message aiResponse |} ;;
  detected <- iterate (detected_flags aiResponse) ;;
  createFlags (app_id application) detected ;;
  json (BTurn assistantMessage (stage aiResponse)).

(** [POST /api/public/applications/:appId/message] with body
    [{content}]; a request without content is the one whose content is
    the empty text. *)
Definition post_message_with (appId : Id) (content : string) : M Response :=
  try_catch
    (found <- getApplication env appId ;;
     match found with
     | None => status_json 404 (BMessage "Application not found")
     | Some application =>
         if closed (status application)
         then status_json 400 (BMessage "Interview already submitted")
         else
           foundJob <- getJob env (jobId application) ;;
           match foundJob with
           | None => status_json 404 (BMessage "Job not found")
           | Some job =>
               if String.eqb content ""
               then status_json 400 (BMessage "Message content is required")
               else
                 createMessage env
                   {| im_applicationId := app_id application;
                      im_role := "user";
                      im_content := JStr content |} ;;
                 conversationHistory <-
                   getMessagesByApplication env (app_id application) ;;
                 aiResponse <- interviewAgent job conversationHistory content ;;
                 persist_turn application aiResponse
           end
     end)
    (fun _ => status_json 500 (BMessage "Failed to process message")).

(** The inner [try] of the submit route: score the transcript, store the
    scorecard, mark the application evaluated; whatever is thrown on the
    way is logged and dropped. *)
Definition evaluate (application : Application) (job : Job)
    (conversationHistory : list Message) : M unit :=
  try_catch
    (evalResult <- evaluationAgent job conversationHistory ;;
     createEvaluation env
       {| ie_applicationId := app_id application;
          ie_scores :=
            {| overallScore := overallScore evalResult;
               decisionQuality := decisionQuality evalResult;
               communicationClarity := communicationClarity evalResult;
               structuredProcess := structuredProcess evalResult;
               riskAwareness := riskAwareness evalResult;
               professionalJudgment := professionalJudgment evalResult;
               recommendation := recommendation evalResult;
               summary := summary evalResult;
               strengths := strengths evalResult;
               concerns := concerns evalResult |} |} ;;
     updateApplicationStatus env (app_id application) "evaluated" ;;
     ret tt)
    (fun _ => ret tt).

(** [POST /api/public/applications/:appId/submit] *)
Definition post_submit_with (appId : Id) : M Response :=
  try_catch
    (found <- getApplication env appId ;;
     match found with
     | None => status_json 404 (BMessage "Application not found")
     | Some application =>
         if closed (status application)
         then status_json 400 (BMessage "Interview already submitted")
         else
           foundJob <- getJob env (jobId application) ;;
           match foundJob with
           | None => status_json 404 (BMessage "Job not found")
           | Some job =>
               submitApplication env (app_id application) ;;
               conversationHistory <-
                 getMessagesByApplication env (app_id application) ;;
               match conversationHistory with
               | [] => ret tt
               | _ :: _ => evaluate application job conversationHistory
               end ;;
               json (BMessage "Interview submitted successfully")
           end
     end)
    (fun _ => status_json 500 (BMessage "Failed to submit interview")).
End Routes.

Section RecruiterAndIntake.
Variable env : Env.

(** [PATCH /api/applications/:appId/status] for the authenticated
    recruiter [user], with body [{status}] (absent: the empty text). *)
Definition patch_status (user : Id) (appId : Id) (st : string) : M Response :=
  try_catch
    (found <- getApplication env appId ;;
     match found with
     | None => status_json 404 (BMessage "Application not found")
     | Some application =>
         foundJob <- getJob env (jobId application) ;;
         match foundJob with
         | None => status_json 403 (BMessage "Forbidden")
         | Some job =>
             if negb (Nat.eqb (ownerId job) user)
             then status_json 403 (BMessage "Forbidden")
             else if String.eqb st ""
             then status_json 400 (BMessage "Status is required")
             else
               updated <- updateApplicationStatus env appId st ;;
               json (BApplication updated)
         end
     end)
    (fun _ => status_json 500 (BMessage "Failed to update status")).

(** [POST /api/public/applications]; [candidate] is what
    [insertApplicationSchema.parse] makes of the body ([None]: it
    throws). *)
Definition post_application (token : string)
    (candidate : option (string * string)) : M Response :=
  try_catch
    (foundJob <- getJobByToken env token ;;
     match foundJob with
     | None => status_json 404 (BMessage "Job not found or inactive")
     | Some job =>
         if negb (isActive job)
         then status_json 404 (BMessage "Job not found or inactive")
         else
           parsed <- lift candidate ZodError ;;
           application <-
             createApplication env
               {| ins_jobId := job_id job;
                  ins_candidateName := fst parsed;
                  ins_candidateEmail := snd parsed |} ;;
           status_json 201 (BApplication (Some application))
     end)
    (fun error => status_json 400 (BError error)).
End RecruiterAndIntake.

Definition post_message (env : Env) : Id -> string -> M Response :=
  post_message_with env (runInterviewAgent env).

Definition post_submit (env : Env) : Id -> M Response :=
  post_submit_with env (runEvaluationAgent env).

Inductive Request : Type :=
| PostApplication (token : string) (candidate : option (string * string))
| PostMessage (appId : Id) (content : string)
| PostSubmit (appId : Id)
| PatchStatus (user : Id) (appId : Id) (st : string).

Definition handle (env : Env) (req : Request) : M Response :=
  match req with
  | PostApplication token candidate => post_application env token candidate
  | PostMessage appId content => post_message env appId content
  | PostSubmit appId => post_submit env appId
  | PatchStatus user appId st => patch_status env user appId st
  end.

(** The world after serving the requests in order. *)
Fixpoint serve (env : Env) (reqs : list Request) (w : World) : World :=
  match reqs with
  | [] => w
  | req :: rest => serve env rest (snd (handle env req w))
  end.

(* ================================================================== *)
(** ** Specification vocabulary and sample data *)
(* ================================================================== *)

(** The six numeric fields of a scorecard, by property name. *)
Definition score_fields : list (string * (EvaluationResult -> number)) :=
  [ ("overallScore", overallScore);
    ("decisionQuality", decisionQuality);
    ("communicationClarity", communicationClarity);
    ("structuredProcess", structuredProcess);
    ("riskAwareness", riskAwareness);
    ("professionalJudgment", professionalJudgment) ].


Fixpoint contains (needle hay : string) : bool :=
  String.prefix needle hay ||
  match hay with
  | EmptyString => false
  | String _ rest => contains needle rest
  end.

(** The row of an application, of a job and of an application's scorecard,
    as [getApplication], [getJob] and [getEvaluationByApplication] find
    them. *)
Definition application_of (s : Store) (id : Id) : option Application :=
  find (fun a => Nat.eqb (app_id a) id) (applications s).

Definition job_of (s : Store) (id : Id) : option Job :=
  find (fun j => Nat.eqb (job_id j) id) (jobs s).

Definition status_of (s : Store) (id : Id) : option string :=
  option_map status (application_of s id).

(** The messages of an application, in the order they were inserted. *)
Definition appended (s : Store) (applicationId : Id) : list Message :=
  filter (of_application applicationId) (messages s).

Definition earlier (a b : Message) : Prop :=
  (msg_createdAt a < msg_createdAt b)%nat.

Definition not_later (a b : Message) : Prop :=
  (msg_createdAt a <= msg_createdAt b)%nat.

(** Every message was stamped strictly after those inserted before it, and
    before the present reading of the clock. *)
Definition store_ok (s : Store) : Prop :=
  StronglySorted earlier (messages s) /\
  Forall (fun m => (msg_createdAt m < clock s)%nat) (messages s).

(** At most one scorecard per application. *)
Definition evaluations_unique (s : Store) : Prop :=
  NoDup (map eval_applicationId (evaluations s)).

(** An agent that has no access to the record store. *)
Definition storeless {A} (agent : M A) : Prop :=
  forall w, store (snd (agent w)) = store w.

Definition user_turn (text : string) : ChatMessage :=
  {| chat_role := "user"; chat_content := text |}.

(** A computation that keeps a property of the world, whether it returns
    or throws. *)
Definition preserves {A} (P : World -> Prop) (m : M A) : Prop :=
  forall w, P w -> P (snd (m w)).

(** A property of the record store, read on the world. *)
Definition on_store (P : Store -> Prop) (w : World) : Prop := P (store w).

(** What one statement against the database does to the messages, the
    scorecards and the clock: nothing to the two tables; or one message is
    appended, stamped with the present reading of the clock; or one
    scorecard is appended, for an application that had none.  The clock
    never goes back. *)
Inductive store_step (s s' : Store) : Prop :=
| step_other :
    messages s' = messages s ->
    evaluations s' = evaluations s ->
    (clock s <= clock s')%nat ->
    store_step s s'
| step_message (m : Message) :
    messages s' = messages s ++ [m] ->
    msg_createdAt m = clock s ->
    (clock s < clock s')%nat ->
    evaluations s' = evaluations s ->
    store_step s s'
| step_evaluation (e : Evaluation) :
    messages s' = messages s ->
    (clock s <= clock s')%nat ->
    evaluations s' = evaluations s ++ [e] ->
    ~ In (eval_applicationId e) (map eval_applicationId (evaluations s)) ->
    store_step s s'.

(** The five recommendation tags the Scorer's prompt asks for. *)
Definition recommendations : list string :=
  ["strong_hire"; "hire"; "maybe"; "no_hire"; "strong_no_hire"].

(** A completion service that gives the same answer to every request, over
    a database that never fails. *)
Definition answering (c : Completion) : Env :=
  {| llm := fun _ => c; db_fails := fun _ => false;
     db_text := fun _ => ("?"%char, "") |}.


Definition sample_job : Job :=
  {| job_id := 1%nat; ownerId := 0%nat; title := "Support Engineer";
     description := "Handle escalations."; simulationType := "problem_solving";
     seniorityLevel := "mid"; timeLimitMinutes := 15; numQuestions := 3;
     jobToken := "tok"; isActive := true |}.

(** The same job without a question budget of its own. *)
Definition unbudgeted_job : Job :=
  {| job_id := 1%nat; ownerId := 0%nat; title := "Support Engineer";
     description := "Handle escalations."; simulationType := "problem_solving";
     seniorityLevel := "mid"; timeLimitMinutes := 15; numQuestions := 0;
     jobToken := "tok"; isActive := true |}.

Definition sample_application (st : string) : Application :=
  {| app_id := 2%nat; jobId := 1%nat; status := st; candidateName := "Ada";
     candidateEmail := "ada@example.org"; startedAt := 0%nat;
     submittedAt := None |}.

Definition turn (id : Id) (r c : string) (t : Timestamp) : Message :=
  {| msg_id := id; msg_applicationId := 2%nat; role := r; content := c;
     msg_createdAt := t |}.

Definition sample_history : list Message :=
  [ turn 3 "user" "Hello" 1;
    turn 4 "assistant" "Welcome. A customer reports data loss; what do you do first?" 2;
    turn 5 "user" "I check the backups." 3;
    turn 6 "assistant" "The backups are a week old. What now?" 4 ]%nat.

(** The same four messages, as a table holds them when its rows are not
    in the order of their stamps. *)
Definition unordered_history : list Message :=
  [ turn 5 "user" "I check the backups." 3;
    turn 3 "user" "Hello" 1;
    turn 6 "assistant" "The backups are a week old. What now?" 4;
    turn 4 "assistant" "Welcome. A customer reports data loss; what do you do first?" 2 ]%nat.

Definition sample_store (st : string) (history : list Message) : Store :=
  {| jobs := [sample_job]; applications := [sample_application st];
     messages := history; evaluations := []; flags := [];
     next_id := 7%nat; clock := 5%nat |}.

Definition sample_world (st : string) (history : list Message) : World :=
  {| store := sample_store st history; sent := [] |}.

(** A scorecard whose overall score is a text that is no number. *)
Definition abc_scores : value :=
  JObj [ ("overallScore", JStr "abc");
         ("decisionQuality", JNum (Fin (inject_Z 70)));
         ("recommendation", JStr "hire");
         ("summary", JStr "Solid.");
         ("strengths", JArr [JStr "calm"]);
         ("concerns", JArr []) ].

(** A scorecard with out-of-range and fractional scores. *)
Definition wild_scores : value :=
  JObj [ ("overallScore", JNum (Fin (1234 # 10)));
         ("decisionQuality", JNum (Fin (- (7 # 2))));
         ("communicationClarity", JNum (Fin (145 # 2)));
         ("riskAwareness", JNull);
         ("professionalJudgment", JNum PosInf) ].

(** A scorecard whose recommendation is none of the five tags. *)
Definition odd_recommendation : value :=
  JObj [ ("overallScore", JNum (Fin (inject_Z 80)));
         ("recommendation", JStr "definitely_hire");
         ("strengths", JStr "many") ].



(** The malformed Conductor output of the specification's scenario. *)
Definition malformed_turn : value :=
  JObj [ ("assistant_message", JStr "");
         ("detected_flags", JStr "not-an-array");
         ("stage", JStr "bogus") ].

(* ================================================================== *)
(** ** Proof automation *)
(* ================================================================== *)

(** Inverts a chain of [let?] that ended in [Some]. *)
Ltac invert_let :=
  repeat match goal with
  | H : match ?x with Some _ => _ | None => None end = Some _ |- _ =>
      let E := fresh "E" in destruct x eqn:E; [ | discriminate H]
  | H : (if ?b then _ else None) = Some _ |- _ =>
      let E := fresh "E" in destruct b eqn:E; [ | discriminate H]
  end.

(** A statement that touches neither the messages nor the scorecards. *)
Ltac same_tables := intros s; simpl; apply step_other; simpl; auto.


(* ================================================================== *)
(** ** Further vocabulary: what the routes keep *)
(* ================================================================== *)

(** [l'] is [l] with rows added at the end. *)
Definition extends {A : Type} (l l' : list A) : Prop :=
  exists more, l' = l ++ more.

(** The same application row, up to its status and a submission time that
    is stamped but never erased. *)
Definition same_candidate (a a' : Application) : Prop :=
  app_id a' = app_id a /\
  jobId a' = jobId a /\
  candidateName a' = candidateName a /\
  candidateEmail a' = candidateEmail a /\
  startedAt a' = startedAt a /\
  (submittedAt a <> None -> submittedAt a' <> None).

(** The store only grows: jobs are untouched; messages, flags and
    scorecards keep their rows as they are and gain rows at the end;
    applications keep their rows up to status and submission time and gain
    rows at the end. *)
Record grows (s s' : Store) : Prop := {
  grows_jobs : jobs s' = jobs s;
  grows_messages : extends (messages s) (messages s');
  grows_flags : extends (flags s) (flags s');
  grows_evaluations : extends (evaluations s) (evaluations s');
  grows_applications :
    exists kept more,
      applications s' = kept ++ more /\
      Forall2 same_candidate (applications s) kept
}.

(** A scorecard fit to be stored: each score is an integer in [0,100] or
    [NaN], the recommendation and the summary are not empty, the strengths
    and the concerns are lists. *)
Definition well_formed_scorecard (r : EvaluationResult) : Prop :=
  (forall k f, In (k, f) score_fields -> f r = NaN \/ integer_in 0 100 (f r)) /\
  ToBoolean (recommendation r) = true /\
  ToBoolean (summary r) = true /\
  isArray (strengths r) = true /\
  isArray (concerns r) = true.

Definition scorecards_well_formed (s : Store) : Prop :=
  Forall (fun e => well_formed_scorecard (eval_scores e)) (evaluations s).

(** The status codes a route may answer with. *)
Definition route_codes (req : Request) : list nat :=
  match req with
  | PostApplication _ _ => [201; 400; 404]
  | PostMessage _ _ => [200; 400; 404; 500]
  | PostSubmit _ => [200; 400; 404; 500]
  | PatchStatus _ _ _ => [200; 400; 403; 404; 500]
  end%nat.

(** Every value a computation may return satisfies [Q]. *)
Definition returns_only {A : Type} (Q : A -> Prop) (m : M A) : Prop :=
  forall w a w', m w = (Ok a, w') -> Q a.

(** A computation that never throws. *)
Definition never_throws {A : Type} (m : M A) : Prop :=
  forall w, exists a w', m w = (Ok a, w').

(** The three columns of the row a detected flag becomes; [None] when
    reading the flag raises (it is [null]) or when one of the columns would
    be [NULL] (the field is missing or [null]). *)
Definition flag_columns (env : Env) (flag : value)
  : option (string * string * string) :=
  let? sev := Get flag "severity" in
  let? cat_ := Get flag "category" in
  let? exc := Get flag "excerpt" in
  match column_text env sev, column_text env cat_, column_text env exc with
  | Some a, Some b, Some c => Some (a, b, c)
  | _, _, _ => None
  end.

(** The store after flag rows with the given columns were inserted one
    after the other. *)
Fixpoint add_flags (s : Store) (applicationId : Id)
    (rows : list (string * string * string)) : Store :=
  match rows with
  | [] => s
  | (sev, cat_, exc) :: rest =>
      add_flags
        (add_flag s {| flag_id := next_id s;
                       flag_applicationId := applicationId;
                       severity := sev; category := cat_; excerpt := exc;
                       flag_createdAt := clock s |})
        applicationId rest
  end.

(** A flag row without its identifier and timestamp. *)
Definition flag_fields (f : Flag) : Id * (string * string * string) :=
  (flag_applicationId f, (severity f, category f, excerpt f)).

(** The message row [createMessage] inserts into store [s]. *)
Definition new_message (s : Store) (applicationId : Id) (r text : string)
  : Message :=
  {| msg_id := next_id s; msg_applicationId := applicationId;
     role := r; content := text; msg_createdAt := clock s |}.


(** The application row [createApplication] inserts into store [s]. *)
Definition new_application (s : Store) (job : Id) (name email : string)
  : Application :=
  {| app_id := next_id s; jobId := job; status := "in_progress";
     candidateName := name; candidateEmail := email;
     startedAt := clock s; submittedAt := None |}.

(** The job a sharing token designates. *)
Definition job_by_token (s : Store) (token : string) : option Job :=
  find (fun j => String.eqb (jobToken j) token) (jobs s).

(** No application carries an identifier that is still to be drawn. *)
Definition ids_fresh (s : Store) : Prop :=
  Forall (fun a => (app_id a < next_id s)%nat) (applications s).

(** A turn whose second flag is [null]. *)
Definition faulty_flags_turn : value :=
  JObj [ ("assistant_message", JStr "What would you do next?");
         ("detected_flags",
          JArr [ JObj [ ("severity", JStr "low");
                        ("category", JStr "depth");
                        ("excerpt", JStr "I check the backups.") ];
                 JNull ]);
         ("stage", JStr "follow_up") ].

(** The store once [submitApplication] ran on it. *)
Definition submitted_store (s : Store) (appId : Id) : Store :=
  tick (with_applications s
          (map (set_status appId "submitted" (Some (clock s)))
               (applications s))).

(** The store once [updateApplicationStatus] ran on it. *)
Definition restatused_store (s : Store) (appId : Id) (st : string) : Store :=
  with_applications s (map (set_status appId st None) (applications s)).

(* ================================================================== *)
(** ** The recruiter's and the candidate's read routes *)
(* ================================================================== *)

(** The storage reads the routes above do not use. *)
Inductive ReadOp : Type :=
| OpGetEvaluationByApplication
| OpGetFlagsByApplication
| OpGetApplicationsByJob.

(** The environment of the read routes: the one of the other routes, and
    which of the further reads fail. *)
Record ReadEnv : Type := {
  base_env : Env;
  read_fails : ReadOp -> bool
}.

Inductive ReadBody : Type :=
| RMessage (message : string)
| RJob (job : Job)
| RApplications (apps : list (Application * option Evaluation))
| RReport (application : Application) (job : Job)
    (evaluation : option Evaluation) (flagsList : list Flag)
    (messagesList : list Message)
| RMessages (messagesList : list Message).

Record ReadResponse : Type := {
  read_code : nat;
  read_body : ReadBody
}.

(** [ORDER BY] on one column, as an insertion sort; [before a b] says that
    [a] may precede [b]. *)
Fixpoint insert_by {A : Type} (before : A -> A -> bool) (x : A) (l : list A)
  : list A :=
  match l with
  | [] => [x]
  | y :: r => if before x y then x :: l else y :: insert_by before x r
  end.

Definition sort_by {A : Type} (before : A -> A -> bool) (l : list A) : list A :=
  fold_right (insert_by before) [] l.

(** [orderBy(flags.createdAt)] *)
Definition flag_before (a b : Flag) : bool :=
  Nat.leb (flag_createdAt a) (flag_createdAt b).

(** [orderBy(desc(applications.startedAt))] *)
Definition started_after (a b : Application) : bool :=
  Nat.leb (startedAt b) (startedAt a).

Section ReadRoutes.
Variable renv : ReadEnv.

(** A read of the store: it fails as a whole or gives its rows; it writes
    nothing.  [None] is the exception a failing read raises. *)
Definition query {A : Type} (fails : bool) (rows : A) : option A :=
  if fails then None else Some rows.

Definition read_application (s : Store) (id : Id) : option (option Application) :=
  query (db_fails (base_env renv) OpGetApplication) (application_of s id).

Definition read_job (s : Store) (id : Id) : option (option Job) :=
  query (db_fails (base_env renv) OpGetJob) (job_of s id).

Definition read_messages (s : Store) (applicationId : Id)
  : option (list Message) :=
  query (db_fails (base_env renv) OpGetMessagesByApplication)
        (orderBy_createdAt (appended s applicationId)).

Definition read_evaluation (s : Store) (applicationId : Id)
  : option (option Evaluation) :=
  query (read_fails renv OpGetEvaluationByApplication)
        (getEvaluationByApplication s applicationId).

Definition getFlagsByApplication (s : Store) (applicationId : Id)
  : option (list Flag) :=
  query (read_fails renv OpGetFlagsByApplication)
        (sort_by flag_before
           (filter (fun f => Nat.eqb (flag_applicationId f) applicationId)
                   (flags s))).

Definition getApplicationsByJob (s : Store) (job : Id)
  : option (list Application) :=
  query (read_fails renv OpGetApplicationsByJob)
        (sort_by started_after
           (filter (fun a => Nat.eqb (jobId a) job) (applications s))).

(** [Promise.all(apps.map(async app => ({...app, evaluation})))] *)
Fixpoint with_evaluations (s : Store) (apps : list Application)
  : option (list (Application * option Evaluation)) :=
  match apps with
  | [] => Some []
  | app :: rest =>
      let? evaluation := read_evaluation s (app_id app) in
      let? others := with_evaluations s rest in
      Some ((app, evaluation) :: others)
  end.

Definition answer (c : nat) (b : ReadBody) : option ReadResponse :=
  Some {| read_code := c; read_body := b |}.

(** What the [catch] block of a read route answers when [body] raised. *)
Definition or_500 (body : option ReadResponse) (message : string)
  : ReadResponse :=
  match body with
  | Some r => r
  | None => {| read_code := 500; read_body := RMessage message |}
  end.

(** [GET /api/jobs/:jobId] for the authenticated recruiter [user] *)
Definition get_job (user jobId : Id) (s : Store) : ReadResponse :=
  or_500
    (let? found := read_job s jobId in
     match found with
     | None => answer 404 (RMessage "Job not found")
     | Some job =>
         if negb (Nat.eqb (ownerId job) user)
         then answer 403 (RMessage "Forbidden")
         else answer 200 (RJob job)
     end)
    "Failed to fetch job".

(** [GET /api/jobs/:jobId/applications] *)
Definition get_job_applications (user jobId : Id) (s : Store) : ReadResponse :=
  or_500
    (let? found := read_job s jobId in
     match found with
     | None => answer 404 (RMessage "Job not found")
     | Some job =>
         if negb (Nat.eqb (ownerId job) user)
         then answer 403 (RMessage "Forbidden")
         else
           let? apps := getApplicationsByJob s jobId in
           let? appsWithEvals := with_evaluations s apps in
           answer 200 (RApplications appsWithEvals)
     end)
    "Failed to fetch applications".

(** [GET /api/applications/:appId/report] *)
Definition get_report (user appId : Id) (s : Store) : ReadResponse :=
  or_500
    (let? found := read_application s appId in
     match found with
     | None => answer 404 (RMessage "Application not found")
     | Some application =>
         let? foundJob := read_job s (jobId application) in
         match foundJob with
         | None => answer 403 (RMessage "Forbidden")
         | Some job =>
             if negb (Nat.eqb (ownerId job) user)
             then answer 403 (RMessage "Forbidden")
             else
               let? evaluation := read_evaluation s (app_id application) in
               let? flagsList := getFlagsByApplication s (app_id application) in
               let? messagesList := read_messages s (app_id application) in
               answer 200
                 (RReport application job evaluation flagsList messagesList)
         end
     end)
    "Failed to fetch report".

(** [GET /api/public/applications/:appId/messages] *)
Definition get_messages (appId : Id) (s : Store) : ReadResponse :=
  or_500
    (let? found := read_application s appId in
     match found with
     | None => answer 404 (RMessage "Application not found")
     | Some application =>
         let? msgs := read_messages s (app_id application) in
         answer 200 (RMessages msgs)
     end)
    "Failed to fetch messages".
End ReadRoutes.

(** A read environment in which nothing fails. *)
Definition reading : ReadEnv :=
  {| base_env := answering CallFails; read_fails := fun _ => false |}.

(** A store with two recruiters' jobs and an application to each; the
    messages of the first are not in the order of their stamps. *)
Definition other_job : Job :=
  {| job_id := 11; ownerId := 10; title := "Analyst";
     description := "Reports."; simulationType := "problem_solving";
     seniorityLevel := "senior"; timeLimitMinutes := 20; numQuestions := 5;
     jobToken := "tok2"; isActive := true |}.

Definition other_application : Application :=
  {| app_id := 12; jobId := 11; status := "in_progress";
     candidateName := "Grace"; candidateEmail := "grace@example.org";
     startedAt := 6; submittedAt := None |}.

Definition two_recruiters : Store :=
  {| jobs := [sample_job; other_job];
     applications := [sample_application "evaluated"; other_application];
     messages :=
       unordered_history
       ++ [ {| msg_id := 13; msg_applicationId := 12; role := "user";
               content := "Hi"; msg_createdAt := 7 |} ];
     evaluations :=
       [ {| eval_id := 14; eval_applicationId := 2;
            eval_scores := fallbackEvaluation; eval_createdAt := 8 |} ];
     flags :=
       [ {| flag_id := 15; flag_applicationId := 12; severity := "low";
            category := "tone"; excerpt := "Hi"; flag_createdAt := 9 |} ];
     next_id := 16; clock := 10 |}.

(** A request made by the candidate of application [appId]: a message or
    a submission. *)
Definition by_candidate (appId : Id) (req : Request) : Prop :=
  match req with
  | PostMessage id _ => id = appId
  | PostSubmit id => id = appId
  | _ => False
  end.

(** The tables a route may write to. *)
Definition untouched_by (req : Request) (s s' : Store) : Prop :=
  jobs s' = jobs s /\
  match req with
  | PostApplication _ _ =>
      messages s' = messages s /\ flags s' = flags s /\
      evaluations s' = evaluations s
  | PostMessage _ _ =>
      applications s' = applications s /\ evaluations s' = evaluations s
  | PostSubmit _ =>
      messages s' = messages s /\ flags s' = flags s
  | PatchStatus _ _ _ =>
      messages s' = messages s /\ flags s' = flags s /\
      evaluations s' = evaluations s
  end.

(* ================================================================== *)
(** ** Passwords ([server/auth.ts]) *)
(* ================================================================== *)

Definition Buffer : Type := list Byte.byte.

(** [buf.toString("hex")]: two lower-case digits for each byte. *)
Definition hex_digit (n : N) : ascii :=
  ascii_of_N (if (n <? 10)%N then 48 + n else 87 + n)%N.

Definition hex_of_byte (b : Byte.byte) : string :=
  let n := Byte.to_N b in
  String (hex_digit (n / 16)%N) (String (hex_digit (n mod 16)%N) "").

Fixpoint toString_hex (buf : Buffer) : string :=
  match buf with
  | [] => ""
  | b :: rest => hex_of_byte b ++ toString_hex rest
  end.

(** [Buffer.from(s, "hex")]: one byte for each pair of hexadecimal digits
    of either case, up to the first pair that is not one; a last single
    character is dropped. *)
Definition hex_value (c : ascii) : option N :=
  let n := N_of_ascii c in
  if ((48 <=? n) && (n <=? 57))%N then Some (n - 48)%N
  else if ((97 <=? n) && (n <=? 102))%N then Some (n - 87)%N
  else if ((65 <=? n) && (n <=? 70))%N then Some (n - 55)%N
  else None.

Fixpoint from_hex (s : string) : Buffer :=
  match s with
  | String a (String b rest) =>
      match hex_value a, hex_value b with
      | Some h, Some l =>
          match Byte.of_N (16 * h + l) with
          | Some x => x :: from_hex rest
          | None => []
          end
      | _, _ => []
      end
  | _ => []
  end.

(** [s.split(sep)] for a separator of one character; the result is never
    empty. *)
Fixpoint str_split (sep : ascii) (s : string) : list string :=
  match s with
  | EmptyString => [""]
  | String c rest =>
      if Ascii.eqb c sep then "" :: str_split sep rest
      else match str_split sep rest with
           | piece :: pieces => String c piece :: pieces
           | [] => [String c ""]
           end
  end.

Definition buffer_eqb (a b : Buffer) : bool :=
  (List.length a =? List.length b)%nat
  && forallb (fun p => Byte.eqb (fst p) (snd p)) (combine a b).

(** [timingSafeEqual(a, b)] raises a [RangeError] when the two buffers
    differ in length. *)
Definition timingSafeEqual (a b : Buffer) : option bool :=
  if (List.length a =? List.length b)%nat then Some (buffer_eqb a b)
  else None.

Section Passwords.
(** [scrypt(password, salt, 64)], the key derived from a password and the
    text of a salt. *)
Variable scrypt : string -> string -> Buffer.

(** [hashPassword], given the sixteen bytes [randomBytes(16)] drew. *)
Definition hashPassword (drawn : Buffer) (password : string) : string :=
  let salt := toString_hex drawn in
  let buf := scrypt password salt in
  cat [toString_hex buf; "."; salt].

(** [comparePasswords]; [None] when it raises: [salt] is [undefined]
    when the stored text has no dot, and [scrypt] refuses it. *)
Definition comparePasswords (supplied stored : string) : option bool :=
  match str_split "." stored with
  | hashed :: salt :: _ =>
      let hashedBuf := from_hex hashed in
      let suppliedBuf := scrypt supplied salt in
      timingSafeEqual hashedBuf suppliedBuf
  | _ => None
  end.
End Passwords.

(* ================================================================== *)
(** ** The report page ([client/src/pages/candidate-report.tsx]) *)
(* ================================================================== *)

Inductive BadgeVariant : Type := VDefault | VDestructive | VSecondary.

Record Badge : Type := {
  variant : BadgeVariant;
  label : string
}.

(** [s.toLowerCase()] on the letters A to Z.  The other characters that
    [toLowerCase] changes turn into characters outside a to z, except the
    Kelvin sign (to k) and the dotted capital I (to i and a combining dot):
    neither k nor i occurs in the three words the badge looks for, so the
    searches below see what they see in JavaScript. *)
Definition lower_ascii (c : ascii) : ascii :=
  let n := nat_of_ascii c in
  if ((65 <=? n) && (n <=? 90))%nat then ascii_of_nat (n + 32) else c.

Fixpoint toLowerCase (s : string) : string :=
  match s with
  | EmptyString => EmptyString
  | String c rest => String (lower_ascii c) (toLowerCase rest)
  end.

Definition recommendationBadge (recommendation : string) : Badge :=
  let lower := toLowerCase recommendation in
  if contains "strong" lower && contains "yes" lower
  then {| variant := VDefault; label := "Strong Yes" |}
  else if contains "yes" lower
  then {| variant := VDefault; label := "Yes" |}
  else if contains "no" lower && contains "strong" lower
  then {| variant := VDestructive; label := "Strong No" |}
  else if contains "no" lower
  then {| variant := VDestructive; label := "No" |}
  else {| variant := VSecondary; label := recommendation |}.

(* ================================================================== *)
(** ** The interview page's clock ([client/src/pages/interview.tsx]) *)
(* ================================================================== *)

(** The numbers of milliseconds the clock is embedded for: the whole
    numbers from 0 to 2^52, [Date.now()] and every time limit of minutes
    among them.  On these the doubles of the page and the integers below
    agree: sums and differences stay below 2^53 in size, where every whole
    number is a double; [Math.floor] of a quotient by 1000 or 60 is the
    quotient of the integers; and a number of minutes below 10^21 is
    printed digit by digit.  The properties of the clock are stated for
    such numbers only. *)
Definition clock_time (z : Z) : Prop := 0 <= z < 2 ^ 52.

(** The time left, in milliseconds, as the page's interval computes it
    from [Date.now()], the time the page was opened and the time limit. *)
Definition remaining (timeLimitMs startTime now : Z) : Z :=
  let elapsed := now - startTime in
  Z.max 0 (timeLimitMs - elapsed).

Fixpoint replicate (n : nat) (c : ascii) : string :=
  match n with
  | O => EmptyString
  | S k => String c (replicate k c)
  end.

(** [s.padStart(n, c)] for a filler of one character. *)
Definition padStart (n : nat) (c : ascii) (s : string) : string :=
  replicate (n - String.length s) c ++ s.

(** [formatTime], on a whole number of milliseconds from 0 to 2^53:
    there [Math.floor] of a quotient is [Z.div] and [%] is [Z.rem]. *)
Definition formatTime (ms : Z) : string :=
  let totalSeconds := ms / 1000 in
  let minutes := totalSeconds / 60 in
  let seconds := Z.rem totalSeconds 60 in
  cat [show minutes; ":"; padStart 2 "0" (show seconds)].
(* ================================================================== *)
(** ** Properties of the value model *)
(* ================================================================== *)

Lemma Qle_bool_inject (a b : Z) :
  Qle_bool (inject_Z a) (inject_Z b) = (a <=? b).
Proof.
  unfold Qle_bool, inject_Z; simpl. now rewrite !Z.mul_1_r.
Qed.


(** Rounding and then clamping a number that is not [NaN] gives an integer
    between 0 and 100. *)
Lemma clamp_number_range (x : number) :
  x <> NaN ->
  integer_in 0 100 (Math_max zero (Math_min hundred (Math_round x))).
Proof.
  intros Hx. destruct x as [ | | | q].
  - contradiction.
  - exists 100. split; [reflexivity | lia].
  - exists 0. split; [reflexivity | lia].
  - unfold Math_round. set (z := Qfloor (q + (1 # 2))).
    unfold Math_min, hundred, lt.
    rewrite Qle_bool_inject.
    destruct (100 <=? z) eqn:Hhi; cbn [negb].
    + exists 100. split; [reflexivity | lia].
    + unfold Math_max, zero, lt. rewrite Qle_bool_inject.
      destruct (z <=? 0) eqn:Hlo; cbn [negb].
      * exists 0. split; [reflexivity | lia].
      * exists z. split; [reflexivity | lia].
Qed.

Lemma clamp_NaN :
  Math_max zero (Math_min hundred (Math_round NaN)) = NaN.
Proof. reflexivity. Qed.

(** [clamp] gives [NaN] or an integer between 0 and 100. *)
Lemma clamp_cases (v : value) (n : number) :
  clamp v = Some n -> n = NaN \/ integer_in 0 100 n.
Proof.
  unfold clamp. destruct (ToNumber (or_else v (JNum zero))) as [x | ]; [ | discriminate].
  intros H; injection H as <-.
  destruct x as [ | | | q].
  - left; reflexivity.
  - right; apply clamp_number_range; discriminate.
  - right; apply clamp_number_range; discriminate.
  - right; apply clamp_number_range; discriminate.
Qed.



(* ================================================================== *)
(** ** The Scorer *)
(* ================================================================== *)

Lemma clampField_inv (parsed : value) (k : string) (n : number) :
  clampField parsed k = Some n ->
  assignable parsed = true /\
  exists v, Get parsed k = Some v /\ clamp v = Some n.
Proof.
  unfold clampField. intros H. invert_let. injection H as <-.
  split; [reflexivity | ]. exists v; split; [reflexivity | assumption].
Qed.

(** What [scoreParsed] returns, field by field. *)
Lemma scoreParsed_inv (parsed : value) (r : EvaluationResult) :
  scoreParsed parsed = Some r ->
  (forall k f, In (k, f) score_fields -> clampField parsed k = Some (f r)) /\
  defaultField parsed "recommendation" (JStr "maybe") = Some (recommendation r) /\
  defaultField parsed "summary" (JStr "Evaluation completed.") = Some (summary r) /\
  arrayField parsed "strengths" = Some (strengths r) /\
  arrayField parsed "concerns" = Some (concerns r).
Proof.
  unfold scoreParsed. intros H. invert_let. injection H as <-. simpl.
  repeat split; try assumption.
  intros k f Hin. unfold score_fields in Hin. simpl in Hin.
  repeat (destruct Hin as [Hin | Hin];
          [injection Hin as <- <-; assumption | ]).
  contradiction.
Qed.

(** The Scorer always returns a scorecard: it never throws. *)
Lemma runEvaluationAgent_returns env job history w :
  exists r,
    runEvaluationAgent env job history w
    = (Ok r, {| store := store w;
                sent := sent w ++ [evaluationMessages job history] |}) /\
    (r = fallbackEvaluation \/
     exists parsed,
       llm env (evaluationMessages job history) = Parsed parsed /\
       scoreParsed parsed = Some r).
Proof.
  unfold runEvaluationAgent, try_catch, bind, complete.
  destruct (llm env (evaluationMessages job history)) as [ | | parsed] eqn:Hllm.
  - exists fallbackEvaluation. split; [reflexivity | left; reflexivity].
  - exists fallbackEvaluation. split; [reflexivity | left; reflexivity].
  - destruct (scoreParsed parsed) as [r | ] eqn:Hs; simpl.
    + exists r. split; [reflexivity | right; exists parsed; split; [reflexivity | assumption]].
    + exists fallbackEvaluation. split; [reflexivity | left; reflexivity].
Qed.

(** The Scorer has no access to the record store. *)
Lemma runEvaluationAgent_storeless env job history :
  storeless (runEvaluationAgent env job history).
Proof.
  intros w.
  destruct (runEvaluationAgent_returns env job history w) as [r [-> _]].
  reflexivity.
Qed.

Lemma fallback_scores k f :
  In (k, f) score_fields -> f fallbackEvaluation = fifty.
Proof.
  unfold score_fields; simpl; intros Hin.
  repeat (destruct Hin as [Hin | Hin]; [injection Hin as <- <-; reflexivity | ]).
  contradiction.
Qed.



(** Out-of-range, fractional, infinite, [null] and missing scores, run:
    123.4 becomes 100, -3.5 becomes 0, 72.5 becomes 73, [Infinity] becomes
    100, [null] and a missing field become 0. *)
Example wild_scores_clamped :
  fst (runEvaluationAgent (answering (Parsed wild_scores)) sample_job
         sample_history (sample_world "submitted" sample_history))
  = Ok {| overallScore := Fin (inject_Z 100);
          decisionQuality := Fin (inject_Z 0);
          communicationClarity := Fin (inject_Z 73);
          structuredProcess := Fin (inject_Z 0);
          riskAwareness := Fin (inject_Z 0);
          professionalJudgment := Fin (inject_Z 100);
          recommendation := JStr "maybe";
          summary := JStr "Evaluation completed.";
          strengths := JArr [];
          concerns := JArr [] |}.
Proof. vm_compute. reflexivity. Qed.

(** C4.  When the completion call fails, the Scorer returns the neutral
    scorecard: 50 for the overall score and for each of the five
    dimensions, recommendation [maybe], a summary saying that the
    evaluation could not be completed and that a manual review is
    recommended, one placeholder strength and one placeholder concern. *)
Theorem C4_fallback_on_failed_completion
    (env : Env) (job : Job) (history : list Message) (w : World) :
  llm env (evaluationMessages job history) = CallFails ->
  exists (r : EvaluationResult) (w' : World),
    runEvaluationAgent env job history w = (Ok r, w') /\
    (forall k f, In (k, f) score_fields -> f r = Fin (inject_Z 50)) /\
    recommendation r = JStr "maybe" /\
    (exists text,
       summary r = JStr text /\
       contains "could not be fully completed" text = true /\
       contains "manual review is recommended" text = true) /\
    strengths r = JArr [JStr "Completed the interview simulation"] /\
    concerns r = JArr [JStr "Automated evaluation encountered an error"].
Proof.
  intros Hllm.
  exists fallbackEvaluation. eexists. split.
  - unfold runEvaluationAgent, try_catch, bind, complete. rewrite Hllm.
    reflexivity.
  - split; [exact fallback_scores | ].
    split; [reflexivity | ].
    split; [ | split; reflexivity].
    eexists. split; [reflexivity | split; reflexivity].
Qed.

(** The fallback, at a service that always fails. *)
Lemma C4_witness :
  exists (r : EvaluationResult) (w' : World),
    runEvaluationAgent (answering CallFails) sample_job sample_history
      (sample_world "submitted" sample_history) = (Ok r, w') /\
    (forall k f, In (k, f) score_fields -> f r = Fin (inject_Z 50)) /\
    recommendation r = JStr "maybe" /\
    (exists text,
       summary r = JStr text /\
       contains "could not be fully completed" text = true /\
       contains "manual review is recommended" text = true) /\
    strengths r = JArr [JStr "Completed the interview simulation"] /\
    concerns r = JArr [JStr "Automated evaluation encountered an error"].
Proof.
  apply (C4_fallback_on_failed_completion (answering CallFails) sample_job
           sample_history (sample_world "submitted" sample_history)).
  reflexivity.
Defined.

(** Unparseable content ends in the same scorecard. *)
Lemma fallback_on_unparseable_content env job history w :
  llm env (evaluationMessages job history) = Unparseable ->
  fst (runEvaluationAgent env job history w) = Ok fallbackEvaluation.
Proof.
  intros Hllm. unfold runEvaluationAgent, try_catch, bind, complete.
  rewrite Hllm. reflexivity.
Qed.

(** Conversion to a number raises only on unconvertible values. *)
Lemma ToNumber_defined :
  forall v, unconvertible v = false -> exists n, ToNumber v = Some n.
Proof.
  fix IH 1. intros v. destruct v as [ | | b | n | s | l | props].
  - intros _. eexists. reflexivity.
  - intros _. eexists. reflexivity.
  - intros _. eexists. reflexivity.
  - intros _. eexists. reflexivity.
  - intros _. eexists. reflexivity.
  - intros H. simpl in H. simpl. rewrite H.
    destruct l as [ | x [ | y rest]].
    + eexists. reflexivity.
    + pose proof (IH x) as IHx. clear IH.
      simpl in H. rewrite orb_false_r in H.
      destruct x as [ | | b | n | s | l' | props].
      * eexists. reflexivity.
      * eexists. reflexivity.
      * eexists. reflexivity.
      * eexists. reflexivity.
      * eexists. reflexivity.
      * exact (IHx H).
      * eexists. reflexivity.
    + eexists. reflexivity.
  - intros H. simpl in H. simpl. rewrite H. eexists. reflexivity.
Qed.

Lemma clamp_defined (v : value) :
  unconvertible v = false -> exists n, clamp v = Some n.
Proof.
  intros H. unfold clamp, or_else.
  destruct (ToBoolean v).
  - destruct (ToNumber_defined v H) as [x ->]. eauto.
  - simpl. eauto.
Qed.

Lemma Get_assignable (parsed : value) (k : string) :
  assignable parsed = true -> exists v, Get parsed k = Some v.
Proof.
  destruct parsed; simpl; try discriminate; eauto.
Qed.

Lemma clampField_defined (parsed : value) (k : string) :
  assignable parsed = true ->
  (forall v, Get parsed k = Some v -> unconvertible v = false) ->
  exists n, clampField parsed k = Some n.
Proof.
  intros Ha Hv. destruct (Get_assignable parsed k Ha) as [v Hget].
  destruct (clamp_defined v (Hv v Hget)) as [n Hn].
  exists n. unfold clampField. now rewrite Hget, Hn, Ha.
Qed.

Lemma defaultField_spec (parsed : value) (k : string) (d v : value) :
  assignable parsed = true -> Get parsed k = Some v ->
  defaultField parsed k d = Some (if ToBoolean v then v else d).
Proof.
  intros Ha Hget. unfold defaultField. rewrite Hget, Ha.
  now destruct (ToBoolean v).
Qed.

Lemma arrayField_spec (parsed : value) (k : string) (v : value) :
  assignable parsed = true -> Get parsed k = Some v ->
  arrayField parsed k = Some (if isArray v then v else JArr []).
Proof.
  intros Ha Hget. unfold arrayField. rewrite Hget, Ha.
  now destruct (isArray v).
Qed.

(** The [try] block runs to its end on an object (or array) none of whose
    score fields is unconvertible. *)
Lemma scoreParsed_defined (parsed : value) :
  assignable parsed = true ->
  (forall k f v, In (k, f) score_fields -> Get parsed k = Some v ->
                 unconvertible v = false) ->
  exists r, scoreParsed parsed = Some r.
Proof.
  intros Ha Hv.
  assert (Hc : forall k f, In (k, f) score_fields ->
                           exists n, clampField parsed k = Some n).
  { intros k f Hin. apply clampField_defined; [exact Ha | ].
    intros v Hget. exact (Hv k f v Hin Hget). }
  unfold scoreParsed.
  destruct (Hc "overallScore" overallScore) as [n1 ->]; [simpl; tauto | ].
  destruct (Hc "decisionQuality" decisionQuality) as [n2 ->]; [simpl; tauto | ].
  destruct (Hc "communicationClarity" communicationClarity) as [n3 ->]; [simpl; tauto | ].
  destruct (Hc "structuredProcess" structuredProcess) as [n4 ->]; [simpl; tauto | ].
  destruct (Hc "riskAwareness" riskAwareness) as [n5 ->]; [simpl; tauto | ].
  destruct (Hc "professionalJudgment" professionalJudgment) as [n6 ->]; [simpl; tauto | ].
  destruct (Get_assignable parsed "recommendation" Ha) as [v1 H1].
  destruct (Get_assignable parsed "summary" Ha) as [v2 H2].
  destruct (Get_assignable parsed "strengths" Ha) as [v3 H3].
  destruct (Get_assignable parsed "concerns" Ha) as [v4 H4].
  rewrite (defaultField_spec _ _ _ _ Ha H1), (defaultField_spec _ _ _ _ Ha H2),
          (arrayField_spec _ _ _ Ha H3), (arrayField_spec _ _ _ Ha H4).
  eauto.
Qed.

(** C8 (as amended).  When the completion parses to an object (or array)
    none of whose score fields raises on conversion, the scorecard returned
    has: the model's recommendation, whatever text it is, unless it is
    missing or otherwise falsy, in which case [maybe]; the model's summary
    unless it is missing or falsy, in which case [Evaluation completed.];
    and the model's strengths and concerns when they are lists, the empty
    list otherwise. *)
Theorem C8_scorer_defaults
    (env : Env) (job : Job) (history : list Message) (w : World)
    (parsed : value) :
  llm env (evaluationMessages job history) = Parsed parsed ->
  assignable parsed = true ->
  (forall k f v, In (k, f) score_fields -> Get parsed k = Some v ->
                 unconvertible v = false) ->
  exists (r : EvaluationResult) (w' : World),
    runEvaluationAgent env job history w = (Ok r, w') /\
    (forall v, Get parsed "recommendation" = Some v ->
       recommendation r = if ToBoolean v then v else JStr "maybe") /\
    (forall v, Get parsed "summary" = Some v ->
       summary r = if ToBoolean v then v else JStr "Evaluation completed.") /\
    (forall v, Get parsed "strengths" = Some v ->
       strengths r = if isArray v then v else JArr []) /\
    (forall v, Get parsed "concerns" = Some v ->
       concerns r = if isArray v then v else JArr []).
Proof.
  intros Hllm Ha Hv.
  destruct (scoreParsed_defined parsed Ha Hv) as [r Hs].
  exists r. eexists. split.
  - unfold runEvaluationAgent, try_catch, bind, complete.
    rewrite Hllm, Hs. reflexivity.
  - destruct (scoreParsed_inv parsed r Hs) as [_ [Hrec [Hsum [Hstr Hcon]]]].
    repeat split; intros v Hget.
    + rewrite (defaultField_spec _ _ _ _ Ha Hget) in Hrec. now injection Hrec.
    + rewrite (defaultField_spec _ _ _ _ Ha Hget) in Hsum. now injection Hsum.
    + rewrite (arrayField_spec _ _ _ Ha Hget) in Hstr. now injection Hstr.
    + rewrite (arrayField_spec _ _ _ Ha Hget) in Hcon. now injection Hcon.
Qed.

(** The defaults, at a scorecard that has scores only. *)
Lemma C8_witness :
  exists (r : EvaluationResult) (w' : World),
    runEvaluationAgent (answering (Parsed wild_scores)) sample_job
      sample_history (sample_world "submitted" sample_history) = (Ok r, w') /\
    (forall v, Get wild_scores "recommendation" = Some v ->
       recommendation r = if ToBoolean v then v else JStr "maybe") /\
    (forall v, Get wild_scores "summary" = Some v ->
       summary r = if ToBoolean v then v else JStr "Evaluation completed.") /\
    (forall v, Get wild_scores "strengths" = Some v ->
       strengths r = if isArray v then v else JArr []) /\
    (forall v, Get wild_scores "concerns" = Some v ->
       concerns r = if isArray v then v else JArr []).
Proof.
  apply (C8_scorer_defaults (answering (Parsed wild_scores)) sample_job
           sample_history (sample_world "submitted" sample_history)
           wild_scores).
  - reflexivity.
  - reflexivity.
  - intros k f v Hin Hget. unfold score_fields in Hin. simpl in Hin.
    repeat (destruct Hin as [Hin | Hin];
            [injection Hin as <- <-; vm_compute in Hget;
             injection Hget as <-; reflexivity | ]).
    contradiction.
Defined.

(** C8 (as stated) fails: a recommendation that is none of the five tags
    is returned unchanged, not replaced by [maybe]. *)
Lemma C8_counterexample :
  exists r : EvaluationResult,
    fst (runEvaluationAgent (answering (Parsed odd_recommendation)) sample_job
           sample_history (sample_world "submitted" sample_history)) = Ok r /\
    includes recommendations (JStr "definitely_hire") = false /\
    recommendation r = JStr "definitely_hire" /\
    recommendation r <> JStr "maybe".
Proof.
  eexists. split; [vm_compute; reflexivity | ]. simpl.
  split; [reflexivity | split; [reflexivity | discriminate]].
Qed.

(* ================================================================== *)
(** ** The Conductor *)
(* ================================================================== *)

Lemma stageField_spec (parsed v : value) :
  assignable parsed = true -> Get parsed "stage" = Some v ->
  stageField parsed = Some (if includes stages v then v else JStr "questioning").
Proof.
  intros Ha Hget. unfold stageField. rewrite Hget, Ha.
  now destruct (includes stages v).
Qed.

Lemma defaultField_truthy (parsed : value) (k : string) (d v : value) :
  ToBoolean d = true -> defaultField parsed k d = Some v -> ToBoolean v = true.
Proof.
  unfold defaultField. intros Hd H.
  destruct (Get parsed k) as [x | ]; [ | discriminate].
  destruct (ToBoolean x) eqn:Hx.
  - injection H as <-. exact Hx.
  - destruct (assignable parsed); [ | discriminate]. injection H as <-. exact Hd.
Qed.

Lemma arrayField_array (parsed : value) (k : string) (v : value) :
  arrayField parsed k = Some v -> exists l, v = JArr l.
Proof.
  unfold arrayField. intros H.
  destruct (Get parsed k) as [x | ]; [ | discriminate].
  destruct (isArray x) eqn:Hx.
  - injection H as <-. destruct x; try discriminate. eauto.
  - destruct (assignable parsed); [ | discriminate]. injection H as <-. eauto.
Qed.

Lemma stageField_stage (parsed v : value) :
  stageField parsed = Some v -> includes stages v = true.
Proof.
  unfold stageField. intros H.
  destruct (Get parsed "stage") as [x | ]; [ | discriminate].
  destruct (includes stages x) eqn:Hx.
  - injection H as <-. exact Hx.
  - destruct (assignable parsed); [ | discriminate]. injection H as <-.
    reflexivity.
Qed.

(** The Conductor always returns a turn, and always issues exactly one
    request: the assembled [messages] array. *)
Lemma runInterviewAgent_returns env job history candidateMessage w :
  exists r,
    runInterviewAgent env job history candidateMessage w
    = (Ok r, {| store := store w;
                sent := sent w
                        ++ [interviewMessages job history candidateMessage] |}) /\
    (r = fallbackInterview \/
     exists parsed,
       llm env (interviewMessages job history candidateMessage) = Parsed parsed /\
       validateParsed parsed = Some r).
Proof.
  unfold runInterviewAgent, try_catch, bind, complete.
  destruct (llm env (interviewMessages job history candidateMessage))
    as [ | | parsed] eqn:Hllm.
  - exists fallbackInterview. split; [reflexivity | left; reflexivity].
  - exists fallbackInterview. split; [reflexivity | left; reflexivity].
  - destruct (validateParsed parsed) as [r | ] eqn:Hs; simpl.
    + exists r. split; [reflexivity | right; exists parsed; now split].
    + exists fallbackInterview. split; [reflexivity | left; reflexivity].
Qed.

(** C6.  The Conductor always returns a turn whose message is not empty,
    whose flags are a list and whose stage is one of the four tags.  When
    the completion parses to an object, an empty (or missing) message is
    replaced by the clarifying prompt, flags that are not a list by the
    empty list, and a stage outside the four tags by [questioning], and
    what is well-formed is kept; so the malformed output of the
    specification's scenario becomes the clarifying prompt, no flags and
    stage [questioning]. *)
Theorem C6_conductor_validation :
  forall (env : Env) (job : Job) (history : list Message)
         (candidateMessage : string) (w : World),
  exists (r : InterviewResponse) (w' : World),
    runInterviewAgent env job history candidateMessage w = (Ok r, w') /\
    ToBoolean (assistant_message r) = true /\
    assistant_message r <> JStr "" /\
    (exists l, detected_flags r = JArr l) /\
    (exists s, stage r = JStr s /\ In s stages) /\
    (forall parsed m f s,
       llm env (interviewMessages job history candidateMessage) = Parsed parsed ->
       assignable parsed = true ->
       Get parsed "assistant_message" = Some m ->
       Get parsed "detected_flags" = Some f ->
       Get parsed "stage" = Some s ->
       assistant_message r
       = (if ToBoolean m then m else JStr "Could you elaborate on that?") /\
       detected_flags r = (if isArray f then f else JArr []) /\
       stage r = (if includes stages s then s else JStr "questioning")) /\
    (llm env (interviewMessages job history candidateMessage)
     = Parsed malformed_turn ->
     r = {| assistant_message := JStr "Could you elaborate on that?";
            detected_flags := JArr [];
            stage := JStr "questioning" |}).
Proof.
  intros env job history candidateMessage w.
  destruct (runInterviewAgent_returns env job history candidateMessage w)
    as [r [Hrun Hr]].
  exists r. eexists. split; [exact Hrun | ].
  assert (Htruthy : ToBoolean (assistant_message r) = true /\
                    (exists l, detected_flags r = JArr l) /\
                    includes stages (stage r) = true).
  { destruct Hr as [-> | [parsed [_ Hv]]].
    - split; [reflexivity | split; [now exists [] | reflexivity]].
    - unfold validateParsed in Hv. invert_let. injection Hv as <-. simpl.
      split; [ | split].
      + eapply defaultField_truthy; [ | eassumption]. reflexivity.
      + eapply arrayField_array; eassumption.
      + eapply stageField_stage; eassumption. }
  destruct Htruthy as [Hmsg [Hflags Hstage]].
  split; [exact Hmsg | ].
  split; [intros Heq; rewrite Heq in Hmsg; discriminate | ].
  split; [exact Hflags | ].
  split.
  { destruct (stage r) as [ | | | | s | | ]; try discriminate.
    exists s. split; [reflexivity | ].
    change (existsb (String.eqb s) stages = true) in Hstage.
    apply existsb_exists in Hstage.
    destruct Hstage as [t [Hin Heq]].
    apply String.eqb_eq in Heq. now subst. }
  assert (Hspec : forall parsed m f s,
    llm env (interviewMessages job history candidateMessage) = Parsed parsed ->
    assignable parsed = true ->
    Get parsed "assistant_message" = Some m ->
    Get parsed "detected_flags" = Some f ->
    Get parsed "stage" = Some s ->
    r = {| assistant_message :=
             if ToBoolean m then m else JStr "Could you elaborate on that?";
           detected_flags := if isArray f then f else JArr [];
           stage := if includes stages s then s else JStr "questioning" |}).
  { intros parsed m f s Hllm Ha Hm Hf Hs.
    assert (Hv : validateParsed parsed
                 = Some {| assistant_message :=
                             if ToBoolean m then m
                             else JStr "Could you elaborate on that?";
                           detected_flags := if isArray f then f else JArr [];
                           stage := if includes stages s then s
                                    else JStr "questioning" |}).
    { unfold validateParsed.
      rewrite (defaultField_spec _ _ _ _ Ha Hm), (arrayField_spec _ _ _ Ha Hf),
              (stageField_spec _ _ Ha Hs). reflexivity. }
    unfold runInterviewAgent, try_catch, bind, complete in Hrun.
    rewrite Hllm, Hv in Hrun. simpl in Hrun. now injection Hrun. }
  split.
  - intros parsed m f s Hllm Ha Hm Hf Hs.
    rewrite (Hspec parsed m f s Hllm Ha Hm Hf Hs). simpl. repeat split.
  - intros Hllm.
    exact (Hspec malformed_turn (JStr "") (JStr "not-an-array") (JStr "bogus")
             Hllm eq_refl eq_refl eq_refl eq_refl).
Qed.

(** The scenario of C6, run. *)
Example malformed_turn_normalized :
  fst (runInterviewAgent (answering (Parsed malformed_turn)) sample_job
         sample_history "I restore the backups."
         (sample_world "in_progress" sample_history))
  = Ok {| assistant_message := JStr "Could you elaborate on that?";
          detected_flags := JArr [];
          stage := JStr "questioning" |}.
Proof. vm_compute. reflexivity. Qed.

Lemma questionCount_count_occ (history : list Message) :
  questionCount history
  = Z.of_nat (count_occ string_dec (map role history) "assistant").
Proof.
  unfold questionCount. f_equal.
  induction history as [ | m rest IH]; [reflexivity | ].
  simpl. unfold is_assistant at 1.
  destruct (String.eqb_spec (role m) "assistant") as [Heq | Hne];
    destruct (string_dec (role m) "assistant") as [Heq' | Hne'];
    try contradiction; simpl; now rewrite IH.
Qed.

Lemma prefix_append (a b : string) : String.prefix a (a ++ b) = true.
Proof.
  induction a as [ | c a IH]; [destruct b; reflexivity | ].
  simpl. destruct (ascii_dec c c) as [_ | Hne]; [exact IH | contradiction].
Qed.

Lemma contains_append_r (needle a b : string) :
  contains needle b = true -> contains needle (a ++ b) = true.
Proof.
  intros H. induction a as [ | c a IH]; [exact H | ].
  simpl. rewrite IH. apply orb_true_r.
Qed.

Lemma contains_append (needle a b : string) :
  contains needle (a ++ needle ++ b) = true.
Proof.
  apply contains_append_r.
  pose proof (prefix_append needle b) as H.
  destruct (needle ++ b)%string as [ | c rest].
  - change (contains needle "") with (String.prefix needle "" || false).
    now rewrite H.
  - change (contains needle (String c rest))
      with (String.prefix needle (String c rest) || contains needle rest).
    now rewrite H.
Qed.

Lemma append_assoc (a b c : string) :
  ((a ++ b) ++ c = a ++ b ++ c)%string.
Proof.
  induction a as [ | x a IH]; [reflexivity | ]. simpl. now rewrite IH.
Qed.

(** A line that is neither the first nor the last of a text stands in it
    between two line breaks. *)
Lemma line_in_text (l : list string) (i : nat) (x : string) :
  nth_error l (S i) = Some x ->
  (S (S i) < List.length l)%nat ->
  contains (nl ++ x ++ nl) (lines l) = true.
Proof.
  revert i. induction l as [ | a l IH]; intros i Hnth Hlen;
    [simpl in Hlen; lia | ].
  simpl in Hnth, Hlen.
  destruct l as [ | b l]; [destruct i; discriminate Hnth | ].
  change (lines (a :: b :: l)) with (a ++ nl ++ lines (b :: l))%string.
  destruct i as [ | i].
  - simpl in Hnth. injection Hnth as ->.
    destruct l as [ | c l]; [simpl in Hlen; lia | ].
    change (lines (x :: c :: l)) with (x ++ nl ++ lines (c :: l))%string.
    rewrite <- (append_assoc x nl), <- (append_assoc nl (x ++ nl)).
    apply contains_append.
  - apply contains_append_r. apply contains_append_r.
    apply (IH i); [exact Hnth | simpl in *; lia].
Qed.

(** C7 (as amended).  The count written into the prompt of a turn is the
    number of assistant-authored messages of the history handed in (zero
    for the empty history): the prompt sent holds the line
    [Questions Asked So Far: count], and its rule for stage [closing] is
    the line [- "closing" if wrapping up (count >= limit - 1)], where the
    limit is the job's [numQuestions], or 8 when that is 0. *)
Theorem C7_question_count_in_prompt
    (env : Env) (job : Job) (history : list Message)
    (candidateMessage : string) (w : World) :
  let count := Z.of_nat (count_occ string_dec (map role history) "assistant") in
  let limit := if numQuestions job =? 0 then 8 else numQuestions job in
  questionCount history = count /\
  questionCount [] = 0 /\
  exists prompt turns,
    sent (snd (runInterviewAgent env job history candidateMessage w))
    = sent w
      ++ [ {| chat_role := "system"; chat_content := prompt |} :: turns ] /\
    contains
      (cat [nl; cat ["Questions Asked So Far: "; show count]; nl]) prompt
    = true /\
    contains
      (cat [nl;
            cat ["- "; quoted "closing"; " if wrapping up (";
                 show count; " >= "; show (limit - 1); ")"];
            nl]) prompt
    = true.
Proof.
  intros count limit.
  split; [apply questionCount_count_occ | ].
  split; [reflexivity | ].
  destruct (runInterviewAgent_returns env job history candidateMessage w)
    as [r [Hrun _]].
  exists (systemPrompt job history).
  exists (map chat_of history
          ++ [ {| chat_role := "user"; chat_content := candidateMessage |} ]).
  split; [rewrite Hrun; reflexivity | ].
  unfold systemPrompt. rewrite questionCount_count_occ. fold count.
  split.
  - change (cat [nl; cat ["Questions Asked So Far: "; show count]; nl])
      with (nl ++ cat ["Questions Asked So Far: "; show count] ++ nl)%string.
    apply (line_in_text _ 6); [reflexivity | simpl; lia].
  - change (cat [nl;
                 cat ["- "; quoted "closing"; " if wrapping up (";
                      show count; " >= "; show (limit - 1); ")"];
                 nl])
      with (nl ++ closingRule count (maxQuestions job) ++ nl)%string.
    apply (line_in_text _ 20); [reflexivity | simpl; lia].
Qed.

(** The scenario: a budget of three questions and two interviewer turns
    so far. *)
Lemma C7_witness :
  questionCount sample_history = 2 /\
  2 >= numQuestions sample_job - 1 /\
  (exists prompt turns,
     sent (snd (runInterviewAgent (answering CallFails) sample_job
                  sample_history "I restore the backups."
                  (sample_world "in_progress" sample_history)))
     = [ {| chat_role := "system"; chat_content := prompt |} :: turns ] /\
     contains "Questions Asked So Far: 2" prompt = true /\
     contains "if wrapping up (2 >= 2)" prompt = true) /\
  questionCount [] = 0.
Proof.
  pose proof (C7_question_count_in_prompt (answering CallFails) sample_job
                sample_history "I restore the backups."
                (sample_world "in_progress" sample_history)) as H.
  destruct H as [Hcount [Hempty [prompt [turns [Hsent _]]]]].
  split; [exact Hcount | ].
  split; [simpl; lia | ].
  split; [ | exact Hempty].
  exists prompt, turns. split; [exact Hsent | ].
  vm_compute in Hsent. injection Hsent as <- _.
  split; vm_compute; reflexivity.
Defined.

(** C7 (as stated) fails for a job whose [numQuestions] is 0: the rule of
    the prompt sent reads [(0 >= 7)], not [(0 >= -1)]. *)
Lemma C7_counterexample :
  numQuestions unbudgeted_job = 0 /\
  exists prompt turns,
    sent (snd (runInterviewAgent (answering CallFails) unbudgeted_job []
                 "Hello" (sample_world "in_progress" [])))
    = [ {| chat_role := "system"; chat_content := prompt |} :: turns ] /\
    contains (cat ["if wrapping up ("; show (questionCount []); " >= ";
                   show (numQuestions unbudgeted_job - 1); ")"]) prompt
    = false /\
    contains "if wrapping up (0 >= 7)" prompt = true.
Proof.
  split; [reflexivity | ].
  eexists. eexists. split; [vm_compute; reflexivity | ].
  split; vm_compute; reflexivity.
Qed.

(* ================================================================== *)
(** ** The record store *)
(* ================================================================== *)

Lemma insert_perm (m : Message) (l : list Message) :
  Permutation (insert_by_createdAt m l) (m :: l).
Proof.
  induction l as [ | x r IH]; simpl; [reflexivity | ].
  destruct (Nat.leb (msg_createdAt m) (msg_createdAt x)); [reflexivity | ].
  rewrite IH. apply perm_swap.
Qed.

Lemma orderBy_perm (l : list Message) : Permutation (orderBy_createdAt l) l.
Proof.
  induction l as [ | m r IH]; simpl; [reflexivity | ].
  rewrite insert_perm. now constructor.
Qed.

Lemma insert_sorted (m : Message) (l : list Message) :
  Sorted not_later l -> Sorted not_later (insert_by_createdAt m l).
Proof.
  induction l as [ | x r IH]; simpl; intros Hs.
  - repeat constructor.
  - destruct (Nat.leb (msg_createdAt m) (msg_createdAt x)) eqn:Hle.
    + constructor; [exact Hs | ]. constructor. apply Nat.leb_le in Hle. exact Hle.
    + apply Nat.leb_gt in Hle. inversion Hs as [ | ? ? Hr Hhd]; subst.
      constructor; [now apply IH | ].
      destruct r as [ | y r']; simpl.
      * constructor. unfold not_later. lia.
      * destruct (Nat.leb (msg_createdAt m) (msg_createdAt y)).
        -- constructor. unfold not_later. lia.
        -- constructor. now inversion Hhd.
Qed.

(** The listing is ordered by creation time, ascending. *)
Lemma orderBy_sorted (l : list Message) : Sorted not_later (orderBy_createdAt l).
Proof.
  induction l as [ | m r IH]; simpl; [constructor | now apply insert_sorted].
Qed.

(** Rows already in strict creation order are listed as they are. *)
Lemma orderBy_chronological (l : list Message) :
  StronglySorted earlier l -> orderBy_createdAt l = l.
Proof.
  induction l as [ | m r IH]; [reflexivity | ].
  intros Hs. inversion Hs as [ | ? ? Hr Hall]; subst.
  simpl. rewrite (IH Hr).
  destruct r as [ | x r']; [reflexivity | ]. simpl.
  inversion Hall as [ | ? ? Hmx _]; subst. unfold earlier in Hmx.
  destruct (Nat.leb (msg_createdAt m) (msg_createdAt x)) eqn:Hle; [reflexivity | ].
  apply Nat.leb_gt in Hle. lia.
Qed.

Lemma chronological_filter (p : Message -> bool) (l : list Message) :
  StronglySorted earlier l -> StronglySorted earlier (filter p l).
Proof.
  induction l as [ | m r IH]; simpl; intros Hs; [constructor | ].
  inversion Hs as [ | ? ? Hr Hall]; subst.
  destruct (p m); [ | now apply IH].
  constructor; [now apply IH | ].
  rewrite Forall_forall in *. intros x Hx. apply Hall.
  apply filter_In in Hx. tauto.
Qed.

Lemma chronological_snoc (l : list Message) (m : Message) :
  StronglySorted earlier l -> Forall (fun x => earlier x m) l ->
  StronglySorted earlier (l ++ [m]).
Proof.
  induction l as [ | x r IH]; simpl; intros Hs Hall.
  - repeat constructor.
  - inversion Hs as [ | ? ? Hr Hx]; subst.
    inversion Hall as [ | ? ? Hxm Hrm]; subst.
    constructor; [now apply IH | ].
    apply Forall_app. split; [exact Hx | now constructor].
Qed.

(** Uniqueness: whoever orders rows with distinct, increasing timestamps
    by creation time lists them in insertion order. *)
Lemma sorted_listing_unique (l l' : list Message) :
  StronglySorted earlier l -> Permutation l' l -> Sorted not_later l' ->
  l' = l.
Proof.
  revert l'. induction l as [ | m r IH]; intros l' Hs Hperm Hsorted.
  - symmetry in Hperm. now apply Permutation_nil in Hperm.
  - inversion Hs as [ | ? ? Hr Hall]; subst.
    destruct l' as [ | x r'].
    + now apply Permutation_nil in Hperm.
    + assert (Hss : StronglySorted not_later (x :: r')).
      { apply Sorted_StronglySorted; [ | exact Hsorted].
        intros a b c; unfold not_later; lia. }
      inversion Hss as [ | ? ? Hss' Hx]; subst.
      assert (Hxm : x = m).
      { assert (Hin : In x (m :: r))
          by (eapply Permutation_in; [exact Hperm | now left]).
        destruct Hin as [-> | Hin]; [reflexivity | exfalso].
        assert (Hm : In m (x :: r')).
        { eapply Permutation_in; [symmetry; exact Hperm | now left]. }
        rewrite Forall_forall in Hall, Hx.
        specialize (Hall x Hin). unfold earlier in Hall.
        destruct Hm as [<- | Hm]; [lia | ].
        specialize (Hx m Hm). unfold not_later in Hx. lia. }
      subst x. f_equal. apply IH; [exact Hr | | ].
      * eapply Permutation_cons_inv; exact Hperm.
      * now inversion Hsorted.
Qed.

Lemma store_ok_add_message (s : Store) (m : Message) :
  msg_createdAt m = clock s -> store_ok s -> store_ok (add_message s m).
Proof.
  intros Ht [Hs Hclock]. split; simpl.
  - apply chronological_snoc; [exact Hs | ].
    eapply Forall_impl; [ | exact Hclock]. intros x Hx. simpl in Hx.
    unfold earlier. lia.
  - apply Forall_app. split.
    + eapply Forall_impl; [ | exact Hclock]. intros x Hx. simpl in Hx. lia.
    + constructor; [lia | constructor].
Qed.

(** What the storage calls used by the candidate routes return when the
    database does not fail. *)
Lemma getApplication_run env id s log :
  db_fails env OpGetApplication = false ->
  getApplication env id {| store := s; sent := log |}
  = (Ok (application_of s id), {| store := s; sent := log |}).
Proof. intros H. unfold getApplication, db. simpl. now rewrite H. Qed.

Lemma getJob_run env id s log :
  db_fails env OpGetJob = false ->
  getJob env id {| store := s; sent := log |}
  = (Ok (job_of s id), {| store := s; sent := log |}).
Proof. intros H. unfold getJob, db. simpl. now rewrite H. Qed.

Lemma getMessagesByApplication_run env id s log :
  db_fails env OpGetMessagesByApplication = false ->
  getMessagesByApplication env id {| store := s; sent := log |}
  = (Ok (orderBy_createdAt (appended s id)), {| store := s; sent := log |}).
Proof. intros H. unfold getMessagesByApplication, db. simpl. now rewrite H. Qed.

Lemma createMessage_run env msg text s log :
  db_fails env OpCreateMessage = false ->
  column_text env (im_content msg) = Some text ->
  let created :=
    {| msg_id := next_id s; msg_applicationId := im_applicationId msg;
       role := im_role msg; content := text; msg_createdAt := clock s |} in
  createMessage env msg {| store := s; sent := log |}
  = (Ok created, {| store := add_message s created; sent := log |}).
Proof.
  intros H Ht. unfold createMessage, db. simpl. now rewrite H, Ht.
Qed.

Lemma appended_add_message (s : Store) (m : Message) (id : Id) :
  appended (add_message s m) id
  = appended s id ++ (if of_application id m then [m] else []).
Proof.
  unfold appended. simpl. rewrite filter_app. simpl.
  now destruct (of_application id m).
Qed.

Lemma listing_in_insertion_order (s : Store) (id : Id) :
  store_ok s -> orderBy_createdAt (appended s id) = appended s id.
Proof.
  intros [Hs _]. apply orderBy_chronological.
  now apply chronological_filter.
Qed.

(** C10.  Listing the messages of an application returns exactly the
    messages of that application, ordered by creation time, ascending,
    whatever the order in which the table holds its rows.  In a store whose
    messages were stamped one after the other this is the order in which
    they were appended, it is the only listing in creation order, and a
    message created next comes last in the next listing. *)
Theorem C10_messages_in_creation_order
    (env : Env) (w : World) (applicationId : Id) :
  db_fails env OpGetMessagesByApplication = false ->
  exists history,
    getMessagesByApplication env applicationId w = (Ok history, w) /\
    Sorted not_later history /\
    Permutation history (appended (store w) applicationId) /\
    Forall (fun m => msg_applicationId m = applicationId) history /\
    (store_ok (store w) ->
     StronglySorted earlier history /\
     history = appended (store w) applicationId /\
     (forall listing,
        Permutation listing (appended (store w) applicationId) ->
        Sorted not_later listing -> listing = history) /\
     (forall msg text,
        db_fails env OpCreateMessage = false ->
        im_applicationId msg = applicationId ->
        column_text env (im_content msg) = Some text ->
        exists created w',
          createMessage env msg w = (Ok created, w') /\
          content created = text /\
          store_ok (store w') /\
          getMessagesByApplication env applicationId w'
          = (Ok (history ++ [created]), w'))).
Proof.
  intros Hdb. destruct w as [s log]. cbn [store].
  exists (orderBy_createdAt (appended s applicationId)).
  split; [now apply getMessagesByApplication_run | ].
  split; [apply orderBy_sorted | ].
  split; [apply orderBy_perm | ].
  split.
  { rewrite Forall_forall. intros m Hm.
    apply (Permutation_in _ (orderBy_perm _)) in Hm.
    unfold appended in Hm. apply filter_In in Hm.
    now apply Nat.eqb_eq. }
  intros Hok.
  rewrite (listing_in_insertion_order s applicationId Hok).
  split; [apply chronological_filter; apply Hok | ].
  split; [reflexivity | ].
  split.
  { intros listing Hperm Hsorted.
    apply sorted_listing_unique; [ | exact Hperm | exact Hsorted].
    apply chronological_filter; apply Hok. }
  intros msg text Hdb' Happ Htext.
  eexists. eexists.
  split; [exact (createMessage_run env msg text s log Hdb' Htext) | ].
  split; [reflexivity | ].
  simpl.
  assert (Hok' : store_ok
            (add_message s
               {| msg_id := next_id s; msg_applicationId := im_applicationId msg;
                  role := im_role msg; content := text;
                  msg_createdAt := clock s |}))
    by (apply store_ok_add_message; [reflexivity | exact Hok]).
  split; [exact Hok' | ].
  rewrite (getMessagesByApplication_run env applicationId _ log Hdb).
  rewrite (listing_in_insertion_order _ applicationId Hok').
  rewrite appended_add_message.
  unfold of_application at 1. simpl. rewrite Happ, Nat.eqb_refl. reflexivity.
Qed.

(** A table whose rows are not in the order of their stamps is listed in
    that order all the same; the sample transcript is listed as it was
    appended. *)
Lemma C10_witness :
  exists history,
    getMessagesByApplication (answering CallFails) 2%nat
      (sample_world "in_progress" unordered_history)
    = (Ok history, sample_world "in_progress" unordered_history) /\
    history = sample_history /\
    unordered_history <> sample_history.
Proof.
  destruct (C10_messages_in_creation_order (answering CallFails)
              (sample_world "in_progress" unordered_history) 2%nat eq_refl)
    as [history [Hrun _]].
  exists history. split; [exact Hrun | ].
  split; [ | discriminate].
  vm_compute in Hrun. now injection Hrun as <-.
Defined.

(* ================================================================== *)
(** ** Invariants of the routes *)
(* ================================================================== *)

Lemma preserves_ret {A} (P : World -> Prop) (a : A) : preserves P (ret a).
Proof. intros w H. exact H. Qed.

Lemma preserves_throw {A} (P : World -> Prop) (e : Error) :
  preserves P (@throw A e).
Proof. intros w H. exact H. Qed.

Lemma preserves_lift {A} (P : World -> Prop) (o : option A) (e : Error) :
  preserves P (lift o e).
Proof. destruct o; [apply preserves_ret | apply preserves_throw]. Qed.

Lemma preserves_bind {A B} (P : World -> Prop) (m : M A) (k : A -> M B) :
  preserves P m -> (forall a, preserves P (k a)) -> preserves P (bind m k).
Proof.
  intros Hm Hk w HP. unfold bind. specialize (Hm w HP).
  destruct (m w) as [[a | e] w']; simpl in *.
  - now apply Hk.
  - exact Hm.
Qed.

Lemma preserves_try_catch {A} (P : World -> Prop) (m : M A)
    (h : Error -> M A) :
  preserves P m -> (forall e, preserves P (h e)) -> preserves P (try_catch m h).
Proof.
  intros Hm Hh w HP. unfold try_catch. specialize (Hm w HP).
  destruct (m w) as [[a | e] w']; simpl in *.
  - exact Hm.
  - now apply Hh.
Qed.

Lemma preserves_json (P : World -> Prop) (b : Body) : preserves P (json b).
Proof. apply preserves_ret. Qed.

Lemma preserves_status_json (P : World -> Prop) (c : nat) (b : Body) :
  preserves P (status_json c b).
Proof. apply preserves_ret. Qed.

Lemma preserves_iterate (P : World -> Prop) (v : value) :
  preserves P (iterate v).
Proof.
  destruct v; first [apply preserves_ret | apply preserves_throw].
Qed.

(** The requests already issued are not touched by the database. *)
Lemma db_keeps_sent {A} env (op : DbOp) (body : Store -> Result A * Store) log :
  preserves (fun w => sent w = log) (db env op body).
Proof.
  intros [s l] H. unfold db. simpl in *.
  destruct (db_fails env op); [exact H | ].
  destruct (body s). exact H.
Qed.

Lemma store_ok_step (s s' : Store) :
  store_step s s' -> store_ok s -> store_ok s'.
Proof.
  intros Hstep [Hs Hclock].
  destruct Hstep as [Hm _ Hc | m Hm Ht Hc _ | e Hm Hc _ _].
  - split; rewrite Hm; [exact Hs | ].
    eapply Forall_impl; [ | exact Hclock]. intros x Hx. simpl in Hx. lia.
  - split; rewrite Hm.
    + apply chronological_snoc; [exact Hs | ].
      eapply Forall_impl; [ | exact Hclock]. intros x Hx. simpl in Hx.
      unfold earlier. lia.
    + apply Forall_app. split.
      * eapply Forall_impl; [ | exact Hclock]. intros x Hx. simpl in Hx. lia.
      * constructor; [lia | constructor].
  - split; rewrite Hm; [exact Hs | ].
    eapply Forall_impl; [ | exact Hclock]. intros x Hx. simpl in Hx. lia.
Qed.

Lemma evaluations_unique_step (s s' : Store) :
  store_step s s' -> evaluations_unique s -> evaluations_unique s'.
Proof.
  unfold evaluations_unique. intros Hstep Hu.
  destruct Hstep as [_ He _ | m _ _ _ He | e _ _ He Hfresh].
  - now rewrite He.
  - now rewrite He.
  - rewrite He, map_app. simpl.
    apply (Permutation_NoDup (l := eval_applicationId e
                                     :: map eval_applicationId (evaluations s))).
    + apply Permutation_cons_append.
    + now constructor.
Qed.

Lemma existsb_eval_false (id : Id) (l : list Evaluation) :
  existsb (fun e => Nat.eqb (eval_applicationId e) id) l = false ->
  ~ In id (map eval_applicationId l).
Proof.
  intros H Hin. apply in_map_iff in Hin. destruct Hin as [e [Heq Hin]].
  assert (Ht : existsb (fun e => Nat.eqb (eval_applicationId e) id) l = true).
  { apply existsb_exists. exists e. split; [exact Hin | ].
    now apply Nat.eqb_eq. }
  congruence.
Qed.

Section Preservation.
Variable env : Env.
Variable P : Store -> Prop.
Hypothesis P_step : forall s s', store_step s s' -> P s -> P s'.

Lemma db_preserves {A} (op : DbOp) (body : Store -> Result A * Store) :
  (forall s, store_step s (snd (body s))) -> preserves (on_store P) (db env op body).
Proof.
  intros Hbody [s log] HP. unfold on_store, db in *. simpl in *.
  destruct (db_fails env op); [exact HP | ].
  specialize (Hbody s). destruct (body s) as [r s']. simpl in *.
  now apply (P_step s s').
Qed.

Lemma getApplication_preserves id : preserves (on_store P) (getApplication env id).
Proof. apply db_preserves. same_tables. Qed.

Lemma getJob_preserves id : preserves (on_store P) (getJob env id).
Proof. apply db_preserves. same_tables. Qed.

Lemma getJobByToken_preserves token : preserves (on_store P) (getJobByToken env token).
Proof. apply db_preserves. same_tables. Qed.

Lemma getMessagesByApplication_preserves id :
  preserves (on_store P) (getMessagesByApplication env id).
Proof. apply db_preserves. same_tables. Qed.

Lemma createApplication_preserves app :
  preserves (on_store P) (createApplication env app).
Proof. apply db_preserves. same_tables. Qed.

Lemma updateApplicationStatus_preserves id st :
  preserves (on_store P) (updateApplicationStatus env id st).
Proof. apply db_preserves. same_tables. Qed.

Lemma submitApplication_preserves id :
  preserves (on_store P) (submitApplication env id).
Proof. apply db_preserves. same_tables. Qed.

Lemma createMessage_preserves msg : preserves (on_store P) (createMessage env msg).
Proof.
  apply db_preserves. intros s.
  destruct (column_text env (im_content msg)) as [text | ]; simpl.
  - eapply step_message; simpl; auto.
  - apply step_other; auto.
Qed.

Lemma createFlag_preserves flag : preserves (on_store P) (createFlag env flag).
Proof.
  apply db_preserves. intros s.
  destruct (column_text env (if_severity flag));
    destruct (column_text env (if_category flag));
    destruct (column_text env (if_excerpt flag)); simpl;
    apply step_other; simpl; auto.
Qed.

Lemma createEvaluation_preserves evaluation :
  preserves (on_store P) (createEvaluation env evaluation).
Proof.
  apply db_preserves. intros s.
  destruct (evaluation_columns env (ie_scores evaluation)) as [columns | e];
    [ | apply step_other; auto].
  destruct (existsb _ (evaluations s)) eqn:Hex; simpl.
  - apply step_other; auto.
  - eapply step_evaluation; simpl; auto.
    now apply existsb_eval_false.
Qed.

Lemma createFlags_preserves id l : preserves (on_store P) (createFlags env id l).
Proof.
  induction l as [ | flag rest IH]; simpl.
  - apply preserves_ret.
  - repeat (apply preserves_bind; [ | intros ?]);
      try apply preserves_lift.
    + apply createFlag_preserves.
    + exact IH.
Qed.

Lemma runInterviewAgent_preserves job history text :
  preserves (on_store P) (runInterviewAgent env job history text).
Proof.
  intros w HP.
  destruct (runInterviewAgent_returns env job history text w) as [r [-> _]].
  exact HP.
Qed.

Lemma runEvaluationAgent_preserves job history :
  preserves (on_store P) (runEvaluationAgent env job history).
Proof.
  intros w HP.
  destruct (runEvaluationAgent_returns env job history w) as [r [-> _]].
  exact HP.
Qed.

Lemma persist_turn_preserves application aiResponse :
  preserves (on_store P) (persist_turn env application aiResponse).
Proof.
  unfold persist_turn.
  apply preserves_bind; [apply createMessage_preserves | intros m].
  apply preserves_bind; [apply preserves_iterate | intros l].
  apply preserves_bind; [apply createFlags_preserves | intros _].
  apply preserves_json.
Qed.

Lemma post_message_preserves appId content :
  preserves (on_store P) (post_message env appId content).
Proof.
  unfold post_message, post_message_with.
  apply preserves_try_catch; [ | intros; apply preserves_status_json].
  apply preserves_bind; [apply getApplication_preserves | intros [app | ]];
    [ | apply preserves_status_json].
  destruct (closed (status app)); [apply preserves_status_json | ].
  apply preserves_bind; [apply getJob_preserves | intros [job | ]];
    [ | apply preserves_status_json].
  destruct (String.eqb content ""); [apply preserves_status_json | ].
  apply preserves_bind; [apply createMessage_preserves | intros _].
  apply preserves_bind; [apply getMessagesByApplication_preserves | intros h].
  apply preserves_bind; [apply runInterviewAgent_preserves | intros r].
  apply persist_turn_preserves.
Qed.

Lemma evaluate_preserves application job history :
  preserves (on_store P) (evaluate env (runEvaluationAgent env) application job history).
Proof.
  unfold evaluate.
  apply preserves_try_catch; [ | intros; apply preserves_ret].
  apply preserves_bind; [apply runEvaluationAgent_preserves | intros r].
  apply preserves_bind; [apply createEvaluation_preserves | intros _].
  apply preserves_bind; [apply updateApplicationStatus_preserves | intros _].
  apply preserves_ret.
Qed.

Lemma post_submit_preserves appId : preserves (on_store P) (post_submit env appId).
Proof.
  unfold post_submit, post_submit_with.
  apply preserves_try_catch; [ | intros; apply preserves_status_json].
  apply preserves_bind; [apply getApplication_preserves | intros [app | ]];
    [ | apply preserves_status_json].
  destruct (closed (status app)); [apply preserves_status_json | ].
  apply preserves_bind; [apply getJob_preserves | intros [job | ]];
    [ | apply preserves_status_json].
  apply preserves_bind; [apply submitApplication_preserves | intros _].
  apply preserves_bind; [apply getMessagesByApplication_preserves | intros h].
  apply preserves_bind; [ | intros; apply preserves_json].
  destruct h; [apply preserves_ret | apply evaluate_preserves].
Qed.

Lemma patch_status_preserves user appId st :
  preserves (on_store P) (patch_status env user appId st).
Proof.
  unfold patch_status.
  apply preserves_try_catch; [ | intros; apply preserves_status_json].
  apply preserves_bind; [apply getApplication_preserves | intros [app | ]];
    [ | apply preserves_status_json].
  apply preserves_bind; [apply getJob_preserves | intros [job | ]];
    [ | apply preserves_status_json].
  destruct (negb _); [apply preserves_status_json | ].
  destruct (String.eqb st ""); [apply preserves_status_json | ].
  apply preserves_bind; [apply updateApplicationStatus_preserves | intros a].
  apply preserves_json.
Qed.

Lemma post_application_preserves token candidate :
  preserves (on_store P) (post_application env token candidate).
Proof.
  unfold post_application.
  apply preserves_try_catch; [ | intros; apply preserves_status_json].
  apply preserves_bind; [apply getJobByToken_preserves | intros [job | ]];
    [ | apply preserves_status_json].
  destruct (negb _); [apply preserves_status_json | ].
  apply preserves_bind; [apply preserves_lift | intros c].
  apply preserves_bind; [apply createApplication_preserves | intros a].
  apply preserves_status_json.
Qed.

Lemma handle_preserves req : preserves (on_store P) (handle env req).
Proof.
  destruct req; simpl.
  - apply post_application_preserves.
  - apply post_message_preserves.
  - apply post_submit_preserves.
  - apply patch_status_preserves.
Qed.

Lemma serve_preserves reqs w : P (store w) -> P (store (serve env reqs w)).
Proof.
  revert w. induction reqs as [ | req rest IH]; intros w HP; simpl.
  - exact HP.
  - apply IH. now apply (handle_preserves req w).
Qed.
End Preservation.

(* ================================================================== *)
(** ** The candidate routes *)
(* ================================================================== *)

Lemma bind_ok {A B} (m : M A) (k : A -> M B) (w w' : World) (a : A) :
  m w = (Ok a, w') -> bind m k w = k a w'.
Proof. intros H. unfold bind. now rewrite H. Qed.

Lemma closed_spec (st : string) :
  closed st = true <-> st = "submitted" \/ st = "evaluated".
Proof.
  unfold closed. rewrite orb_true_iff, !String.eqb_eq. reflexivity.
Qed.

Lemma application_of_id (s : Store) (id : Id) (a : Application) :
  application_of s id = Some a -> app_id a = id.
Proof.
  unfold application_of. intros H. apply find_some in H.
  now apply Nat.eqb_eq.
Qed.

(** C5.  A candidate message for an application whose status is
    [submitted] or [evaluated] is answered with status 400 and leaves the
    world as it was: no message, no flag, no request to the completion
    service.  A message is accepted (status 200) only for an application
    whose status is neither. *)
Theorem C5_closed_interview_rejects_messages
    (env : Env) (w : World) (appId : Id) (content : string) :
  db_fails env OpGetApplication = false ->
  (forall application,
     application_of (store w) appId = Some application ->
     status application = "submitted" \/ status application = "evaluated" ->
     post_message env appId content w
     = (Ok {| code := 400; body := BMessage "Interview already submitted" |},
        w)) /\
  (forall response w',
     post_message env appId content w = (Ok response, w') ->
     code response = 200%nat ->
     exists application,
       application_of (store w) appId = Some application /\
       status application <> "submitted" /\
       status application <> "evaluated").
Proof.
  intros Hdb. destruct w as [s log]. simpl.
  unfold post_message, post_message_with, try_catch.
  rewrite (bind_ok _ _ _ _ _ (getApplication_run env appId s log Hdb)).
  split.
  - intros application Hfound Hclosed. rewrite Hfound.
    apply closed_spec in Hclosed. rewrite Hclosed. reflexivity.
  - intros response w'.
    destruct (application_of s appId) as [application | ].
    + destruct (closed (status application)) eqn:Hclosed.
      * simpl. intros H Hcode. injection H as <- _. discriminate Hcode.
      * intros _ _. exists application. split; [reflexivity | ].
        split; intros Heq; rewrite Heq in Hclosed; discriminate Hclosed.
    + simpl. intros H Hcode. injection H as <- _. discriminate Hcode.
Qed.

(** A message to a submitted application. *)
Lemma C5_witness :
  post_message (answering CallFails) 2 "One more thing"
    (sample_world "submitted" sample_history)
  = (Ok {| code := 400; body := BMessage "Interview already submitted" |},
     sample_world "submitted" sample_history).
Proof.
  destruct (C5_closed_interview_rejects_messages (answering CallFails)
              (sample_world "submitted" sample_history) 2%nat
              "One more thing" eq_refl) as [Hreject _].
  apply (Hreject (sample_application "submitted")).
  - reflexivity.
  - left. reflexivity.
Defined.

(** C3.  Submitting an application whose status is already [submitted] or
    [evaluated] is answered with status 400 and leaves the world as it
    was (no scorecard is created, the status does not change); and
    whatever requests are served, no application ever has two
    scorecards. *)
Theorem C3_second_submission_rejected
    (env : Env) (w : World) (appId : Id) (application : Application) :
  db_fails env OpGetApplication = false ->
  application_of (store w) appId = Some application ->
  status application = "submitted" \/ status application = "evaluated" ->
  post_submit env appId w
  = (Ok {| code := 400; body := BMessage "Interview already submitted" |}, w) /\
  (forall reqs w0,
     evaluations_unique (store w0) ->
     evaluations_unique (store (serve env reqs w0))).
Proof.
  intros Hdb Hfound Hclosed. split.
  - destruct w as [s log]. simpl in Hfound.
    unfold post_submit, post_submit_with, try_catch.
    rewrite (bind_ok _ _ _ _ _ (getApplication_run env appId s log Hdb)).
    rewrite Hfound. apply closed_spec in Hclosed. rewrite Hclosed. reflexivity.
  - intros reqs w0.
    apply (serve_preserves env evaluations_unique evaluations_unique_step).
Qed.

(** A submission of an evaluated application; and an application that is
    submitted, reopened by the recruiter and submitted twice more. *)
Lemma C3_witness :
  post_submit (answering (Parsed wild_scores)) 2
    (sample_world "evaluated" sample_history)
  = (Ok {| code := 400; body := BMessage "Interview already submitted" |},
     sample_world "evaluated" sample_history) /\
  evaluations_unique
    (store (serve (answering (Parsed wild_scores))
              [PostSubmit 2; PatchStatus 0 2 "in_progress"; PostSubmit 2;
               PostSubmit 2]
              (sample_world "in_progress" sample_history))).
Proof.
  destruct (C3_second_submission_rejected (answering (Parsed wild_scores))
              (sample_world "evaluated" sample_history) 2%nat
              (sample_application "evaluated") eq_refl eq_refl
              (or_intror eq_refl)) as [Hreject Hunique].
  split; [exact Hreject | ].
  apply Hunique. constructor.
Defined.

(** The reopened application, run: its second submission is accepted, the
    scorecard it would add is refused by the database, and the one stored
    first remains the only one. *)
Example resubmission_keeps_one_scorecard :
  let w := serve (answering (Parsed wild_scores))
             [PostSubmit 2; PatchStatus 0 2 "in_progress"; PostSubmit 2]
             (sample_world "in_progress" sample_history) in
  List.length (evaluations (store w)) = 1%nat /\
  status_of (store w) 2 = Some "submitted" /\
  fst (post_submit (answering (Parsed wild_scores)) 2 w)
  = Ok {| code := 400; body := BMessage "Interview already submitted" |}.
Proof. vm_compute. repeat split. Qed.

(** A first submission, run: the scorecard is stored and the application
    is marked evaluated. *)
Example submission_attaches_scorecard :
  let out := post_submit (answering (Parsed wild_scores)) 2
               (sample_world "in_progress" sample_history) in
  fst out
  = Ok {| code := 200; body := BMessage "Interview submitted successfully" |} /\
  status_of (store (snd out)) 2 = Some "evaluated" /\
  option_map (fun e => overallScore (eval_scores e))
    (getEvaluationByApplication (store (snd out)) 2)
  = Some (Fin (inject_Z 100)).
Proof. vm_compute. repeat split. Qed.

Lemma find_set_status (id : Id) (st : string) (sub : option Timestamp)
    (l : list Application) :
  find (fun a => Nat.eqb (app_id a) id) (map (set_status id st sub) l)
  = option_map (set_status id st sub)
      (find (fun a => Nat.eqb (app_id a) id) l).
Proof.
  induction l as [ | a rest IH]; [reflexivity | ].
  simpl. unfold set_status at 1.
  destruct (Nat.eqb (app_id a) id) eqn:Hid; simpl; rewrite Hid.
  - unfold set_status. now rewrite Hid.
  - exact IH.
Qed.


Lemma submitApplication_run env id s log :
  db_fails env OpSubmitApplication = false ->
  exists updated,
    submitApplication env id {| store := s; sent := log |}
    = (Ok updated,
       {| store :=
            tick (with_applications s
                    (map (set_status id "submitted" (Some (clock s)))
                         (applications s)));
          sent := log |}).
Proof.
  intros H. unfold submitApplication, db. simpl. rewrite H. eauto.
Qed.




Lemma createFlags_keeps_sent env id l log :
  preserves (fun w => sent w = log) (createFlags env id l).
Proof.
  induction l as [ | flag rest IH]; simpl.
  - apply preserves_ret.
  - repeat (apply preserves_bind; [ | intros ?]);
      try apply preserves_lift.
    + apply db_keeps_sent.
    + exact IH.
Qed.

(** Storing the interviewer's turn issues no request. *)
Lemma persist_turn_keeps_sent env application aiResponse (w : World) :
  sent (snd (persist_turn env application aiResponse w)) = sent w.
Proof.
  assert (H : preserves (fun w' => sent w' = sent w)
                (persist_turn env application aiResponse)).
  { unfold persist_turn.
    apply preserves_bind; [apply db_keeps_sent | intros m].
    apply preserves_bind; [apply preserves_iterate | intros l].
    apply preserves_bind; [apply createFlags_keeps_sent | intros _].
    apply preserves_json. }
  now apply H.
Qed.

(** C9.  On an accepted candidate message, the request issued to the
    completion service is: the system prompt, the application's earlier
    messages in order, the candidate's message (stored by the route before
    it loaded the history), and the candidate's message again (appended by
    the Conductor). *)
Theorem C9_candidate_message_sent_twice
    (env : Env) (w : World) (appId : Id) (content : string)
    (application : Application) (job : Job) :
  db_fails env OpGetApplication = false ->
  db_fails env OpGetJob = false ->
  db_fails env OpCreateMessage = false ->
  db_fails env OpGetMessagesByApplication = false ->
  store_ok (store w) ->
  application_of (store w) appId = Some application ->
  closed (status application) = false ->
  job_of (store w) (jobId application) = Some job ->
  content <> "" ->
  exists prompt,
    sent (snd (post_message env appId content w))
    = sent w
      ++ [ ({| chat_role := "system"; chat_content := prompt |}
            :: map chat_of (appended (store w) appId))
           ++ [user_turn content; user_turn content] ].
Proof.
  intros Hdb1 Hdb2 Hdb3 Hdb4 Hok Hfound Hopen Hjob Hcontent.
  pose proof (application_of_id _ _ _ Hfound) as Hid.
  destruct w as [s log]. simpl in *.
  set (created := {| msg_id := next_id s; msg_applicationId := appId;
                     role := "user"; content := content;
                     msg_createdAt := clock s |}).
  assert (Hok' : store_ok (add_message s created))
    by (apply store_ok_add_message; [reflexivity | exact Hok]).
  assert (Hlisting : orderBy_createdAt (appended (add_message s created) appId)
                     = appended s appId ++ [created]).
  { rewrite (listing_in_insertion_order _ appId Hok'), appended_add_message.
    unfold of_application at 1. simpl. now rewrite Nat.eqb_refl. }
  destruct (runInterviewAgent_returns env job (appended s appId ++ [created])
              content {| store := add_message s created; sent := log |})
    as [r [Hrun _]].
  exists (systemPrompt job (appended s appId ++ [created])).
  unfold post_message, post_message_with, try_catch.
  rewrite (bind_ok _ _ _ _ _ (getApplication_run env appId s log Hdb1)).
  rewrite Hfound, Hopen.
  rewrite (bind_ok _ _ _ _ _ (getJob_run env _ s log Hdb2)).
  rewrite Hjob.
  destruct (String.eqb_spec content "") as [Hempty | _]; [contradiction | ].
  rewrite Hid.
  rewrite (bind_ok _ _ _ _ _
             (createMessage_run env
                {| im_applicationId := appId; im_role := "user";
                   im_content := JStr content |} content s log Hdb3 eq_refl)).
  simpl im_applicationId. simpl im_role. fold created.
  rewrite (bind_ok _ _ _ _ _
             (getMessagesByApplication_run env appId
                (add_message s created) log Hdb4)).
  rewrite Hlisting.
  rewrite (bind_ok _ _ _ _ _ Hrun).
  pose proof (persist_turn_keeps_sent env application r
                {| store := add_message s created;
                   sent := log ++ [interviewMessages job
                                     (appended s appId ++ [created]) content] |})
    as Hsent.
  destruct (persist_turn env application r _) as [[response | e] w'];
    simpl in *; rewrite Hsent; f_equal;
    unfold interviewMessages; rewrite map_app; simpl;
    rewrite <- app_assoc; reflexivity.
Qed.

(** A turn of the sample application. *)
Lemma C9_witness :
  exists prompt,
    sent (snd (post_message (answering CallFails) 2 "I restore the backups."
                 (sample_world "in_progress" sample_history)))
    = [ ({| chat_role := "system"; chat_content := prompt |}
         :: map chat_of sample_history)
        ++ [user_turn "I restore the backups.";
            user_turn "I restore the backups."] ].
Proof.
  apply (C9_candidate_message_sent_twice (answering CallFails)
           (sample_world "in_progress" sample_history) 2%nat
           "I restore the backups." (sample_application "in_progress")
           sample_job).
  - reflexivity.
  - reflexivity.
  - reflexivity.
  - reflexivity.
  - split; simpl.
    + unfold sample_history, turn.
      repeat (constructor; [ | repeat constructor; unfold earlier; simpl; lia]).
      constructor.
    + unfold sample_history, turn. repeat constructor; simpl; lia.
  - reflexivity.
  - reflexivity.
  - reflexivity.
  - discriminate.
Defined.

(** The same turn, run: it is answered with status 200, and the candidate's
    message and the interviewer's reply are the last two messages stored. *)
Example accepted_turn_is_stored :
  let out := post_message (answering (Parsed malformed_turn)) 2
               "I restore the backups."
               (sample_world "in_progress" sample_history) in
  option_map code (match fst out with Ok r => Some r | Thrown _ => None end)
  = Some 200%nat /\
  map (fun m => (role m, content m))
      (skipn 4 (messages (store (snd out))))
  = [ ("user", "I restore the backups.");
      ("assistant", "Could you elaborate on that?") ].
Proof. vm_compute. repeat split. Qed.


(* ================================================================== *)
(** ** Further properties: what every route keeps *)
(* ================================================================== *)

Lemma extends_refl {A} (l : list A) : extends l l.
Proof. exists []. now rewrite app_nil_r. Qed.

Lemma extends_trans {A} (l1 l2 l3 : list A) :
  extends l1 l2 -> extends l2 l3 -> extends l1 l3.
Proof.
  intros [m1 ->] [m2 ->]. exists (m1 ++ m2). now rewrite app_assoc.
Qed.

Lemma extends_snoc {A} (l : list A) (x : A) : extends l (l ++ [x]).
Proof. now exists [x]. Qed.

Lemma same_candidate_refl (a : Application) : same_candidate a a.
Proof. unfold same_candidate. tauto. Qed.

Lemma same_candidate_trans (a b c : Application) :
  same_candidate a b -> same_candidate b c -> same_candidate a c.
Proof.
  unfold same_candidate.
  intros [H1 [H2 [H3 [H4 [H5 H6]]]]] [K1 [K2 [K3 [K4 [K5 K6]]]]].
  repeat split; try congruence. auto.
Qed.

Lemma same_candidate_set_status id st sub (a : Application) :
  same_candidate a (set_status id st sub a).
Proof.
  unfold set_status. destruct (Nat.eqb (app_id a) id).
  - unfold same_candidate. simpl. repeat split.
    destruct sub; [discriminate | tauto].
  - apply same_candidate_refl.
Qed.

Lemma Forall2_same_candidate_refl (l : list Application) :
  Forall2 same_candidate l l.
Proof.
  induction l; constructor; [apply same_candidate_refl | assumption].
Qed.

Lemma Forall2_same_candidate_map id st sub (l : list Application) :
  Forall2 same_candidate l (map (set_status id st sub) l).
Proof.
  induction l; simpl; constructor;
    [apply same_candidate_set_status | assumption].
Qed.

Lemma Forall2_same_candidate_trans (l1 l2 l3 : list Application) :
  Forall2 same_candidate l1 l2 -> Forall2 same_candidate l2 l3 ->
  Forall2 same_candidate l1 l3.
Proof.
  intros H. revert l3. induction H as [ | a b l1 l2 Hab _ IH]; intros l3 H23.
  - inversion H23. constructor.
  - inversion H23 as [ | ? c ? l3' Hbc Hrest]; subst.
    constructor; [eapply same_candidate_trans; eassumption | now apply IH].
Qed.

Lemma grows_refl (s : Store) : grows s s.
Proof.
  constructor; try apply extends_refl; try reflexivity.
  exists (applications s), []. split; [now rewrite app_nil_r | ].
  apply Forall2_same_candidate_refl.
Qed.

Lemma grows_trans (s1 s2 s3 : Store) : grows s1 s2 -> grows s2 s3 -> grows s1 s3.
Proof.
  intros [J1 M1 F1 E1 [k1 [m1 [A1 C1]]]] [J2 M2 F2 E2 [k2 [m2 [A2 C2]]]].
  constructor.
  - congruence.
  - eapply extends_trans; eassumption.
  - eapply extends_trans; eassumption.
  - eapply extends_trans; eassumption.
  - rewrite A1 in C2. apply Forall2_app_inv_l in C2.
    destruct C2 as [k2a [k2b [Ha [Hb ->]]]].
    exists k2a, (k2b ++ m2). split.
    + rewrite A2. now rewrite app_assoc.
    + eapply Forall2_same_candidate_trans; eassumption.
Qed.

Lemma defaultField_keeps_truthy (parsed : value) (k : string) (d v : value) :
  ToBoolean d = true -> defaultField parsed k d = Some v -> ToBoolean v = true.
Proof. apply defaultField_truthy. Qed.

Lemma arrayField_isArray (parsed : value) (k : string) (v : value) :
  arrayField parsed k = Some v -> isArray v = true.
Proof.
  intros H. destruct (arrayField_array parsed k v H) as [l ->]. reflexivity.
Qed.

Lemma fallback_well_formed : well_formed_scorecard fallbackEvaluation.
Proof.
  split; [ | repeat split].
  intros k f Hin. rewrite (fallback_scores k f Hin).
  right. exists 50. split; [reflexivity | lia].
Qed.

Lemma scoreParsed_well_formed (parsed : value) (r : EvaluationResult) :
  scoreParsed parsed = Some r -> well_formed_scorecard r.
Proof.
  intros Hs.
  destruct (scoreParsed_inv parsed r Hs) as [Hfields [Hrec [Hsum [Hstr Hcon]]]].
  split; [ | split; [ | split; [ | split]]].
  - intros k f Hin.
    destruct (clampField_inv parsed k (f r) (Hfields k f Hin))
      as [_ [v [_ Hclamp]]].
    exact (clamp_cases v (f r) Hclamp).
  - eapply defaultField_keeps_truthy; [ | exact Hrec]. reflexivity.
  - eapply defaultField_keeps_truthy; [ | exact Hsum]. reflexivity.
  - eapply arrayField_isArray; exact Hstr.
  - eapply arrayField_isArray; exact Hcon.
Qed.

(** Whatever the completion service answers, the Scorer returns, without
    throwing and without touching the store, a scorecard fit to be stored,
    after exactly one request: the system prompt and the transcript. *)
Theorem scorer_always_returns_well_formed_scorecard
    (env : Env) (job : Job) (history : list Message) (w : World) :
  exists r : EvaluationResult,
    runEvaluationAgent env job history w
    = (Ok r, {| store := store w;
                sent := sent w ++ [evaluationMessages job history] |}) /\
    List.length (evaluationMessages job history) = 2%nat /\
    well_formed_scorecard r.
Proof.
  destruct (runEvaluationAgent_returns env job history w) as [r [Hrun Hr]].
  exists r. split; [exact Hrun | ]. split; [reflexivity | ].
  destruct Hr as [-> | [parsed [_ Hs]]].
  - apply fallback_well_formed.
  - eapply scoreParsed_well_formed; exact Hs.
Qed.

Lemma show_nonempty (z : Z) : show z <> "".
Proof.
  unfold show. destruct (Z.to_int z) as [d | d]; simpl.
  - destruct d; discriminate.
  - discriminate.
Qed.

Lemma driver_text_nonempty env (v : value) : driver_text env v <> "".
Proof.
  unfold driver_text.
  destruct (db_text env v) as [c rest].
  destruct v as [ | | [ | ] | [ | | | q] | s | l | props]; try discriminate.
  destruct (_ && _); [apply show_nonempty | discriminate].
Qed.

Lemma text_column_truthy env (v : value) (text : string) :
  ToBoolean v = true -> text_column env v = Ok text ->
  ToBoolean (JStr text) = true.
Proof.
  unfold text_column, column_text. intros Hv H.
  assert (Hdriver : forall x,
            (if occurs NUL (driver_text env x)
             then Thrown InvalidText else Ok (driver_text env x)) = Ok text ->
            ToBoolean (JStr text) = true).
  { intros x Hx. destruct (occurs NUL (driver_text env x)); [discriminate | ].
    injection Hx as <-. simpl.
    destruct (String.eqb_spec (driver_text env x) "") as [Hempty | _];
      [ | reflexivity].
    now apply driver_text_nonempty in Hempty. }
  destruct v as [ | | b | n | s | l | props]; try discriminate Hv;
    try (exact (Hdriver _ H)).
  destruct (occurs NUL s); [discriminate | ].
  injection H as <-. exact Hv.
Qed.

Lemma jsonb_column_isArray (v stored : value) :
  isArray v = true -> jsonb_column v = Ok stored -> isArray stored = true.
Proof.
  intros Hv H. destruct v as [ | | b | n | s | l | props];
    try discriminate Hv.
  unfold jsonb_column in H. simpl in H.
  match type of H with
  | match option_map JArr ?o with _ => _ end = _ =>
      destruct o; simpl in H; [ | discriminate]
  end.
  now injection H as <-.
Qed.

(** The row of a well-formed scorecard is a well-formed scorecard. *)
Lemma evaluation_columns_well_formed env (r columns : EvaluationResult) :
  well_formed_scorecard r ->
  evaluation_columns env r = Ok columns ->
  well_formed_scorecard columns.
Proof.
  intros [Hscores [Hrec [Hsum [Hstr Hcon]]]] H.
  unfold evaluation_columns in H.
  destruct (text_column env (recommendation r)) as [rec | ] eqn:Erec;
    [ | discriminate].
  destruct (text_column env (summary r)) as [sum | ] eqn:Esum;
    [ | discriminate].
  destruct (jsonb_column (strengths r)) as [str | ] eqn:Estr;
    [ | discriminate].
  destruct (jsonb_column (concerns r)) as [con | ] eqn:Econ;
    [ | discriminate].
  injection H as <-.
  split; [ | split; [ | split; [ | split]]]; cbn.
  - intros k f Hin.
    pose proof (Hscores k f Hin) as Hf.
    simpl in Hin.
    repeat (destruct Hin as [Hin | Hin];
            [injection Hin as _ <-; exact Hf | ]).
    contradiction.
  - exact (text_column_truthy env _ _ Hrec Erec).
  - exact (text_column_truthy env _ _ Hsum Esum).
  - exact (jsonb_column_isArray _ _ Hstr Estr).
  - exact (jsonb_column_isArray _ _ Hcon Econ).
Qed.

(** The rules that carry a property of the store through the storage
    calls, the agents and the routes, given that each elementary write
    keeps it. *)
Section RouteInvariant.
Variable env : Env.
Variable P : Store -> Prop.
Hypothesis P_applications :
  forall s l, Forall2 same_candidate (applications s) l ->
              P s -> P (with_applications s l).
Hypothesis P_tick : forall s, P s -> P (tick s).
Hypothesis P_add_application :
  forall s a, app_id a = next_id s -> status a = "in_progress" ->
              P s -> P (add_application s a).
Hypothesis P_add_message :
  forall s m, msg_id m = next_id s -> msg_createdAt m = clock s ->
              P s -> P (add_message s m).
Hypothesis P_add_flag :
  forall s f, flag_id f = next_id s -> P s -> P (add_flag s f).
Hypothesis P_add_evaluation :
  forall s e, well_formed_scorecard (eval_scores e) ->
              ~ In (eval_applicationId e)
                   (map eval_applicationId (evaluations s)) ->
              P s -> P (add_evaluation s e).

Lemma db_keeps {A} (op : DbOp) (body : Store -> Result A * Store) :
  (forall s, P s -> P (snd (body s))) -> preserves (on_store P) (db env op body).
Proof.
  intros Hbody [s log] HP. unfold on_store, db in *. simpl in *.
  destruct (db_fails env op); [exact HP | ].
  specialize (Hbody s HP). destruct (body s) as [r s']. exact Hbody.
Qed.

Lemma getApplication_keeps id : preserves (on_store P) (getApplication env id).
Proof. apply db_keeps. auto. Qed.

Lemma getJob_keeps id : preserves (on_store P) (getJob env id).
Proof. apply db_keeps. auto. Qed.

Lemma getJobByToken_keeps token :
  preserves (on_store P) (getJobByToken env token).
Proof. apply db_keeps. auto. Qed.

Lemma getMessagesByApplication_keeps id :
  preserves (on_store P) (getMessagesByApplication env id).
Proof. apply db_keeps. auto. Qed.

Lemma createApplication_keeps app :
  preserves (on_store P) (createApplication env app).
Proof. apply db_keeps. intros s HP. simpl. now apply P_add_application. Qed.

Lemma updateApplicationStatus_keeps id st :
  preserves (on_store P) (updateApplicationStatus env id st).
Proof.
  apply db_keeps. intros s HP. simpl.
  apply P_applications; [apply Forall2_same_candidate_map | exact HP].
Qed.

Lemma submitApplication_keeps id :
  preserves (on_store P) (submitApplication env id).
Proof.
  apply db_keeps. intros s HP. simpl. apply P_tick.
  apply P_applications; [apply Forall2_same_candidate_map | exact HP].
Qed.

Lemma createMessage_keeps msg : preserves (on_store P) (createMessage env msg).
Proof.
  apply db_keeps. intros s HP.
  destruct (column_text env (im_content msg)); simpl; [ | exact HP].
  now apply P_add_message.
Qed.

Lemma createFlag_keeps flag : preserves (on_store P) (createFlag env flag).
Proof.
  apply db_keeps. intros s HP.
  destruct (column_text env (if_severity flag));
    destruct (column_text env (if_category flag));
    destruct (column_text env (if_excerpt flag)); simpl; try exact HP.
  now apply P_add_flag.
Qed.

Lemma createFlags_keeps id l : preserves (on_store P) (createFlags env id l).
Proof.
  induction l as [ | flag rest IH]; simpl.
  - apply preserves_ret.
  - repeat (apply preserves_bind; [ | intros ?]); try apply preserves_lift.
    + apply createFlag_keeps.
    + exact IH.
Qed.

Lemma persist_turn_keeps application aiResponse :
  preserves (on_store P) (persist_turn env application aiResponse).
Proof.
  unfold persist_turn.
  apply preserves_bind; [apply createMessage_keeps | intros m].
  apply preserves_bind; [apply preserves_iterate | intros l].
  apply preserves_bind; [apply createFlags_keeps | intros _].
  apply preserves_json.
Qed.

Lemma post_message_keeps appId content :
  preserves (on_store P) (post_message env appId content).
Proof.
  unfold post_message, post_message_with.
  apply preserves_try_catch; [ | intros; apply preserves_status_json].
  apply preserves_bind; [apply getApplication_keeps | intros [app | ]];
    [ | apply preserves_status_json].
  destruct (closed (status app)); [apply preserves_status_json | ].
  apply preserves_bind; [apply getJob_keeps | intros [job | ]];
    [ | apply preserves_status_json].
  destruct (String.eqb content ""); [apply preserves_status_json | ].
  apply preserves_bind; [apply createMessage_keeps | intros _].
  apply preserves_bind; [apply getMessagesByApplication_keeps | intros h].
  apply preserves_bind; [ | intros r; apply persist_turn_keeps].
  intros w HP.
  destruct (runInterviewAgent_returns env job h content w) as [r [-> _]].
  exact HP.
Qed.

Lemma evaluate_keeps application job history :
  preserves (on_store P)
    (evaluate env (runEvaluationAgent env) application job history).
Proof.
  intros w HP. unfold evaluate, try_catch, bind.
  destruct (runEvaluationAgent_returns env job history w) as [r [-> Hr]].
  assert (Hwf : well_formed_scorecard r).
  { destruct Hr as [-> | [parsed [_ Hs]]];
      [apply fallback_well_formed | eapply scoreParsed_well_formed; exact Hs]. }
  replace {| overallScore := overallScore r;
             decisionQuality := decisionQuality r;
             communicationClarity := communicationClarity r;
             structuredProcess := structuredProcess r;
             riskAwareness := riskAwareness r;
             professionalJudgment := professionalJudgment r;
             recommendation := recommendation r;
             summary := summary r;
             strengths := strengths r;
             concerns := concerns r |} with r by (now destruct r).
  unfold createEvaluation, db. simpl.
  destruct (db_fails env OpCreateEvaluation); [exact HP | ].
  destruct (evaluation_columns env r) as [columns | refused] eqn:Hcolumns;
    [ | exact HP].
  destruct (existsb _ (evaluations (store w))) eqn:Hex; [exact HP | ].
  simpl.
  set (created := {| eval_id := next_id (store w);
                     eval_applicationId := app_id application;
                     eval_scores := columns;
                     eval_createdAt := clock (store w) |}).
  assert (HP' : P (add_evaluation (store w) created)).
  { apply P_add_evaluation; [ | | exact HP].
    - exact (evaluation_columns_well_formed env r columns Hwf Hcolumns).
    - simpl. now apply existsb_eval_false. }
  pose proof (updateApplicationStatus_keeps (app_id application) "evaluated"
                {| store := add_evaluation (store w) created;
                   sent := sent w ++ [evaluationMessages job history] |} HP')
    as Hup.
  destruct (updateApplicationStatus env (app_id application) "evaluated" _)
    as [[u | e] w']; exact Hup.
Qed.

Lemma post_submit_keeps appId : preserves (on_store P) (post_submit env appId).
Proof.
  unfold post_submit, post_submit_with.
  apply preserves_try_catch; [ | intros; apply preserves_status_json].
  apply preserves_bind; [apply getApplication_keeps | intros [app | ]];
    [ | apply preserves_status_json].
  destruct (closed (status app)); [apply preserves_status_json | ].
  apply preserves_bind; [apply getJob_keeps | intros [job | ]];
    [ | apply preserves_status_json].
  apply preserves_bind; [apply submitApplication_keeps | intros _].
  apply preserves_bind; [apply getMessagesByApplication_keeps | intros h].
  apply preserves_bind; [ | intros; apply preserves_json].
  destruct h; [apply preserves_ret | apply evaluate_keeps].
Qed.

Lemma patch_status_keeps user appId st :
  preserves (on_store P) (patch_status env user appId st).
Proof.
  unfold patch_status.
  apply preserves_try_catch; [ | intros; apply preserves_status_json].
  apply preserves_bind; [apply getApplication_keeps | intros [app | ]];
    [ | apply preserves_status_json].
  apply preserves_bind; [apply getJob_keeps | intros [job | ]];
    [ | apply preserves_status_json].
  destruct (negb _); [apply preserves_status_json | ].
  destruct (String.eqb st ""); [apply preserves_status_json | ].
  apply preserves_bind; [apply updateApplicationStatus_keeps | intros a].
  apply preserves_json.
Qed.

Lemma post_application_keeps token candidate :
  preserves (on_store P) (post_application env token candidate).
Proof.
  unfold post_application.
  apply preserves_try_catch; [ | intros; apply preserves_status_json].
  apply preserves_bind; [apply getJobByToken_keeps | intros [job | ]];
    [ | apply preserves_status_json].
  destruct (negb _); [apply preserves_status_json | ].
  apply preserves_bind; [apply preserves_lift | intros c].
  apply preserves_bind; [apply createApplication_keeps | intros a].
  apply preserves_status_json.
Qed.

Lemma handle_keeps req : preserves (on_store P) (handle env req).
Proof.
  destruct req; simpl.
  - apply post_application_keeps.
  - apply post_message_keeps.
  - apply post_submit_keeps.
  - apply patch_status_keeps.
Qed.

Lemma serve_keeps reqs w : P (store w) -> P (store (serve env reqs w)).
Proof.
  revert w. induction reqs as [ | req rest IH]; intros w HP; simpl.
  - exact HP.
  - apply IH. now apply (handle_keeps req w).
Qed.
End RouteInvariant.

Lemma grows_step (s0 s s' : Store) : grows s s' -> grows s0 s -> grows s0 s'.
Proof. intros H1 H0. eapply grows_trans; eassumption. Qed.

Lemma grows_with_applications (s : Store) (l : list Application) :
  Forall2 same_candidate (applications s) l -> grows s (with_applications s l).
Proof.
  intros H. constructor; simpl; try apply extends_refl; try reflexivity.
  exists l, []. split; [now rewrite app_nil_r | exact H].
Qed.

Lemma grows_tick (s : Store) : grows s (tick s).
Proof.
  constructor; simpl; try apply extends_refl; try reflexivity.
  exists (applications s), []. split; [now rewrite app_nil_r | ].
  apply Forall2_same_candidate_refl.
Qed.

Lemma grows_add_application (s : Store) (a : Application) :
  grows s (add_application s a).
Proof.
  constructor; simpl; try apply extends_refl; try reflexivity.
  exists (applications s), [a]. split; [reflexivity | ].
  apply Forall2_same_candidate_refl.
Qed.

Lemma grows_add_message (s : Store) (m : Message) : grows s (add_message s m).
Proof.
  constructor; simpl; try apply extends_refl; try apply extends_snoc;
    try reflexivity.
  exists (applications s), []. split; [now rewrite app_nil_r | ].
  apply Forall2_same_candidate_refl.
Qed.

Lemma grows_add_flag (s : Store) (f : Flag) : grows s (add_flag s f).
Proof.
  constructor; simpl; try apply extends_refl; try apply extends_snoc;
    try reflexivity.
  exists (applications s), []. split; [now rewrite app_nil_r | ].
  apply Forall2_same_candidate_refl.
Qed.

Lemma grows_add_evaluation (s : Store) (e : Evaluation) :
  grows s (add_evaluation s e).
Proof.
  constructor; simpl; try apply extends_refl; try apply extends_snoc;
    try reflexivity.
  exists (applications s), []. split; [now rewrite app_nil_r | ].
  apply Forall2_same_candidate_refl.
Qed.

Lemma extends_filter {A} (p : A -> bool) (l l' : list A) :
  extends l l' -> extends (filter p l) (filter p l').
Proof. intros [more ->]. exists (filter p more). apply filter_app. Qed.

(** Whatever requests are served, the store only grows: jobs are
    untouched; no message, flag or scorecard is ever edited or deleted, rows
    are only added after the existing ones; no application is deleted or
    changes its candidate, its job or its start time, and a submission time
    once stamped stays.  In particular the transcript of every application
    keeps its turns and gains turns at the end. *)
Theorem store_only_grows (env : Env) (reqs : list Request) (w : World) :
  grows (store w) (store (serve env reqs w)) /\
  forall applicationId,
    extends (appended (store w) applicationId)
            (appended (store (serve env reqs w)) applicationId).
Proof.
  assert (H : grows (store w) (store (serve env reqs w))).
  { apply (serve_keeps env (grows (store w))).
    - intros s l Hl. apply grows_step. now apply grows_with_applications.
    - intros s. apply grows_step. apply grows_tick.
    - intros s a _ _. apply grows_step. apply grows_add_application.
    - intros s m _ _. apply grows_step. apply grows_add_message.
    - intros s f _. apply grows_step. apply grows_add_flag.
    - intros s e _ _. apply grows_step. apply grows_add_evaluation.
    - apply grows_refl. }
  split; [exact H | ].
  intros applicationId. unfold appended. apply extends_filter.
  apply (grows_messages _ _ H).
Qed.

(** Whatever requests are served, every scorecard in the store is fit to
    be stored (scores that are integers in [0,100] or [NaN], a
    recommendation, a summary, two lists), provided those already there
    are. *)
Theorem stored_scorecards_stay_well_formed
    (env : Env) (reqs : list Request) (w : World) :
  scorecards_well_formed (store w) ->
  scorecards_well_formed (store (serve env reqs w)).
Proof.
  apply (serve_keeps env scorecards_well_formed); unfold scorecards_well_formed.
  - intros s l _ H. exact H.
  - intros s H. exact H.
  - intros s a _ _ H. exact H.
  - intros s m _ _ H. exact H.
  - intros s f _ H. exact H.
  - intros s e Hwf _ H. simpl. apply Forall_app. split; [exact H | ].
    constructor; [exact Hwf | constructor].
Qed.

Lemma stored_scorecards_witness :
  scorecards_well_formed
    (store (serve (answering (Parsed abc_scores))
              [PostMessage 2 "I restore the backups."; PostSubmit 2]
              (sample_world "in_progress" sample_history))).
Proof.
  apply stored_scorecards_stay_well_formed. constructor.
Defined.

(* ================================================================== *)
(** ** Further properties: every route answers *)
(* ================================================================== *)

Lemma returns_only_ret {A} (Q : A -> Prop) (a : A) :
  Q a -> returns_only Q (ret a).
Proof. intros H w b w' E. injection E as <- _. exact H. Qed.

Lemma returns_only_status_json (Q : Response -> Prop) (c : nat) (b : Body) :
  Q {| code := c; body := b |} -> returns_only Q (status_json c b).
Proof. apply returns_only_ret. Qed.

Lemma returns_only_json (Q : Response -> Prop) (b : Body) :
  Q {| code := 200; body := b |} -> returns_only Q (json b).
Proof. apply returns_only_ret. Qed.

Lemma returns_only_bind {A B} (Q : B -> Prop) (m : M A) (k : A -> M B) :
  (forall a, returns_only Q (k a)) -> returns_only Q (bind m k).
Proof.
  intros Hk w b w' E. unfold bind in E.
  destruct (m w) as [[a | e] w1]; [ | discriminate E].
  exact (Hk a w1 b w' E).
Qed.

Lemma returns_only_try_catch {A} (Q : A -> Prop) (m : M A) (h : Error -> M A) :
  returns_only Q m -> (forall e, returns_only Q (h e)) ->
  returns_only Q (try_catch m h).
Proof.
  intros Hm Hh w a w' E. unfold try_catch in E.
  destruct (m w) as [[a0 | e] w1] eqn:Em.
  - injection E as <- <-. exact (Hm w a0 w1 Em).
  - exact (Hh e w1 a w' E).
Qed.

Lemma never_throws_try_catch {A} (m : M A) (h : Error -> M A) :
  (forall e, never_throws (h e)) -> never_throws (try_catch m h).
Proof.
  intros Hh w. unfold try_catch.
  destruct (m w) as [[a | e] w1]; [eauto | apply Hh].
Qed.

Lemma never_throws_status_json (c : nat) (b : Body) :
  never_throws (status_json c b).
Proof. intros w. eexists. eexists. reflexivity. Qed.

Lemma handle_never_throws (env : Env) (req : Request) :
  never_throws (handle env req).
Proof.
  destruct req; simpl;
    [unfold post_application | unfold post_message, post_message_with
     | unfold post_submit, post_submit_with | unfold patch_status];
    apply never_throws_try_catch; intros e; apply never_throws_status_json.
Qed.

Lemma handle_codes (env : Env) (req : Request) :
  returns_only (fun r => In (code r) (route_codes req)) (handle env req).
Proof.
  destruct req as [token candidate | appId content | appId | user appId st];
    simpl.
  - unfold post_application.
    apply returns_only_try_catch;
      [ | intros e; apply returns_only_status_json; simpl; tauto].
    apply returns_only_bind. intros [job | ];
      [ | apply returns_only_status_json; simpl; tauto].
    destruct (negb (isActive job));
      [apply returns_only_status_json; simpl; tauto | ].
    apply returns_only_bind. intros parsed.
    apply returns_only_bind. intros application.
    apply returns_only_status_json; simpl; tauto.
  - unfold post_message, post_message_with.
    apply returns_only_try_catch;
      [ | intros e; apply returns_only_status_json; simpl; tauto].
    apply returns_only_bind. intros [application | ];
      [ | apply returns_only_status_json; simpl; tauto].
    destruct (closed (status application));
      [apply returns_only_status_json; simpl; tauto | ].
    apply returns_only_bind. intros [job | ];
      [ | apply returns_only_status_json; simpl; tauto].
    destruct (String.eqb content "");
      [apply returns_only_status_json; simpl; tauto | ].
    apply returns_only_bind. intros _.
    apply returns_only_bind. intros history.
    apply returns_only_bind. intros aiResponse.
    unfold persist_turn.
    apply returns_only_bind. intros assistantMessage.
    apply returns_only_bind. intros detected.
    apply returns_only_bind. intros _.
    apply returns_only_json; simpl; tauto.
  - unfold post_submit, post_submit_with.
    apply returns_only_try_catch;
      [ | intros e; apply returns_only_status_json; simpl; tauto].
    apply returns_only_bind. intros [application | ];
      [ | apply returns_only_status_json; simpl; tauto].
    destruct (closed (status application));
      [apply returns_only_status_json; simpl; tauto | ].
    apply returns_only_bind. intros [job | ];
      [ | apply returns_only_status_json; simpl; tauto].
    apply returns_only_bind. intros _.
    apply returns_only_bind. intros history.
    apply returns_only_bind. intros _.
    apply returns_only_json; simpl; tauto.
  - unfold patch_status.
    apply returns_only_try_catch;
      [ | intros e; apply returns_only_status_json; simpl; tauto].
    apply returns_only_bind. intros [application | ];
      [ | apply returns_only_status_json; simpl; tauto].
    apply returns_only_bind. intros [job | ];
      [ | apply returns_only_status_json; simpl; tauto].
    destruct (negb (Nat.eqb (ownerId job) user));
      [apply returns_only_status_json; simpl; tauto | ].
    destruct (String.eqb st "");
      [apply returns_only_status_json; simpl; tauto | ].
    apply returns_only_bind. intros updated.
    apply returns_only_json; simpl; tauto.
Qed.

(** Every route answers, whatever fails underneath: no request makes a
    handler throw.  The intake answers 201, 400 or 404 (a failure of the
    database is reported as 400 there), the message and submit routes 200,
    400, 404 or 500, the status edit 200, 400, 403, 404 or 500. *)
Theorem every_route_answers (env : Env) (req : Request) (w : World) :
  exists (response : Response) (w' : World),
    handle env req w = (Ok response, w') /\
    In (code response) (route_codes req).
Proof.
  destruct (handle_never_throws env req w) as [response [w' Hrun]].
  exists response, w'. split; [exact Hrun | ].
  exact (handle_codes env req w response w' Hrun).
Qed.

(* ================================================================== *)
(** ** Further properties: the message route, step by step *)
(* ================================================================== *)

Lemma try_catch_ok {A} (m : M A) (h : Error -> M A) (w w' : World) (a : A) :
  m w = (Ok a, w') -> try_catch m h w = (Ok a, w').
Proof. intros H. unfold try_catch. now rewrite H. Qed.

Lemma try_catch_thrown {A} (m : M A) (h : Error -> M A) (w w' : World)
    (e : Error) :
  m w = (Thrown e, w') -> try_catch m h w = h e w'.
Proof. intros H. unfold try_catch. now rewrite H. Qed.

Lemma bind_thrown {A B} (m : M A) (k : A -> M B) (w w' : World) (e : Error) :
  m w = (Thrown e, w') -> bind m k w = (Thrown e, w').
Proof. intros H. unfold bind. now rewrite H. Qed.

Lemma column_text_truthy env (v : value) :
  ToBoolean v = true -> exists text, column_text env v = Some text.
Proof.
  destruct v; simpl; try discriminate; eauto.
Qed.

Lemma createFlag_run env applicationId (flag : value) a b c s log :
  db_fails env OpCreateFlag = false ->
  flag_columns env flag = Some (a, b, c) ->
  bind (lift (Get flag "severity") TypeError) (fun sev =>
    bind (lift (Get flag "category") TypeError) (fun cat_ =>
      bind (lift (Get flag "excerpt") TypeError) (fun exc =>
        createFlag env {| if_applicationId := applicationId;
                          if_severity := sev; if_category := cat_;
                          if_excerpt := exc |})))
    {| store := s; sent := log |}
  = (Ok {| flag_id := next_id s; flag_applicationId := applicationId;
           severity := a; category := b; excerpt := c;
           flag_createdAt := clock s |},
     {| store := add_flags s applicationId [(a, b, c)]; sent := log |}).
Proof.
  intros Hdb Hcols. unfold flag_columns in Hcols.
  destruct (Get flag "severity") as [sev | ]; [ | discriminate].
  destruct (Get flag "category") as [cat_ | ]; [ | discriminate].
  destruct (Get flag "excerpt") as [exc | ]; [ | discriminate].
  destruct (column_text env sev) as [a' | ] eqn:Ha; [ | discriminate].
  destruct (column_text env cat_) as [b' | ] eqn:Hb; [ | discriminate].
  destruct (column_text env exc) as [c' | ] eqn:Hc; [ | discriminate].
  injection Hcols as -> -> ->.
  unfold bind, lift, ret, createFlag, db. simpl.
  now rewrite Hdb, Ha, Hb, Hc.
Qed.

Lemma createFlag_fails env applicationId (flag : value) s log :
  flag_columns env flag = None ->
  exists e,
    bind (lift (Get flag "severity") TypeError) (fun sev =>
      bind (lift (Get flag "category") TypeError) (fun cat_ =>
        bind (lift (Get flag "excerpt") TypeError) (fun exc =>
          createFlag env {| if_applicationId := applicationId;
                            if_severity := sev; if_category := cat_;
                            if_excerpt := exc |})))
      {| store := s; sent := log |}
    = (Thrown e, {| store := s; sent := log |}).
Proof.
  intros Hcols. unfold flag_columns in Hcols.
  unfold bind, lift, ret, throw, createFlag, db. simpl.
  destruct (Get flag "severity") as [sev | ]; [ | eauto].
  destruct (Get flag "category") as [cat_ | ]; [ | eauto].
  destruct (Get flag "excerpt") as [exc | ]; [ | eauto].
  destruct (db_fails env OpCreateFlag); [eauto | ].
  destruct (column_text env sev); [ | eauto].
  destruct (column_text env cat_); [ | eauto].
  destruct (column_text env exc); [discriminate | eauto].
Qed.

(** Storing the detected flags: all of them when each has its three
    columns. *)
Lemma createFlags_run env applicationId (l : list value) rows s log :
  db_fails env OpCreateFlag = false ->
  map (flag_columns env) l = map Some rows ->
  createFlags env applicationId l {| store := s; sent := log |}
  = (Ok tt, {| store := add_flags s applicationId rows; sent := log |}).
Proof.
  intros Hdb. revert rows s.
  induction l as [ | flag rest IH]; intros rows s Hrows.
  - destruct rows; [reflexivity | discriminate].
  - destruct rows as [ | [[a b] c] rows']; [discriminate | ].
    simpl in Hrows. injection Hrows as Hflag Hrest.
    cbn [createFlags].
    pose proof (createFlag_run env applicationId flag a b c s log Hdb Hflag)
      as Hrun.
    unfold bind in *.
    destruct (lift (Get flag "severity") TypeError {| store := s; sent := log |})
      as [[sev | e1] w1]; [ | discriminate Hrun].
    destruct (lift (Get flag "category") TypeError w1)
      as [[cat_ | e2] w2]; [ | discriminate Hrun].
    destruct (lift (Get flag "excerpt") TypeError w2)
      as [[exc | e3] w3]; [ | discriminate Hrun].
    rewrite Hrun. simpl. now apply IH.
Qed.

(** Storing the detected flags stops at the first one that lacks a
    column; those before it stay stored. *)
Lemma createFlags_stops env applicationId (good rest : list value)
    (bad : value) rows s log :
  db_fails env OpCreateFlag = false ->
  map (flag_columns env) good = map Some rows ->
  flag_columns env bad = None ->
  exists e,
    createFlags env applicationId (good ++ bad :: rest)
      {| store := s; sent := log |}
    = (Thrown e, {| store := add_flags s applicationId rows; sent := log |}).
Proof.
  intros Hdb. revert rows s.
  induction good as [ | flag good' IH]; intros rows s Hrows Hbad.
  - destruct rows; [ | discriminate]. simpl app. cbn [createFlags add_flags].
    destruct (createFlag_fails env applicationId bad s log Hbad) as [e Hrun].
    exists e. unfold bind in *.
    destruct (lift (Get bad "severity") TypeError {| store := s; sent := log |})
      as [[sev | e1] w1]; [ | now inversion Hrun].
    destruct (lift (Get bad "category") TypeError w1)
      as [[cat_ | e2] w2]; [ | now inversion Hrun].
    destruct (lift (Get bad "excerpt") TypeError w2)
      as [[exc | e3] w3]; [ | now inversion Hrun].
    now rewrite Hrun.
  - destruct rows as [ | [[a b] c] rows']; [discriminate | ].
    simpl in Hrows. injection Hrows as Hflag Hrest.
    simpl app. cbn [createFlags].
    pose proof (createFlag_run env applicationId flag a b c s log Hdb Hflag)
      as Hrun.
    unfold bind in *.
    destruct (lift (Get flag "severity") TypeError {| store := s; sent := log |})
      as [[sev | e1] w1]; [ | discriminate Hrun].
    destruct (lift (Get flag "category") TypeError w1)
      as [[cat_ | e2] w2]; [ | discriminate Hrun].
    destruct (lift (Get flag "excerpt") TypeError w2)
      as [[exc | e3] w3]; [ | discriminate Hrun].
    rewrite Hrun. simpl. now apply IH.
Qed.

Lemma add_flags_tables (s : Store) (id : Id) rows :
  jobs (add_flags s id rows) = jobs s /\
  applications (add_flags s id rows) = applications s /\
  messages (add_flags s id rows) = messages s /\
  evaluations (add_flags s id rows) = evaluations s /\
  map flag_fields (flags (add_flags s id rows))
  = map flag_fields (flags s) ++ map (fun r => (id, r)) rows.
Proof.
  revert s. induction rows as [ | [[a b] c] rest IH]; intros s; simpl.
  - now rewrite app_nil_r.
  - destruct (IH (add_flag s {| flag_id := next_id s;
                                flag_applicationId := id;
                                severity := a; category := b; excerpt := c;
                                flag_createdAt := clock s |}))
      as [Hj [Ha [Hm [He Hf]]]].
    rewrite Hj, Ha, Hm, He, Hf. simpl.
    repeat split; try reflexivity.
    rewrite map_app. simpl. now rewrite <- app_assoc.
Qed.

(** The message route up to the call of the Conductor: the candidate's
    message is stored, the history is loaded, and what remains is the
    Conductor's turn followed by its storing. *)
Lemma post_message_accepted env appId content application job s log :
  db_fails env OpGetApplication = false ->
  db_fails env OpGetJob = false ->
  db_fails env OpCreateMessage = false ->
  db_fails env OpGetMessagesByApplication = false ->
  application_of s appId = Some application ->
  closed (status application) = false ->
  job_of s (jobId application) = Some job ->
  content <> "" ->
  let s1 := add_message s (new_message s appId "user" content) in
  post_message env appId content {| store := s; sent := log |}
  = try_catch
      (bind (runInterviewAgent env job
               (orderBy_createdAt (appended s1 appId)) content)
            (persist_turn env application))
      (fun _ => status_json 500 (BMessage "Failed to process message"))
      {| store := s1; sent := log |}.
Proof.
  intros Hdb1 Hdb2 Hdb3 Hdb4 Hfound Hopen Hjob Hcontent s1.
  pose proof (application_of_id _ _ _ Hfound) as Hid.
  unfold post_message, post_message_with, try_catch.
  rewrite (bind_ok _ _ _ _ _ (getApplication_run env appId s log Hdb1)).
  rewrite Hfound, Hopen.
  rewrite (bind_ok _ _ _ _ _ (getJob_run env _ s log Hdb2)).
  rewrite Hjob.
  destruct (String.eqb_spec content "") as [Hempty | _]; [contradiction | ].
  rewrite Hid.
  rewrite (bind_ok _ _ _ _ _
             (createMessage_run env
                {| im_applicationId := appId; im_role := "user";
                   im_content := JStr content |} content s log Hdb3 eq_refl)).
  simpl im_applicationId. simpl im_role.
  fold (new_message s appId "user" content). fold s1.
  rewrite (bind_ok _ _ _ _ _
             (getMessagesByApplication_run env appId s1 log Hdb4)).
  reflexivity.
Qed.

Lemma persist_turn_run env application r text l rows s log :
  db_fails env OpCreateMessage = false ->
  db_fails env OpCreateFlag = false ->
  column_text env (assistant_message r) = Some text ->
  detected_flags r = JArr l ->
  map (flag_columns env) l = map Some rows ->
  let reply := new_message s (app_id application) "assistant" text in
  persist_turn env application r {| store := s; sent := log |}
  = (Ok {| code := 200; body := BTurn reply (stage r) |},
     {| store := add_flags (add_message s reply) (app_id application) rows;
        sent := log |}).
Proof.
  intros Hdb1 Hdb2 Htext Hflags Hrows reply. unfold persist_turn.
  rewrite (bind_ok _ _ _ _ _
             (createMessage_run env
                {| im_applicationId := app_id application;
                   im_role := "assistant";
                   im_content := assistant_message r |} text s log Hdb1 Htext)).
  simpl im_applicationId. simpl im_role.
  fold (new_message s (app_id application) "assistant" text). fold reply.
  rewrite Hflags. unfold iterate.
  unfold bind at 1. unfold ret at 1.
  rewrite (bind_ok _ _ _ _ _
             (createFlags_run env (app_id application) l rows
                (add_message s reply) log Hdb2 Hrows)).
  reflexivity.
Qed.

Lemma persist_turn_stops env application r text good bad rest rows s log :
  db_fails env OpCreateMessage = false ->
  db_fails env OpCreateFlag = false ->
  column_text env (assistant_message r) = Some text ->
  detected_flags r = JArr (good ++ bad :: rest) ->
  map (flag_columns env) good = map Some rows ->
  flag_columns env bad = None ->
  let reply := new_message s (app_id application) "assistant" text in
  exists e,
    persist_turn env application r {| store := s; sent := log |}
    = (Thrown e,
       {| store := add_flags (add_message s reply) (app_id application) rows;
          sent := log |}).
Proof.
  intros Hdb1 Hdb2 Htext Hflags Hrows Hbad reply. unfold persist_turn.
  rewrite (bind_ok _ _ _ _ _
             (createMessage_run env
                {| im_applicationId := app_id application;
                   im_role := "assistant";
                   im_content := assistant_message r |} text s log Hdb1 Htext)).
  simpl im_applicationId. simpl im_role.
  fold (new_message s (app_id application) "assistant" text). fold reply.
  rewrite Hflags. unfold iterate.
  unfold bind at 1. unfold ret at 1.
  destruct (createFlags_stops env (app_id application) good rest bad rows
              (add_message s reply) log Hdb2 Hrows Hbad) as [e Hrun].
  exists e. now rewrite (bind_thrown _ _ _ _ _ Hrun).
Qed.

Lemma conductor_reply_has_text env job history content w r :
  fst (runInterviewAgent env job history content w) = Ok r ->
  exists text, column_text env (assistant_message r) = Some text.
Proof.
  intros Hrun.
  destruct (runInterviewAgent_returns env job history content w)
    as [r' [Heq Hr]].
  rewrite Heq in Hrun. simpl in Hrun. injection Hrun as ->.
  apply column_text_truthy.
  destruct Hr as [-> | [parsed [_ Hv]]]; [reflexivity | ].
  unfold validateParsed in Hv. invert_let. injection Hv as <-. simpl.
  eapply defaultField_truthy; [ | eassumption]. reflexivity.
Qed.

(** An accepted candidate message whose detected flags all have their
    three columns: the route answers 200 with the interviewer's reply and
    the stage; it has stored the candidate's message, then the reply, then
    one row per flag, all for this application; and it has issued exactly
    one completion request. *)
Theorem accepted_turn_is_recorded
    (env : Env) (w : World) (appId : Id) (content : string)
    (application : Application) (job : Job) :
  db_fails env OpGetApplication = false ->
  db_fails env OpGetJob = false ->
  db_fails env OpCreateMessage = false ->
  db_fails env OpGetMessagesByApplication = false ->
  db_fails env OpCreateFlag = false ->
  application_of (store w) appId = Some application ->
  closed (status application) = false ->
  job_of (store w) (jobId application) = Some job ->
  content <> "" ->
  let asked := new_message (store w) appId "user" content in
  let s1 := add_message (store w) asked in
  let history := orderBy_createdAt (appended s1 appId) in
  forall (r : InterviewResponse) (l : list value) rows,
    fst (runInterviewAgent env job history content
           {| store := s1; sent := sent w |}) = Ok r ->
    detected_flags r = JArr l ->
    map (flag_columns env) l = map Some rows ->
    exists text w',
      column_text env (assistant_message r) = Some text /\
      let reply := new_message s1 appId "assistant" text in
      post_message env appId content w
      = (Ok {| code := 200; body := BTurn reply (stage r) |}, w') /\
      messages (store w') = messages (store w) ++ [asked; reply] /\
      map flag_fields (flags (store w'))
      = map flag_fields (flags (store w)) ++ map (fun row => (appId, row)) rows /\
      evaluations (store w') = evaluations (store w) /\
      applications (store w') = applications (store w) /\
      sent w' = sent w ++ [interviewMessages job history content].
Proof.
  intros Hdb1 Hdb2 Hdb3 Hdb4 Hdb5 Hfound Hopen Hjob Hcontent asked s1 history
         r l rows Hr Hflags Hrows.
  pose proof (application_of_id _ _ _ Hfound) as Hid.
  destruct w as [s log]. simpl in *.
  destruct (conductor_reply_has_text _ _ _ _ _ _ Hr) as [text Htext].
  destruct (runInterviewAgent_returns env job history content
              {| store := s1; sent := log |}) as [r' [Hrun _]].
  rewrite Hrun in Hr. simpl in Hr. injection Hr as ->.
  exists text. eexists. split; [exact Htext | ].
  split.
  - rewrite (post_message_accepted env appId content application job s log
               Hdb1 Hdb2 Hdb3 Hdb4 Hfound Hopen Hjob Hcontent).
    fold asked. fold s1. fold history.
    apply try_catch_ok.
    rewrite (bind_ok _ _ _ _ _ Hrun). simpl store.
    rewrite (persist_turn_run env application r text l rows s1 _
               Hdb3 Hdb5 Htext Hflags Hrows).
    rewrite Hid. reflexivity.
  - simpl.
    destruct (add_flags_tables
                (add_message s1 (new_message s1 appId "assistant" text))
                appId rows) as [_ [Ha [Hm [He Hf]]]].
    rewrite Ha, Hm, He, Hf. simpl.
    repeat split; try reflexivity.
    now rewrite <- app_assoc.
Qed.

Lemma accepted_turn_witness :
  exists response w',
    post_message (answering (Parsed malformed_turn)) 2 "I restore the backups."
      (sample_world "in_progress" sample_history)
    = (Ok response, w') /\
    code response = 200%nat /\
    List.length (messages (store w')) = 6%nat.
Proof.
  destruct (accepted_turn_is_recorded (answering (Parsed malformed_turn))
              (sample_world "in_progress" sample_history) 2
              "I restore the backups." (sample_application "in_progress")
              sample_job eq_refl eq_refl eq_refl eq_refl eq_refl eq_refl
              eq_refl eq_refl)
    with (r := {| assistant_message := JStr "Could you elaborate on that?";
                  detected_flags := JArr [];
                  stage := JStr "questioning" |})
         (l := @nil value) (rows := @nil (string * string * string))
    as [text [w' [_ [Hrun [Hmessages _]]]]].
  - discriminate.
  - vm_compute. reflexivity.
  - reflexivity.
  - reflexivity.
  - eexists. exists w'. split; [exact Hrun | ].
    split; [reflexivity | ]. rewrite Hmessages. reflexivity.
Defined.

(** A turn survives a failed completion: when the completion call fails or
    its content is not JSON, the accepted message is still answered 200,
    with the Conductor's stock question as the stored reply, stage
    [questioning] and no flag. *)
Theorem turn_survives_failed_completion
    (env : Env) (w : World) (appId : Id) (content : string)
    (application : Application) (job : Job) :
  db_fails env OpGetApplication = false ->
  db_fails env OpGetJob = false ->
  db_fails env OpCreateMessage = false ->
  db_fails env OpGetMessagesByApplication = false ->
  application_of (store w) appId = Some application ->
  closed (status application) = false ->
  job_of (store w) (jobId application) = Some job ->
  content <> "" ->
  let asked := new_message (store w) appId "user" content in
  let s1 := add_message (store w) asked in
  let history := orderBy_createdAt (appended s1 appId) in
  (forall v, llm env (interviewMessages job history content) <> Parsed v) ->
  let reply :=
    new_message s1 appId "assistant"
      "Thank you for your response. Could you tell me more about how you would handle a challenging situation in this role?" in
  post_message env appId content w
  = (Ok {| code := 200; body := BTurn reply (JStr "questioning") |},
     {| store := add_message s1 reply;
        sent := sent w ++ [interviewMessages job history content] |}).
Proof.
  intros Hdb1 Hdb2 Hdb3 Hdb4 Hfound Hopen Hjob Hcontent asked s1 history
         Hfail reply.
  pose proof (application_of_id _ _ _ Hfound) as Hid.
  destruct w as [s log]. simpl in *.
  rewrite (post_message_accepted env appId content application job s log
             Hdb1 Hdb2 Hdb3 Hdb4 Hfound Hopen Hjob Hcontent).
  fold asked. fold s1. fold history.
  assert (Hrun : runInterviewAgent env job history content
                   {| store := s1; sent := log |}
                 = (Ok fallbackInterview,
                    {| store := s1;
                       sent := log ++ [interviewMessages job history content] |})).
  { unfold runInterviewAgent, try_catch, bind, complete.
    destruct (llm env (interviewMessages job history content)) as [ | | v] eqn:E;
      [reflexivity | reflexivity | ].
    exfalso. exact (Hfail v eq_refl). }
  apply try_catch_ok.
  rewrite (bind_ok _ _ _ _ _ Hrun).
  unfold persist_turn.
  rewrite (bind_ok _ _ _ _ _
             (createMessage_run env
                {| im_applicationId := app_id application;
                   im_role := "assistant";
                   im_content := assistant_message fallbackInterview |}
                _ s1 _ Hdb3 eq_refl)).
  rewrite Hid. reflexivity.
Qed.

Lemma turn_survives_witness :
  exists reply w',
    post_message (answering Unparseable) 2 "I restore the backups."
      (sample_world "in_progress" sample_history)
    = (Ok {| code := 200; body := BTurn reply (JStr "questioning") |}, w').
Proof.
  eexists. eexists.
  apply (turn_survives_failed_completion (answering Unparseable)
           (sample_world "in_progress" sample_history) 2
           "I restore the backups." (sample_application "in_progress")
           sample_job eq_refl eq_refl eq_refl eq_refl eq_refl eq_refl eq_refl).
  - discriminate.
  - intros v. discriminate.
Defined.

(** A detected flag that lacks a column (or is [null]) makes the route
    answer 500, although the candidate's message, the interviewer's reply
    and the flags before the faulty one are stored by then. *)
Theorem faulty_flag_fails_after_storing
    (env : Env) (w : World) (appId : Id) (content : string)
    (application : Application) (job : Job) :
  db_fails env OpGetApplication = false ->
  db_fails env OpGetJob = false ->
  db_fails env OpCreateMessage = false ->
  db_fails env OpGetMessagesByApplication = false ->
  db_fails env OpCreateFlag = false ->
  application_of (store w) appId = Some application ->
  closed (status application) = false ->
  job_of (store w) (jobId application) = Some job ->
  content <> "" ->
  let asked := new_message (store w) appId "user" content in
  let s1 := add_message (store w) asked in
  let history := orderBy_createdAt (appended s1 appId) in
  forall (r : InterviewResponse) (good rest : list value) (bad : value) rows,
    fst (runInterviewAgent env job history content
           {| store := s1; sent := sent w |}) = Ok r ->
    detected_flags r = JArr (good ++ bad :: rest) ->
    map (flag_columns env) good = map Some rows ->
    flag_columns env bad = None ->
    exists text w',
      column_text env (assistant_message r) = Some text /\
      post_message env appId content w
      = (Ok {| code := 500; body := BMessage "Failed to process message" |},
         w') /\
      messages (store w')
      = messages (store w)
        ++ [asked; new_message s1 appId "assistant" text] /\
      map flag_fields (flags (store w'))
      = map flag_fields (flags (store w)) ++ map (fun row => (appId, row)) rows.
Proof.
  intros Hdb1 Hdb2 Hdb3 Hdb4 Hdb5 Hfound Hopen Hjob Hcontent asked s1 history
         r good rest bad rows Hr Hflags Hrows Hbad.
  pose proof (application_of_id _ _ _ Hfound) as Hid.
  destruct w as [s log]. simpl in *.
  destruct (conductor_reply_has_text _ _ _ _ _ _ Hr) as [text Htext].
  destruct (runInterviewAgent_returns env job history content
              {| store := s1; sent := log |}) as [r' [Hrun _]].
  rewrite Hrun in Hr. simpl in Hr. injection Hr as ->.
  destruct (persist_turn_stops env application r text good bad rest rows s1
              (log ++ [interviewMessages job history content])
              Hdb3 Hdb5 Htext Hflags Hrows Hbad) as [e Hstop].
  exists text. eexists. split; [exact Htext | ].
  split.
  - rewrite (post_message_accepted env appId content application job s log
               Hdb1 Hdb2 Hdb3 Hdb4 Hfound Hopen Hjob Hcontent).
    fold asked. fold s1. fold history.
    erewrite try_catch_thrown.
    + reflexivity.
    + rewrite (bind_ok _ _ _ _ _ Hrun). simpl store. exact Hstop.
  - simpl. rewrite Hid.
    destruct (add_flags_tables
                (add_message s1 (new_message s1 appId "assistant" text))
                appId rows) as [_ [_ [Hm [_ Hf]]]].
    rewrite Hm, Hf. simpl. split; [now rewrite <- app_assoc | reflexivity].
Qed.

Lemma faulty_flag_witness :
  exists w',
    post_message (answering (Parsed faulty_flags_turn)) 2
      "I restore the backups." (sample_world "in_progress" sample_history)
    = (Ok {| code := 500; body := BMessage "Failed to process message" |}, w') /\
    List.length (messages (store w')) = 6%nat /\
    map flag_fields (flags (store w'))
    = [(2%nat, ("low", "depth", "I check the backups."))].
Proof.
  destruct (faulty_flag_fails_after_storing
              (answering (Parsed faulty_flags_turn))
              (sample_world "in_progress" sample_history) 2
              "I restore the backups." (sample_application "in_progress")
              sample_job eq_refl eq_refl eq_refl eq_refl eq_refl eq_refl
              eq_refl eq_refl)
    with (r := {| assistant_message := JStr "What would you do next?";
                  detected_flags :=
                    JArr [ JObj [ ("severity", JStr "low");
                                  ("category", JStr "depth");
                                  ("excerpt", JStr "I check the backups.") ];
                           JNull ];
                  stage := JStr "follow_up" |})
         (good := [ JObj [ ("severity", JStr "low");
                           ("category", JStr "depth");
                           ("excerpt", JStr "I check the backups.") ] ])
         (bad := JNull) (rest := @nil value)
         (rows := [("low", "depth", "I check the backups.")])
    as [text [w' [_ [Hrun [Hmessages Hflags]]]]].
  - discriminate.
  - vm_compute. reflexivity.
  - reflexivity.
  - reflexivity.
  - reflexivity.
  - exists w'. split; [exact Hrun | ].
    split; [rewrite Hmessages; reflexivity | exact Hflags].
Defined.

(** A candidate message that cannot be taken leaves the world as it was:
    for an unknown application the answer is 404, for an application whose
    job is gone 404, for a message without content 400; nothing is stored
    and no completion request is issued. *)
Theorem refused_message_changes_nothing
    (env : Env) (w : World) (appId : Id) (content : string) :
  db_fails env OpGetApplication = false ->
  db_fails env OpGetJob = false ->
  (application_of (store w) appId = None ->
   post_message env appId content w
   = (Ok {| code := 404; body := BMessage "Application not found" |}, w)) /\
  (forall application,
     application_of (store w) appId = Some application ->
     closed (status application) = false ->
     (job_of (store w) (jobId application) = None ->
      post_message env appId content w
      = (Ok {| code := 404; body := BMessage "Job not found" |}, w)) /\
     (job_of (store w) (jobId application) <> None ->
      post_message env appId "" w
      = (Ok {| code := 400; body := BMessage "Message content is required" |},
         w))).
Proof.
  intros Hdb1 Hdb2. destruct w as [s log]. simpl.
  split.
  - intros Hnone. unfold post_message, post_message_with, try_catch.
    rewrite (bind_ok _ _ _ _ _ (getApplication_run env appId s log Hdb1)).
    now rewrite Hnone.
  - intros application Hfound Hopen. split.
    + intros Hjob. unfold post_message, post_message_with, try_catch.
      rewrite (bind_ok _ _ _ _ _ (getApplication_run env appId s log Hdb1)).
      rewrite Hfound, Hopen.
      rewrite (bind_ok _ _ _ _ _ (getJob_run env _ s log Hdb2)).
      now rewrite Hjob.
    + intros Hjob. unfold post_message, post_message_with, try_catch.
      rewrite (bind_ok _ _ _ _ _ (getApplication_run env appId s log Hdb1)).
      rewrite Hfound, Hopen.
      rewrite (bind_ok _ _ _ _ _ (getJob_run env _ s log Hdb2)).
      destruct (job_of s (jobId application)) as [job | ];
        [reflexivity | contradiction].
Qed.

Lemma refused_message_witness :
  post_message (answering CallFails) 9 "Anyone there?"
    (sample_world "in_progress" sample_history)
  = (Ok {| code := 404; body := BMessage "Application not found" |},
     sample_world "in_progress" sample_history) /\
  post_message (answering CallFails) 2 ""
    (sample_world "in_progress" sample_history)
  = (Ok {| code := 400; body := BMessage "Message content is required" |},
     sample_world "in_progress" sample_history).
Proof.
  split.
  - destruct (refused_message_changes_nothing (answering CallFails)
                (sample_world "in_progress" sample_history) 9 "Anyone there?"
                eq_refl eq_refl) as [Hunknown _].
    apply Hunknown. reflexivity.
  - destruct (refused_message_changes_nothing (answering CallFails)
                (sample_world "in_progress" sample_history) 2 ""
                eq_refl eq_refl) as [_ Hknown].
    destruct (Hknown (sample_application "in_progress") eq_refl eq_refl)
      as [_ Hempty].
    apply Hempty. discriminate.
Defined.

(* ================================================================== *)
(** ** Further properties: the Conductor's request and counter *)
(* ================================================================== *)

Lemma questionCount_app (h1 h2 : list Message) :
  questionCount (h1 ++ h2) = questionCount h1 + questionCount h2.
Proof.
  unfold questionCount. rewrite filter_app, length_app. lia.
Qed.

(** The progress counter is additive over the history and lies between 0
    and the number of messages; a message of any role other than
    [assistant] leaves it unchanged, an [assistant] message adds one: so
    an accepted turn, which appends the candidate's message and the
    interviewer's reply, adds exactly one. *)
Theorem questionCount_counts_replies (history later : list Message) :
  questionCount (history ++ later)
  = questionCount history + questionCount later /\
  0 <= questionCount history <= Z.of_nat (List.length history) /\
  (forall m, role m <> "assistant" ->
             questionCount (history ++ [m]) = questionCount history) /\
  (forall m, role m = "assistant" ->
             questionCount (history ++ [m]) = questionCount history + 1) /\
  (forall asked reply,
     role asked = "user" -> role reply = "assistant" ->
     questionCount (history ++ [asked; reply]) = questionCount history + 1).
Proof.
  split; [apply questionCount_app | ].
  split.
  { unfold questionCount. split; [lia | ].
    apply inj_le. apply filter_length_le. }
  assert (Hother : forall m, role m <> "assistant" -> questionCount [m] = 0).
  { intros m Hm. unfold questionCount. simpl. unfold is_assistant.
    destruct (String.eqb_spec (role m) "assistant"); [contradiction | reflexivity]. }
  assert (Hreply : forall m, role m = "assistant" -> questionCount [m] = 1).
  { intros m Hm. unfold questionCount. simpl. unfold is_assistant.
    rewrite Hm. reflexivity. }
  split; [intros m Hm; rewrite questionCount_app, (Hother m Hm); lia | ].
  split; [intros m Hm; rewrite questionCount_app, (Hreply m Hm); lia | ].
  intros asked reply Ha Hr.
  change [asked; reply] with ([asked] ++ [reply]).
  rewrite !questionCount_app, (Hreply reply Hr), (Hother asked); [lia | ].
  rewrite Ha. discriminate.
Qed.

(** Whatever the completion service answers, the Conductor returns a turn
    without throwing and without touching the store, after exactly one
    request: the system prompt first, one entry per message of the history
    with its role and content, in order, and the candidate's message, as a
    user entry, last. *)
Theorem conductor_issues_one_request
    (env : Env) (job : Job) (history : list Message)
    (candidateMessage : string) (w : World) :
  let request := interviewMessages job history candidateMessage in
  exists r : InterviewResponse,
    runInterviewAgent env job history candidateMessage w
    = (Ok r, {| store := store w; sent := sent w ++ [request] |}) /\
    List.length request = S (S (List.length history)) /\
    option_map chat_role (hd_error request) = Some "system" /\
    last request (user_turn "") = user_turn candidateMessage /\
    (forall i m, nth_error history i = Some m ->
                 nth_error request (S i) = Some (chat_of m)).
Proof.
  intros request.
  destruct (runInterviewAgent_returns env job history candidateMessage w)
    as [r [Hrun _]].
  exists r. split; [exact Hrun | ].
  unfold request, interviewMessages.
  split; [rewrite length_app; simpl; rewrite length_map; lia | ].
  split; [reflexivity | ].
  split; [apply last_last | ].
  intros i m Hm. simpl.
  rewrite nth_error_app1.
  - rewrite nth_error_map, Hm. reflexivity.
  - rewrite length_map. apply nth_error_Some. congruence.
Qed.

(* ================================================================== *)
(** ** Further properties: the submit route, step by step *)
(* ================================================================== *)

Lemma find_snoc_none {A} (p : A -> bool) (l : list A) (x : A) :
  find p l = None -> find p (l ++ [x]) = if p x then Some x else None.
Proof.
  induction l as [ | y r IH]; simpl; [reflexivity | ].
  destruct (p y); [discriminate | exact IH].
Qed.


(** The submit route up to the scoring: the application is marked
    submitted and stamped, the transcript is loaded, and what remains is
    the scoring (skipped for an empty transcript) and the
    acknowledgement. *)
Lemma post_submit_accepted env agent appId application job s log :
  db_fails env OpGetApplication = false ->
  db_fails env OpGetJob = false ->
  db_fails env OpSubmitApplication = false ->
  db_fails env OpGetMessagesByApplication = false ->
  application_of s appId = Some application ->
  closed (status application) = false ->
  job_of s (jobId application) = Some job ->
  post_submit_with env agent appId {| store := s; sent := log |}
  = try_catch
      (bind
         (match orderBy_createdAt (appended s appId) with
          | [] => ret tt
          | _ :: _ =>
              evaluate env agent application job
                (orderBy_createdAt (appended s appId))
          end)
         (fun _ => json (BMessage "Interview submitted successfully")))
      (fun _ => status_json 500 (BMessage "Failed to submit interview"))
      {| store := submitted_store s appId; sent := log |}.
Proof.
  intros Hdb1 Hdb2 Hdb3 Hdb4 Hfound Hopen Hjob.
  pose proof (application_of_id _ _ _ Hfound) as Hid.
  destruct (submitApplication_run env appId s log Hdb3) as [updated Hsubmit].
  unfold post_submit_with, try_catch.
  rewrite (bind_ok _ _ _ _ _ (getApplication_run env appId s log Hdb1)).
  rewrite Hfound, Hopen.
  rewrite (bind_ok _ _ _ _ _ (getJob_run env _ s log Hdb2)).
  rewrite Hjob, Hid.
  rewrite (bind_ok _ _ _ _ _ Hsubmit).
  fold (submitted_store s appId).
  rewrite (bind_ok _ _ _ _ _
             (getMessagesByApplication_run env appId
                (submitted_store s appId) log Hdb4)).
  change (appended (submitted_store s appId) appId) with (appended s appId).
  destruct (orderBy_createdAt (appended s appId)); reflexivity.
Qed.

Lemma submitted_store_application (s : Store) (appId : Id) (a : Application) :
  application_of s appId = Some a ->
  application_of (submitted_store s appId) appId
  = Some (set_status appId "submitted" (Some (clock s)) a).
Proof.
  intros H. unfold application_of, submitted_store. simpl.
  rewrite find_set_status. unfold application_of in H. now rewrite H.
Qed.

(** Submitting an interview in which nothing was said: the route answers
    with success, the application is marked [submitted] and stamped with
    the submission time, and that is all; the Scorer is not called (no
    completion request is issued) and no scorecard is stored. *)
Theorem empty_transcript_is_not_scored
    (env : Env) (w : World) (appId : Id) (application : Application)
    (job : Job) :
  db_fails env OpGetApplication = false ->
  db_fails env OpGetJob = false ->
  db_fails env OpSubmitApplication = false ->
  db_fails env OpGetMessagesByApplication = false ->
  application_of (store w) appId = Some application ->
  closed (status application) = false ->
  job_of (store w) (jobId application) = Some job ->
  appended (store w) appId = [] ->
  post_submit env appId w
  = (Ok {| code := 200; body := BMessage "Interview submitted successfully" |},
     {| store := submitted_store (store w) appId; sent := sent w |}) /\
  evaluations (submitted_store (store w) appId) = evaluations (store w) /\
  option_map (fun a => (status a, submittedAt a))
    (application_of (submitted_store (store w) appId) appId)
  = Some ("submitted", Some (clock (store w))).
Proof.
  intros Hdb1 Hdb2 Hdb3 Hdb4 Hfound Hopen Hjob Hempty.
  pose proof (application_of_id _ _ _ Hfound) as Hid.
  destruct w as [s log]. simpl in *.
  split; [ | split; [reflexivity | ]].
  - unfold post_submit.
    rewrite (post_submit_accepted env _ appId application job s log
               Hdb1 Hdb2 Hdb3 Hdb4 Hfound Hopen Hjob).
    rewrite Hempty. reflexivity.
  - rewrite (submitted_store_application s appId application Hfound).
    unfold set_status. rewrite Hid, Nat.eqb_refl. reflexivity.
Qed.

Lemma empty_transcript_witness :
  exists w',
    post_submit (answering (Parsed wild_scores)) 2
      (sample_world "in_progress" [])
    = (Ok {| code := 200;
             body := BMessage "Interview submitted successfully" |}, w') /\
    sent w' = [] /\ evaluations (store w') = [].
Proof.
  destruct (empty_transcript_is_not_scored (answering (Parsed wild_scores))
              (sample_world "in_progress" []) 2
              (sample_application "in_progress") sample_job
              eq_refl eq_refl eq_refl eq_refl eq_refl eq_refl eq_refl eq_refl)
    as [Hrun [Hevals _]].
  eexists. split; [exact Hrun | ]. split; [reflexivity | exact Hevals].
Defined.







(** A submission that cannot be taken leaves the world as it was: 404 for
    an unknown application and for an application whose job is gone, 500
    when marking the application submitted fails. *)
Theorem refused_submission_changes_nothing
    (env : Env) (w : World) (appId : Id) :
  db_fails env OpGetApplication = false ->
  db_fails env OpGetJob = false ->
  (application_of (store w) appId = None ->
   post_submit env appId w
   = (Ok {| code := 404; body := BMessage "Application not found" |}, w)) /\
  (forall application,
     application_of (store w) appId = Some application ->
     closed (status application) = false ->
     (job_of (store w) (jobId application) = None ->
      post_submit env appId w
      = (Ok {| code := 404; body := BMessage "Job not found" |}, w)) /\
     (job_of (store w) (jobId application) <> None ->
      db_fails env OpSubmitApplication = true ->
      post_submit env appId w
      = (Ok {| code := 500; body := BMessage "Failed to submit interview" |},
         w))).
Proof.
  intros Hdb1 Hdb2. destruct w as [s log]. simpl.
  split.
  - intros Hnone. unfold post_submit, post_submit_with, try_catch.
    rewrite (bind_ok _ _ _ _ _ (getApplication_run env appId s log Hdb1)).
    now rewrite Hnone.
  - intros application Hfound Hopen. split.
    + intros Hjob. unfold post_submit, post_submit_with, try_catch.
      rewrite (bind_ok _ _ _ _ _ (getApplication_run env appId s log Hdb1)).
      rewrite Hfound, Hopen.
      rewrite (bind_ok _ _ _ _ _ (getJob_run env _ s log Hdb2)).
      now rewrite Hjob.
    + intros Hjob Hfail. unfold post_submit, post_submit_with, try_catch.
      rewrite (bind_ok _ _ _ _ _ (getApplication_run env appId s log Hdb1)).
      rewrite Hfound, Hopen.
      rewrite (bind_ok _ _ _ _ _ (getJob_run env _ s log Hdb2)).
      destruct (job_of s (jobId application)) as [job | ]; [ | contradiction].
      unfold bind at 1. unfold submitApplication, db. rewrite Hfail.
      reflexivity.
Qed.

Lemma refused_submission_witness :
  post_submit (answering CallFails) 9
    (sample_world "in_progress" sample_history)
  = (Ok {| code := 404; body := BMessage "Application not found" |},
     sample_world "in_progress" sample_history).
Proof.
  destruct (refused_submission_changes_nothing (answering CallFails)
              (sample_world "in_progress" sample_history) 9
              eq_refl eq_refl) as [Hunknown _].
  apply Hunknown. reflexivity.
Defined.

(* ================================================================== *)
(** ** Further properties: the recruiter's status edit and the intake *)
(* ================================================================== *)

Lemma find_set_status_other (id other : Id) st sub (l : list Application) :
  other <> id ->
  find (fun a => Nat.eqb (app_id a) other) (map (set_status id st sub) l)
  = find (fun a => Nat.eqb (app_id a) other) l.
Proof.
  intros Hne. induction l as [ | a rest IH]; [reflexivity | ].
  simpl.
  assert (Hsame : app_id (set_status id st sub a) = app_id a).
  { unfold set_status. now destruct (Nat.eqb (app_id a) id). }
  rewrite Hsame.
  destruct (Nat.eqb (app_id a) other) eqn:Ho; [ | exact IH].
  f_equal. unfold set_status.
  destruct (Nat.eqb_spec (app_id a) id) as [Hid | _]; [ | reflexivity].
  apply Nat.eqb_eq in Ho. congruence.
Qed.

Lemma updateApplicationStatus_run env id st s log :
  db_fails env OpUpdateApplicationStatus = false ->
  updateApplicationStatus env id st {| store := s; sent := log |}
  = (Ok (application_of (restatused_store s id st) id),
     {| store := restatused_store s id st; sent := log |}).
Proof.
  intros H. unfold updateApplicationStatus, db. simpl. now rewrite H.
Qed.

Lemma patch_status_accepted
    (env : Env) (user appId : Id) (st : string)
    (application : Application) (job : Job) (s : Store) log :
  db_fails env OpGetApplication = false ->
  db_fails env OpGetJob = false ->
  db_fails env OpUpdateApplicationStatus = false ->
  application_of s appId = Some application ->
  job_of s (jobId application) = Some job ->
  ownerId job = user ->
  st <> "" ->
  let edited :=
    {| app_id := app_id application; jobId := jobId application;
       status := st;
       candidateName := candidateName application;
       candidateEmail := candidateEmail application;
       startedAt := startedAt application;
       submittedAt := submittedAt application |} in
  let s' := restatused_store s appId st in
  patch_status env user appId st {| store := s; sent := log |}
  = (Ok {| code := 200; body := BApplication (Some edited) |},
     {| store := s'; sent := log |}) /\
  application_of s' appId = Some edited.
Proof.
  intros Hdb1 Hdb2 Hdb3 Hfound Hjob Howner Hst edited s'.
  pose proof (application_of_id _ _ _ Hfound) as Hid.
  assert (Hedited : application_of s' appId = Some edited).
  { unfold application_of, s', restatused_store. simpl.
    rewrite find_set_status. fold (application_of s appId). rewrite Hfound.
    simpl. unfold set_status, edited. rewrite Hid, Nat.eqb_refl.
    reflexivity. }
  split; [ | exact Hedited].
  unfold patch_status, try_catch.
  rewrite (bind_ok _ _ _ _ _ (getApplication_run env appId s log Hdb1)).
  rewrite Hfound.
  rewrite (bind_ok _ _ _ _ _ (getJob_run env _ s log Hdb2)).
  rewrite Hjob, Howner, Nat.eqb_refl.
  destruct (String.eqb_spec st "") as [Hempty | _]; [contradiction | ].
  cbn [negb].
  rewrite (bind_ok _ _ _ _ _ (updateApplicationStatus_run env appId st s log Hdb3)).
  fold s'. rewrite Hedited. reflexivity.
Qed.

(** The status edit carries no transition guard: whatever the present
    status of the application, the recruiter who owns its job sets any
    non-empty status.  The answer is 200 with the updated row; only the
    status of that one application changes, its submission time, every
    other application, and all messages, flags and scorecards stay. *)
Theorem status_edit_is_unconditional
    (env : Env) (w : World) (user appId : Id) (st : string)
    (application : Application) (job : Job) :
  db_fails env OpGetApplication = false ->
  db_fails env OpGetJob = false ->
  db_fails env OpUpdateApplicationStatus = false ->
  application_of (store w) appId = Some application ->
  job_of (store w) (jobId application) = Some job ->
  ownerId job = user ->
  st <> "" ->
  let edited :=
    {| app_id := app_id application; jobId := jobId application;
       status := st;
       candidateName := candidateName application;
       candidateEmail := candidateEmail application;
       startedAt := startedAt application;
       submittedAt := submittedAt application |} in
  let s' := restatused_store (store w) appId st in
  patch_status env user appId st w
  = (Ok {| code := 200; body := BApplication (Some edited) |},
     {| store := s'; sent := sent w |}) /\
  application_of s' appId = Some edited /\
  (forall other, other <> appId ->
     application_of s' other = application_of (store w) other) /\
  messages s' = messages (store w) /\
  flags s' = flags (store w) /\
  evaluations s' = evaluations (store w).
Proof.
  intros Hdb1 Hdb2 Hdb3 Hfound Hjob Howner Hst edited s'.
  destruct w as [s log]. simpl in *.
  destruct (patch_status_accepted env user appId st application job s log
              Hdb1 Hdb2 Hdb3 Hfound Hjob Howner Hst) as [Hrun Hedited].
  split; [exact Hrun | ].
  split; [exact Hedited | ].
  split; [ | repeat split].
  intros other Hother. unfold application_of, s', restatused_store. simpl.
  now apply find_set_status_other.
Qed.

Lemma status_edit_witness :
  exists w',
    patch_status (answering CallFails) 0 2 "in_progress"
      (sample_world "evaluated" sample_history)
    = (Ok {| code := 200;
             body := BApplication (Some (sample_application "in_progress")) |},
       w') /\
    status_of (store w') 2 = Some "in_progress".
Proof.
  destruct (status_edit_is_unconditional (answering CallFails)
              (sample_world "evaluated" sample_history) 0 2 "in_progress"
              (sample_application "evaluated") sample_job
              eq_refl eq_refl eq_refl eq_refl eq_refl eq_refl)
    as [Hrun [Happ _]].
  - discriminate.
  - eexists. split; [exact Hrun | ].
    unfold status_of. cbn [store]. rewrite Happ. reflexivity.
Defined.

(** A status edit that is not allowed leaves the world as it was: 404 for
    an unknown application, 403 when the application's job is gone or
    belongs to another recruiter, 400 when no status is given. *)
Theorem refused_status_edit_changes_nothing
    (env : Env) (w : World) (user appId : Id) (st : string) :
  db_fails env OpGetApplication = false ->
  db_fails env OpGetJob = false ->
  (application_of (store w) appId = None ->
   patch_status env user appId st w
   = (Ok {| code := 404; body := BMessage "Application not found" |}, w)) /\
  (forall application,
     application_of (store w) appId = Some application ->
     (job_of (store w) (jobId application) = None ->
      patch_status env user appId st w
      = (Ok {| code := 403; body := BMessage "Forbidden" |}, w)) /\
     (forall job,
        job_of (store w) (jobId application) = Some job ->
        (ownerId job <> user ->
         patch_status env user appId st w
         = (Ok {| code := 403; body := BMessage "Forbidden" |}, w)) /\
        (ownerId job = user ->
         patch_status env user appId "" w
         = (Ok {| code := 400; body := BMessage "Status is required" |}, w)))).
Proof.
  intros Hdb1 Hdb2. destruct w as [s log]. simpl.
  split.
  - intros Hnone. unfold patch_status, try_catch.
    rewrite (bind_ok _ _ _ _ _ (getApplication_run env appId s log Hdb1)).
    now rewrite Hnone.
  - intros application Hfound. split.
    + intros Hjob. unfold patch_status, try_catch.
      rewrite (bind_ok _ _ _ _ _ (getApplication_run env appId s log Hdb1)).
      rewrite Hfound.
      rewrite (bind_ok _ _ _ _ _ (getJob_run env _ s log Hdb2)).
      now rewrite Hjob.
    + intros job Hjob. split.
      * intros Howner. unfold patch_status, try_catch.
        rewrite (bind_ok _ _ _ _ _ (getApplication_run env appId s log Hdb1)).
        rewrite Hfound.
        rewrite (bind_ok _ _ _ _ _ (getJob_run env _ s log Hdb2)).
        rewrite Hjob.
        destruct (Nat.eqb_spec (ownerId job) user); [contradiction | reflexivity].
      * intros Howner. unfold patch_status, try_catch.
        rewrite (bind_ok _ _ _ _ _ (getApplication_run env appId s log Hdb1)).
        rewrite Hfound.
        rewrite (bind_ok _ _ _ _ _ (getJob_run env _ s log Hdb2)).
        rewrite Hjob, Howner, Nat.eqb_refl. reflexivity.
Qed.

Lemma refused_status_edit_witness :
  patch_status (answering CallFails) 7 2 "accepted"
    (sample_world "evaluated" sample_history)
  = (Ok {| code := 403; body := BMessage "Forbidden" |},
     sample_world "evaluated" sample_history).
Proof.
  destruct (refused_status_edit_changes_nothing (answering CallFails)
              (sample_world "evaluated" sample_history) 7 2 "accepted"
              eq_refl eq_refl) as [_ Hknown].
  destruct (Hknown (sample_application "evaluated") eq_refl) as [_ Hjob].
  destruct (Hjob sample_job eq_refl) as [Hforeign _].
  apply Hforeign. discriminate.
Defined.

(** Reopening works: once the owning recruiter has set an application,
    even an evaluated one, to a status other than [submitted] and
    [evaluated], the next candidate message is taken again, stored as the
    next message of the store. *)
Theorem reopened_interview_takes_messages
    (env : Env) (w : World) (user appId : Id) (st content : string)
    (application : Application) (job : Job) :
  db_fails env OpGetApplication = false ->
  db_fails env OpGetJob = false ->
  db_fails env OpUpdateApplicationStatus = false ->
  db_fails env OpCreateMessage = false ->
  db_fails env OpGetMessagesByApplication = false ->
  application_of (store w) appId = Some application ->
  job_of (store w) (jobId application) = Some job ->
  ownerId job = user ->
  st <> "" ->
  closed st = false ->
  content <> "" ->
  let w1 := snd (patch_status env user appId st w) in
  let w2 := snd (post_message env appId content w1) in
  messages (store w1) = messages (store w) /\
  exists later,
    messages (store w2)
    = messages (store w)
      ++ new_message (store w1) appId "user" content :: later.
Proof.
  intros Hdb1 Hdb2 Hdb3 Hdb4 Hdb5 Hfound Hjob Howner Hst Hopen Hcontent w1 w2.
  destruct w as [s0 log0]. cbn [store sent] in *.
  destruct (patch_status_accepted env user appId st application job s0 log0
              Hdb1 Hdb2 Hdb3 Hfound Hjob Howner Hst) as [Hrun Hedited].
  assert (Hw1 : w1 = {| store := restatused_store s0 appId st;
                        sent := log0 |})
    by (unfold w1; now rewrite Hrun).
  split; [rewrite Hw1; reflexivity | ].
  unfold w2. rewrite Hw1. cbn [store].
  set (s1 := restatused_store s0 appId st) in *.
  set (edited :=
         {| app_id := app_id application; jobId := jobId application;
            status := st;
            candidateName := candidateName application;
            candidateEmail := candidateEmail application;
            startedAt := startedAt application;
            submittedAt := submittedAt application |}) in *.
  rewrite (post_message_accepted env appId content edited job s1 log0
             Hdb1 Hdb2 Hdb4 Hdb5 Hedited Hopen Hjob Hcontent).
  set (asked := new_message s1 appId "user" content).
  assert (Hkeeps : preserves (on_store (grows (add_message s1 asked)))
            (try_catch
               (bind (runInterviewAgent env job
                        (orderBy_createdAt
                           (appended (add_message s1 asked) appId)) content)
                     (persist_turn env edited))
               (fun _ => status_json 500 (BMessage "Failed to process message")))).
  { apply preserves_try_catch; [ | intros; apply preserves_status_json].
    apply preserves_bind.
    - intros w0 H0.
      destruct (runInterviewAgent_returns env job
                  (orderBy_createdAt (appended (add_message s1 asked) appId))
                  content w0) as [r [-> _]].
      exact H0.
    - intros r. apply persist_turn_keeps.
      + intros s m _ _. apply grows_step. apply grows_add_message.
      + intros s f _. apply grows_step. apply grows_add_flag. }
  specialize (Hkeeps {| store := add_message s1 asked; sent := log0 |}
                (grows_refl _)).
  destruct (grows_messages _ _ Hkeeps) as [later Hlater].
  exists later. unfold on_store in Hlater. cbn [store] in Hlater.
  rewrite Hlater. simpl. now rewrite <- app_assoc.
Qed.

Lemma reopened_interview_witness :
  exists later,
    messages
      (store
         (snd (post_message (answering CallFails) 2 "One more thing"
                 (snd (patch_status (answering CallFails) 0 2 "in_progress"
                         (sample_world "evaluated" sample_history))))))
    = sample_history ++ turn 7 "user" "One more thing" 5 :: later.
Proof.
  destruct (reopened_interview_takes_messages (answering CallFails)
              (sample_world "evaluated" sample_history) 0 2 "in_progress"
              "One more thing" (sample_application "evaluated") sample_job
              eq_refl eq_refl eq_refl eq_refl eq_refl eq_refl eq_refl eq_refl)
    as [_ [later Hlater]].
  - discriminate.
  - reflexivity.
  - discriminate.
  - exists later. exact Hlater.
Defined.

Lemma find_fresh (s : Store) (id : Id) :
  ids_fresh s -> (next_id s <= id)%nat -> application_of s id = None.
Proof.
  unfold ids_fresh, application_of. intros Hfresh Hid.
  destruct (find _ (applications s)) as [a | ] eqn:Hfind; [ | reflexivity].
  apply find_some in Hfind. destruct Hfind as [Hin Heq].
  apply Nat.eqb_eq in Heq. rewrite Forall_forall in Hfresh.
  specialize (Hfresh a Hin). simpl in Hfresh. lia.
Qed.

Lemma find_app_some {A} (p : A -> bool) (l more : list A) (x : A) :
  find p l = Some x -> find p (l ++ more) = Some x.
Proof.
  induction l as [ | y r IH]; simpl; [discriminate | ].
  destruct (p y); [trivial | exact IH].
Qed.

(** Identifiers stay fresh whatever requests are served. *)
Lemma ids_fresh_kept (env : Env) (reqs : list Request) (w : World) :
  ids_fresh (store w) -> ids_fresh (store (serve env reqs w)).
Proof.
  apply (serve_keeps env ids_fresh); unfold ids_fresh.
  - intros s l Hl H. simpl.
    revert H. induction Hl as [ | a b l1 l2 Hab _ IH]; intros H;
      [constructor | ].
    inversion H as [ | ? ? Ha Hrest]; subst.
    constructor; [ | now apply IH].
    destruct Hab as [Hid _]. simpl in *. lia.
  - intros s H. exact H.
  - intros s a Hid _ H. simpl. apply Forall_app. split.
    + eapply Forall_impl; [ | exact H]. intros x Hx. simpl in *. lia.
    + constructor; [simpl; lia | constructor].
  - intros s m _ _ H. simpl.
    eapply Forall_impl; [ | exact H]. intros x Hx. simpl in *. lia.
  - intros s f _ H. simpl.
    eapply Forall_impl; [ | exact H]. intros x Hx. simpl in *. lia.
  - intros s e _ _ H. simpl.
    eapply Forall_impl; [ | exact H]. intros x Hx. simpl in *. lia.
Qed.

(** The intake, for the token of an active job and a valid candidate: the
    answer is 201 with the new application, which is in progress, belongs
    to that job, carries the candidate's name and e-mail and no submission
    time; nothing else is written and no completion request is issued.
    With fresh identifiers the new application is found under its
    identifier and every other application is found as before. *)
Theorem intake_opens_an_application
    (env : Env) (w : World) (token name email : string) (job : Job) :
  db_fails env OpGetJobByToken = false ->
  db_fails env OpCreateApplication = false ->
  job_by_token (store w) token = Some job ->
  isActive job = true ->
  let created := new_application (store w) (job_id job) name email in
  let s' := add_application (store w) created in
  post_application env token (Some (name, email)) w
  = (Ok {| code := 201; body := BApplication (Some created) |},
     {| store := s'; sent := sent w |}) /\
  applications s' = applications (store w) ++ [created] /\
  messages s' = messages (store w) /\
  (ids_fresh (store w) ->
   application_of s' (app_id created) = Some created /\
   forall id a, application_of (store w) id = Some a ->
                application_of s' id = Some a).
Proof.
  intros Hdb1 Hdb2 Hjob Hactive created s'.
  destruct w as [s log]. simpl in *.
  split; [ | split; [reflexivity | split; [reflexivity | ]]].
  - unfold post_application, try_catch.
    unfold bind at 1. unfold getJobByToken, db. simpl. rewrite Hdb1.
    unfold job_by_token in Hjob. rewrite Hjob, Hactive. simpl.
    unfold bind, lift, ret, createApplication, db. simpl. rewrite Hdb2.
    reflexivity.
  - intros Hfresh. split.
    + unfold application_of, s'. simpl.
      rewrite find_snoc_none.
      * simpl. now rewrite Nat.eqb_refl.
      * apply (find_fresh s (next_id s) Hfresh). lia.
    + intros id a Ha. unfold application_of, s'. simpl.
      now apply find_app_some.
Qed.

Lemma intake_witness :
  exists created w',
    post_application (answering CallFails) "tok"
      (Some ("Grace", "grace@example.org"))
      (sample_world "evaluated" sample_history)
    = (Ok {| code := 201; body := BApplication (Some created) |}, w') /\
    status created = "in_progress" /\
    application_of (store w') 7 = Some created /\
    status_of (store w') 2 = Some "evaluated".
Proof.
  destruct (intake_opens_an_application (answering CallFails)
              (sample_world "evaluated" sample_history) "tok" "Grace"
              "grace@example.org" sample_job eq_refl eq_refl eq_refl eq_refl)
    as [Hrun [_ [_ Hfresh]]].
  destruct Hfresh as [Hnew Hold].
  - repeat constructor.
  - eexists. eexists. split; [exact Hrun | ].
    split; [reflexivity | ]. split; [exact Hnew | ].
    unfold status_of. cbn [store].
    rewrite (Hold 2%nat (sample_application "evaluated") eq_refl). reflexivity.
Defined.

(** An intake that cannot be taken leaves the world as it was.  The answer
    is 404 for a token that designates no job or an inactive one, and 400
    otherwise: when the candidate's data is invalid, but also when the
    database fails, on the lookup or on the insert. *)
Theorem refused_intake_changes_nothing
    (env : Env) (w : World) (token : string)
    (candidate : option (string * string)) :
  (db_fails env OpGetJobByToken = true ->
   post_application env token candidate w
   = (Ok {| code := 400; body := BError (DbFailure OpGetJobByToken) |}, w)) /\
  (db_fails env OpGetJobByToken = false ->
   (job_by_token (store w) token = None ->
    post_application env token candidate w
    = (Ok {| code := 404; body := BMessage "Job not found or inactive" |}, w)) /\
   (forall job,
      job_by_token (store w) token = Some job ->
      (isActive job = false ->
       post_application env token candidate w
       = (Ok {| code := 404; body := BMessage "Job not found or inactive" |},
          w)) /\
      (isActive job = true ->
       post_application env token None w
       = (Ok {| code := 400; body := BError ZodError |}, w)) /\
      (isActive job = true ->
       db_fails env OpCreateApplication = true ->
       candidate <> None ->
       post_application env token candidate w
       = (Ok {| code := 400; body := BError (DbFailure OpCreateApplication) |},
          w)))).
Proof.
  destruct w as [s log]. simpl. split.
  - intros Hdb. unfold post_application, try_catch.
    unfold bind at 1. unfold getJobByToken, db. now rewrite Hdb.
  - intros Hdb. assert (Hrun : forall k : option Job -> M Response,
      bind (getJobByToken env token) k {| store := s; sent := log |}
      = k (job_by_token s token) {| store := s; sent := log |}).
    { intros k. unfold bind, getJobByToken, db. simpl. now rewrite Hdb. }
    split.
    + intros Hnone. unfold post_application, try_catch.
      rewrite Hrun, Hnone. reflexivity.
    + intros job Hjob. split; [ | split].
      * intros Hinactive. unfold post_application, try_catch.
        rewrite Hrun, Hjob, Hinactive. reflexivity.
      * intros Hactive. unfold post_application, try_catch.
        rewrite Hrun, Hjob, Hactive. reflexivity.
      * intros Hactive Hfail Hsome. unfold post_application, try_catch.
        rewrite Hrun, Hjob, Hactive.
        destruct candidate as [[name email] | ]; [ | contradiction].
        unfold bind, lift, ret, createApplication, db. simpl.
        now rewrite Hfail.
Qed.

(* ================================================================== *)
(** ** Further properties: the score clamp *)
(* ================================================================== *)

Lemma Qfloor_half (z : Z) : Qfloor (inject_Z z + (1 # 2)) = z.
Proof.
  unfold Qfloor, Qplus, inject_Z. simpl.
  symmetry. apply Z.div_unique with (r := 1); lia.
Qed.

Lemma min_hundred (z : Z) :
  Math_min hundred (Fin (inject_Z z)) = Fin (inject_Z (Z.min 100 z)).
Proof.
  unfold Math_min, hundred, lt. rewrite Qle_bool_inject.
  destruct (100 <=? z) eqn:H; cbn [negb].
  - rewrite Z.min_l; [reflexivity | lia].
  - rewrite Z.min_r; [reflexivity | lia].
Qed.

Lemma max_zero (z : Z) :
  Math_max zero (Fin (inject_Z z)) = Fin (inject_Z (Z.max 0 z)).
Proof.
  unfold Math_max, zero, lt. rewrite Qle_bool_inject.
  destruct (z <=? 0) eqn:H; cbn [negb].
  - rewrite Z.max_l; [reflexivity | lia].
  - rewrite Z.max_r; [reflexivity | lia].
Qed.

(** On a number the clamp is: round to the nearest integer, halves up,
    then clip to [0,100].  Hence it keeps the order of scores, and it
    leaves an integer score between 0 and 100 as it is. *)
Theorem clamp_rounds_then_clips (p q : Q) :
  clamp (JNum (Fin q))
  = Some (Fin (inject_Z (Z.max 0 (Z.min 100 (Qfloor (q + (1 # 2))))))) /\
  ((p <= q)%Q ->
   Z.max 0 (Z.min 100 (Qfloor (p + (1 # 2))))
   <= Z.max 0 (Z.min 100 (Qfloor (q + (1 # 2))))) /\
  (forall z, 0 <= z <= 100 ->
     clamp (JNum (Fin (inject_Z z))) = Some (Fin (inject_Z z))).
Proof.
  assert (Hform : forall x : Q,
    clamp (JNum (Fin x))
    = Some (Fin (inject_Z (Z.max 0 (Z.min 100 (Qfloor (x + (1 # 2)))))))).
  { intros x. unfold clamp, or_else. simpl ToBoolean.
    destruct (Qeq_bool x 0) eqn:Hzero; cbn [negb].
    - apply Qeq_bool_eq in Hzero.
      cbn [ToNumber]. unfold Math_round, zero at 2.
      assert (Hfloor : Qfloor (x + (1 # 2)) = Qfloor (inject_Z 0 + (1 # 2))).
      { apply Qfloor_comp. rewrite Hzero. reflexivity. }
      rewrite Hfloor. now rewrite min_hundred, max_zero.
    - cbn [ToNumber]. unfold Math_round.
      now rewrite min_hundred, max_zero. }
  split; [apply Hform | ]. split.
  - intros Hle.
    assert (Hfloor : Qfloor (p + (1 # 2)) <= Qfloor (q + (1 # 2))).
    { apply Qfloor_resp_le. now apply Qplus_le_l. }
    lia.
  - intros z Hz. rewrite Hform, Qfloor_half.
    rewrite Z.min_r, Z.max_r; [reflexivity | lia | lia].
Qed.

(* ================================================================== *)
(** ** Further properties: the read routes *)
(* ================================================================== *)

Lemma insert_by_perm {A} (before : A -> A -> bool) (x : A) (l : list A) :
  Permutation (insert_by before x l) (x :: l).
Proof.
  induction l as [ | y r IH]; simpl; [reflexivity | ].
  destruct (before x y); [reflexivity | ].
  rewrite IH. apply perm_swap.
Qed.

Lemma sort_by_perm {A} (before : A -> A -> bool) (l : list A) :
  Permutation (sort_by before l) l.
Proof.
  induction l as [ | x r IH]; simpl; [reflexivity | ].
  rewrite insert_by_perm. now constructor.
Qed.

Lemma insert_by_sorted {A} (before : A -> A -> bool) (x : A) (l : list A) :
  (forall a b, before a b = false -> before b a = true) ->
  Sorted (fun a b => before a b = true) l ->
  Sorted (fun a b => before a b = true) (insert_by before x l).
Proof.
  intros Htotal. induction l as [ | y r IH]; simpl; intros Hs.
  - repeat constructor.
  - destruct (before x y) eqn:Hxy.
    + constructor; [exact Hs | now constructor].
    + inversion Hs as [ | ? ? Hr Hhd]; subst.
      constructor; [now apply IH | ].
      destruct r as [ | z r']; simpl.
      * constructor. now apply Htotal.
      * destruct (before x z); constructor;
          [now apply Htotal | now inversion Hhd].
Qed.

Lemma sort_by_sorted {A} (before : A -> A -> bool) (l : list A) :
  (forall a b, before a b = false -> before b a = true) ->
  Sorted (fun a b => before a b = true) (sort_by before l).
Proof.
  intros Htotal. induction l as [ | x r IH]; simpl;
    [constructor | now apply insert_by_sorted].
Qed.

Lemma with_evaluations_spec renv (s : Store) (apps : list Application) l :
  with_evaluations renv s apps = Some l ->
  l = map (fun a => (a, getEvaluationByApplication s (app_id a))) apps.
Proof.
  revert l. induction apps as [ | a rest IH]; simpl; intros l H.
  - now injection H as <-.
  - unfold read_evaluation, query in H.
    destruct (read_fails renv OpGetEvaluationByApplication); [discriminate | ].
    destruct (with_evaluations renv s rest) as [others | ]; [ | discriminate].
    injection H as <-. f_equal. now apply IH.
Qed.

(** The report is confined to the owner and to the application: it is
    answered with 200 only to the recruiter who owns the application's job,
    and then carries that application, that job, the application's
    scorecard if it has one, and exactly its flags and its messages, each
    list ordered by creation time whatever the order of the rows in the
    table, and no row of any other application. *)
Theorem report_is_confined_to_owner
    (renv : ReadEnv) (user appId : Id) (s : Store) :
  read_code (get_report renv user appId s) = 200%nat ->
  exists application job,
    application_of s appId = Some application /\
    job_of s (jobId application) = Some job /\
    ownerId job = user /\
    let flagsList :=
      sort_by flag_before
        (filter (fun f => Nat.eqb (flag_applicationId f) appId) (flags s)) in
    let messagesList := orderBy_createdAt (appended s appId) in
    read_body (get_report renv user appId s)
    = RReport application job (getEvaluationByApplication s appId)
        flagsList messagesList /\
    Sorted not_later messagesList /\
    Permutation messagesList (appended s appId) /\
    Sorted (fun a b => (flag_createdAt a <= flag_createdAt b)%nat) flagsList /\
    Permutation flagsList
      (filter (fun f => Nat.eqb (flag_applicationId f) appId) (flags s)) /\
    Forall (fun m => msg_applicationId m = appId) messagesList /\
    Forall (fun f => flag_applicationId f = appId) flagsList /\
    (forall e, getEvaluationByApplication s appId = Some e ->
               eval_applicationId e = appId).
Proof.
  unfold get_report, or_500, read_application, read_job, read_evaluation,
    getFlagsByApplication, read_messages, query, answer.
  destruct (db_fails (base_env renv) OpGetApplication); [discriminate | ].
  destruct (application_of s appId) as [application | ] eqn:Hfound;
    [ | discriminate].
  pose proof (application_of_id _ _ _ Hfound) as Hid.
  destruct (db_fails (base_env renv) OpGetJob); [discriminate | ].
  destruct (job_of s (jobId application)) as [job | ] eqn:Hjob;
    [ | discriminate].
  destruct (Nat.eqb_spec (ownerId job) user) as [Howner | _];
    [ | discriminate].
  cbn [negb].
  destruct (read_fails renv OpGetEvaluationByApplication); [discriminate | ].
  destruct (read_fails renv OpGetFlagsByApplication); [discriminate | ].
  destruct (db_fails (base_env renv) OpGetMessagesByApplication);
    [discriminate | ].
  intros _. exists application, job.
  split; [reflexivity | ]. split; [exact Hjob | ]. split; [exact Howner | ].
  rewrite Hid. simpl. split; [reflexivity | ].
  split; [apply orderBy_sorted | ].
  split; [apply orderBy_perm | ].
  split.
  { assert (Hsorted : Sorted (fun a b => flag_before a b = true)
              (sort_by flag_before
                 (filter (fun f => Nat.eqb (flag_applicationId f) appId)
                         (flags s)))).
    { apply sort_by_sorted. intros a b Hab. unfold flag_before in *.
      apply Nat.leb_gt in Hab. apply Nat.leb_le. lia. }
    revert Hsorted. generalize (sort_by flag_before
                 (filter (fun f => Nat.eqb (flag_applicationId f) appId)
                         (flags s))).
    intros l Hl. induction Hl as [ | a l Hl IH Hhd]; constructor.
    - exact IH.
    - destruct Hhd as [ | b l' Hab]; constructor.
      unfold flag_before in Hab. now apply Nat.leb_le. }
  split; [apply sort_by_perm | ].
  split; [ | split].
  - rewrite Forall_forall. intros m Hm.
    apply (Permutation_in _ (orderBy_perm _)) in Hm.
    unfold appended in Hm. apply filter_In in Hm.
    now apply Nat.eqb_eq.
  - rewrite Forall_forall. intros f Hf.
    apply (Permutation_in _ (sort_by_perm _ _)) in Hf.
    apply filter_In in Hf. now apply Nat.eqb_eq.
  - intros e He. unfold getEvaluationByApplication in He.
    apply find_some in He. now apply Nat.eqb_eq.
Qed.

Lemma report_witness :
  exists application job,
    application_of two_recruiters 2 = Some application /\
    ownerId job = 0%nat /\
    read_body (get_report reading 0 2 two_recruiters)
    = RReport application job
        (getEvaluationByApplication two_recruiters 2) [] sample_history /\
    read_code (get_report reading 10 2 two_recruiters) = 403%nat.
Proof.
  destruct (report_is_confined_to_owner reading 0 2 two_recruiters eq_refl)
    as [application [job [Hfound [_ [Howner [Hbody _]]]]]].
  exists application, job.
  split; [exact Hfound | ]. split; [exact Howner | ].
  split; [rewrite Hbody; reflexivity | reflexivity].
Defined.

(** The listing of a job's applications is answered with 200 only to the
    recruiter who owns the job, and is then exactly the applications of
    that job, each once, the latest started first, each with its own
    scorecard or none. *)
Theorem job_applications_are_confined_to_owner
    (renv : ReadEnv) (user jobId_ : Id) (s : Store) :
  read_code (get_job_applications renv user jobId_ s) = 200%nat ->
  exists job apps,
    job_of s jobId_ = Some job /\
    ownerId job = user /\
    read_body (get_job_applications renv user jobId_ s)
    = RApplications
        (map (fun a => (a, getEvaluationByApplication s (app_id a))) apps) /\
    Permutation apps
      (filter (fun a => Nat.eqb (jobId a) jobId_) (applications s)) /\
    Forall (fun a => jobId a = jobId_) apps /\
    Sorted (fun a b => (startedAt b <= startedAt a)%nat) apps.
Proof.
  unfold get_job_applications, or_500, read_job, getApplicationsByJob,
    query, answer.
  destruct (db_fails (base_env renv) OpGetJob); [discriminate | ].
  destruct (job_of s jobId_) as [job | ] eqn:Hjob; [ | discriminate].
  destruct (Nat.eqb_spec (ownerId job) user) as [Howner | _];
    [ | discriminate].
  cbn [negb].
  destruct (read_fails renv OpGetApplicationsByJob); [discriminate | ].
  set (apps := sort_by started_after
                 (filter (fun a => Nat.eqb (jobId a) jobId_) (applications s))).
  destruct (with_evaluations renv s apps) as [l | ] eqn:Hl; [ | discriminate].
  intros _. exists job, apps.
  split; [exact Hjob || reflexivity | ]. split; [exact Howner | ].
  split; [simpl; f_equal; now apply (with_evaluations_spec renv) | ].
  split; [apply sort_by_perm | ]. split.
  - rewrite Forall_forall. intros a Ha.
    apply (Permutation_in _ (sort_by_perm _ _)) in Ha.
    apply filter_In in Ha. now apply Nat.eqb_eq.
  - assert (Hs : Sorted (fun a b => started_after a b = true) apps).
    { apply sort_by_sorted. intros a b. unfold started_after.
      rewrite Nat.leb_gt, Nat.leb_le. lia. }
    clearbody apps. clear Hl.
    induction Hs as [ | a r Hr IH Hhd]; constructor; [exact IH | ].
    destruct Hhd as [ | b r' Hab]; constructor.
    unfold started_after in Hab. now apply Nat.leb_le.
Qed.

Lemma job_applications_witness :
  exists job apps,
    job_of two_recruiters 11 = Some job /\
    ownerId job = 10%nat /\
    Permutation apps [other_application] /\
    read_code (get_job_applications reading 0 11 two_recruiters) = 403%nat.
Proof.
  destruct (job_applications_are_confined_to_owner reading 10 11
              two_recruiters eq_refl)
    as [job [apps [Hjob [Howner [_ [Hperm _]]]]]].
  exists job, apps.
  split; [exact Hjob | ]. split; [exact Howner | ].
  split; [exact Hperm | reflexivity].
Defined.

(* ================================================================== *)
(** ** Further properties: what a route never writes *)
(* ================================================================== *)

Lemma read_keeps env (P : Store -> Prop) {A} (op : DbOp) (f : Store -> A) :
  preserves (on_store P) (db env op (fun s => (Ok (f s), s))).
Proof. apply db_keeps. auto. Qed.

Lemma agent_keeps_store {A} (P : Store -> Prop) (agent : M A) :
  storeless agent -> preserves (on_store P) agent.
Proof.
  intros Hagent w HP. unfold on_store in *. now rewrite Hagent.
Qed.

Lemma runInterviewAgent_storeless env job history text :
  storeless (runInterviewAgent env job history text).
Proof.
  intros w.
  destruct (runInterviewAgent_returns env job history text w) as [r [-> _]].
  reflexivity.
Qed.

(** Each route writes to its own tables only.  No route touches the jobs.
    The intake and the status edit leave messages, flags and scorecards
    alone; the message route leaves the applications (hence every status)
    and the scorecards alone; the submit route leaves messages and flags
    alone.  Only the message and submit routes call the completion
    service. *)
Theorem each_route_keeps_to_its_tables
    (env : Env) (req : Request) (w : World) :
  let w' := snd (handle env req w) in
  untouched_by req (store w) (store w') /\
  match req with
  | PostApplication _ _ | PatchStatus _ _ _ => sent w' = sent w
  | PostMessage _ _ | PostSubmit _ => extends (sent w) (sent w')
  end.
Proof.
  intros w'. split.
  - unfold w', untouched_by.
    destruct req as [token candidate | appId content | appId | user appId st].
    + set (P := fun s : Store =>
                  jobs s = jobs (store w) /\
                  messages s = messages (store w) /\
                  flags s = flags (store w) /\
                  evaluations s = evaluations (store w)).
      assert (H : preserves (on_store P) (post_application env token candidate)).
      { unfold post_application.
        apply preserves_try_catch; [ | intros; apply preserves_status_json].
        apply preserves_bind; [apply read_keeps | intros [job | ]];
          [ | apply preserves_status_json].
        destruct (negb _); [apply preserves_status_json | ].
        apply preserves_bind; [apply preserves_lift | intros c].
        apply preserves_bind; [ | intros; apply preserves_status_json].
        apply db_keeps. intros s HP. exact HP. }
      apply (H w). unfold on_store, P. tauto.
    + set (P := fun s : Store =>
                  jobs s = jobs (store w) /\
                  applications s = applications (store w) /\
                  evaluations s = evaluations (store w)).
      assert (H : preserves (on_store P) (post_message env appId content)).
      { apply (post_message_keeps env P).
        - intros s m _ _ HP. exact HP.
        - intros s f _ HP. exact HP. }
      apply (H w). unfold on_store, P. tauto.
    + set (P := fun s : Store =>
                  jobs s = jobs (store w) /\
                  messages s = messages (store w) /\
                  flags s = flags (store w)).
      assert (H : preserves (on_store P) (post_submit env appId)).
      { apply (post_submit_keeps env P).
        - intros s l _ HP. exact HP.
        - intros s HP. exact HP.
        - intros s e _ _ HP. exact HP. }
      apply (H w). unfold on_store, P. tauto.
    + set (P := fun s : Store =>
                  jobs s = jobs (store w) /\
                  messages s = messages (store w) /\
                  flags s = flags (store w) /\
                  evaluations s = evaluations (store w)).
      assert (H : preserves (on_store P) (patch_status env user appId st)).
      { apply (patch_status_keeps env P).
        intros s l _ HP. exact HP. }
      apply (H w). unfold on_store, P. tauto.
  - unfold w'.
    destruct req as [token candidate | appId content | appId | user appId st].
    + assert (H : preserves (fun x => sent x = sent w)
                    (post_application env token candidate)).
      { unfold post_application.
        apply preserves_try_catch; [ | intros; apply preserves_status_json].
        apply preserves_bind; [apply db_keeps_sent | intros [job | ]];
          [ | apply preserves_status_json].
        destruct (negb _); [apply preserves_status_json | ].
        apply preserves_bind; [apply preserves_lift | intros c].
        apply preserves_bind; [apply db_keeps_sent | intros a].
        apply preserves_status_json. }
      now apply (H w).
    + assert (H : preserves (fun x => extends (sent w) (sent x))
                    (post_message env appId content)).
      { assert (Hdb : forall A op (body : Store -> Result A * Store),
                  preserves (fun x => extends (sent w) (sent x))
                            (db env op body)).
        { intros A op body [s l] H. unfold db. simpl in *.
          destruct (db_fails env op); [exact H | ].
          destruct (body s). exact H. }
        unfold post_message, post_message_with.
        apply preserves_try_catch; [ | intros; apply preserves_status_json].
        apply preserves_bind; [apply Hdb | intros [app | ]];
          [ | apply preserves_status_json].
        destruct (closed (status app)); [apply preserves_status_json | ].
        apply preserves_bind; [apply Hdb | intros [job | ]];
          [ | apply preserves_status_json].
        destruct (String.eqb content ""); [apply preserves_status_json | ].
        apply preserves_bind; [apply Hdb | intros _].
        apply preserves_bind; [apply Hdb | intros h].
        apply preserves_bind.
        - intros x Hx.
          destruct (runInterviewAgent_returns env job h content x)
            as [r [-> _]].
          simpl. eapply extends_trans; [exact Hx | apply extends_snoc].
        - intros r x Hx. rewrite persist_turn_keeps_sent. exact Hx. }
      apply (H w). apply extends_refl.
    + assert (H : preserves (fun x => extends (sent w) (sent x))
                    (post_submit env appId)).
      { assert (Hdb : forall A op (body : Store -> Result A * Store),
                  preserves (fun x => extends (sent w) (sent x))
                            (db env op body)).
        { intros A op body [s l] H. unfold db. simpl in *.
          destruct (db_fails env op); [exact H | ].
          destruct (body s). exact H. }
        unfold post_submit, post_submit_with.
        apply preserves_try_catch; [ | intros; apply preserves_status_json].
        apply preserves_bind; [apply Hdb | intros [app | ]];
          [ | apply preserves_status_json].
        destruct (closed (status app)); [apply preserves_status_json | ].
        apply preserves_bind; [apply Hdb | intros [job | ]];
          [ | apply preserves_status_json].
        apply preserves_bind; [apply Hdb | intros _].
        apply preserves_bind; [apply Hdb | intros h].
        apply preserves_bind; [ | intros; apply preserves_json].
        destruct h as [ | m rest]; [apply preserves_ret | ].
        unfold evaluate.
        apply preserves_try_catch; [ | intros; apply preserves_ret].
        apply preserves_bind.
        - intros x Hx.
          destruct (runEvaluationAgent_returns env job (m :: rest) x)
            as [r [-> _]].
          simpl. eapply extends_trans; [exact Hx | apply extends_snoc].
        - intros r.
          apply preserves_bind; [apply Hdb | intros _].
          apply preserves_bind; [apply Hdb | intros _].
          apply preserves_ret. }
      apply (H w). apply extends_refl.
    + assert (H : preserves (fun x => sent x = sent w)
                    (patch_status env user appId st)).
      { unfold patch_status.
        apply preserves_try_catch; [ | intros; apply preserves_status_json].
        apply preserves_bind; [apply db_keeps_sent | intros [app | ]];
          [ | apply preserves_status_json].
        apply preserves_bind; [apply db_keeps_sent | intros [job | ]];
          [ | apply preserves_status_json].
        destruct (negb _); [apply preserves_status_json | ].
        destruct (String.eqb st ""); [apply preserves_status_json | ].
        apply preserves_bind; [apply db_keeps_sent | intros a].
        apply preserves_json. }
      now apply (H w).
Qed.

(** A closed interview is frozen: as long as the status of an application
    is [submitted] or [evaluated], no sequence of messages and submissions
    by its candidate changes anything, in the store or towards the
    completion service. *)
Theorem closed_interview_is_frozen
    (env : Env) (w : World) (appId : Id) (application : Application)
    (reqs : list Request) :
  db_fails env OpGetApplication = false ->
  application_of (store w) appId = Some application ->
  closed (status application) = true ->
  Forall (by_candidate appId) reqs ->
  serve env reqs w = w.
Proof.
  intros Hdb Hfound Hclosed Hreqs.
  induction Hreqs as [ | req rest Hreq _ IH]; [reflexivity | ].
  simpl.
  assert (Hsame : snd (handle env req w) = w).
  { destruct w as [s log]. simpl in Hfound.
    destruct req as [token candidate | id content | id | user id st];
      simpl in Hreq; try contradiction; subst id; simpl.
    - unfold post_message, post_message_with, try_catch.
      rewrite (bind_ok _ _ _ _ _ (getApplication_run env appId s log Hdb)).
      now rewrite Hfound, Hclosed.
    - unfold post_submit, post_submit_with, try_catch.
      rewrite (bind_ok _ _ _ _ _ (getApplication_run env appId s log Hdb)).
      now rewrite Hfound, Hclosed. }
  rewrite Hsame. exact IH.
Qed.

Lemma closed_interview_witness :
  serve (answering (Parsed wild_scores))
    [PostMessage 2 "One more thing"; PostSubmit 2; PostMessage 2 "Hello?"]
    (sample_world "evaluated" sample_history)
  = sample_world "evaluated" sample_history.
Proof.
  apply (closed_interview_is_frozen (answering (Parsed wild_scores))
           (sample_world "evaluated" sample_history) 2
           (sample_application "evaluated")).
  - reflexivity.
  - reflexivity.
  - reflexivity.
  - repeat constructor.
Defined.

(* ================================================================== *)
(** ** Further properties: passwords *)
(* ================================================================== *)

Lemma from_hex_of_byte (b : Byte.byte) (rest : string) :
  from_hex (hex_of_byte b ++ rest)%string = b :: from_hex rest.
Proof. destruct b; reflexivity. Qed.

Lemma from_hex_toString_hex (buf : Buffer) :
  from_hex (toString_hex buf) = buf.
Proof.
  induction buf as [ | b rest IH]; [reflexivity | ].
  change (toString_hex (b :: rest))
    with (hex_of_byte b ++ toString_hex rest)%string.
  rewrite from_hex_of_byte. now rewrite IH.
Qed.

Lemma occurs_hex_of_byte (b : Byte.byte) (rest : string) :
  occurs "." (hex_of_byte b ++ rest)%string = occurs "." rest.
Proof. destruct b; reflexivity. Qed.

Lemma occurs_toString_hex (buf : Buffer) :
  occurs "." (toString_hex buf) = false.
Proof.
  induction buf as [ | b rest IH]; [reflexivity | ].
  change (toString_hex (b :: rest))
    with (hex_of_byte b ++ toString_hex rest)%string.
  now rewrite occurs_hex_of_byte.
Qed.

Lemma str_split_whole (sep : ascii) (s : string) :
  occurs sep s = false -> str_split sep s = [s].
Proof.
  induction s as [ | c rest IH]; intros H; [reflexivity | ].
  simpl in *. apply orb_false_iff in H. destruct H as [Hc Hrest].
  rewrite Hc, (IH Hrest). reflexivity.
Qed.

Lemma str_split_at (sep : ascii) (a b : string) :
  occurs sep a = false ->
  str_split sep (a ++ String sep b)%string = a :: str_split sep b.
Proof.
  induction a as [ | c rest IH]; intros H; simpl in *.
  - now rewrite Ascii.eqb_refl.
  - apply orb_false_iff in H. destruct H as [Hc Hrest].
    rewrite Hc, (IH Hrest). reflexivity.
Qed.

Lemma buffer_eqb_refl (a : Buffer) : buffer_eqb a a = true.
Proof.
  unfold buffer_eqb. rewrite Nat.eqb_refl. simpl.
  induction a as [ | b rest IH]; [reflexivity | ].
  simpl. rewrite IH. destruct b; reflexivity.
Qed.

Lemma comparePasswords_stored scrypt (drawn : Buffer)
    (password supplied : string) :
  comparePasswords scrypt supplied (hashPassword scrypt drawn password)
  = timingSafeEqual (scrypt password (toString_hex drawn))
                    (scrypt supplied (toString_hex drawn)).
Proof.
  unfold comparePasswords, hashPassword, cat. simpl String.concat.
  change (toString_hex (scrypt password (toString_hex drawn))
          ++ "." ++ toString_hex drawn)%string
    with (toString_hex (scrypt password (toString_hex drawn))
          ++ String "." (toString_hex drawn))%string.
  rewrite str_split_at by apply occurs_toString_hex.
  rewrite str_split_whole by apply occurs_toString_hex.
  now rewrite from_hex_toString_hex.
Qed.

(** A password checks against its own stored form, whatever salt was
    drawn and whatever [scrypt] computes; any other text is checked by
    comparing the two keys derived under the stored salt, and the check
    raises only if those keys differ in length. *)
Theorem stored_password_checks
    (scrypt : string -> string -> Buffer) (drawn : Buffer)
    (password supplied : string) :
  let stored := hashPassword scrypt drawn password in
  let salt := toString_hex drawn in
  comparePasswords scrypt password stored = Some true /\
  comparePasswords scrypt supplied stored
  = timingSafeEqual (scrypt password salt) (scrypt supplied salt) /\
  (comparePasswords scrypt supplied stored = Some true ->
   scrypt supplied salt = scrypt password salt).
Proof.
  intros stored salt. unfold stored, salt.
  rewrite !comparePasswords_stored.
  split; [ | split].
  - unfold timingSafeEqual. rewrite Nat.eqb_refl.
    now rewrite buffer_eqb_refl.
  - reflexivity.
  - unfold timingSafeEqual.
    destruct (Nat.eqb_spec
                (List.length (scrypt password (toString_hex drawn)))
                (List.length (scrypt supplied (toString_hex drawn))))
      as [Hlen | ]; [ | discriminate].
    intros H. injection H as H. unfold buffer_eqb in H.
    apply andb_true_iff in H. destruct H as [_ H].
    revert Hlen H.
    generalize (scrypt password (toString_hex drawn)) as a.
    generalize (scrypt supplied (toString_hex drawn)) as b.
    intros b a. revert b.
    induction a as [ | x a IH]; intros [ | y b] Hlen H;
      try discriminate; [reflexivity | ].
    simpl in *. apply andb_true_iff in H. destruct H as [Hxy H].
    apply Byte.byte_dec_bl in Hxy. subst y.
    f_equal. apply IH; [lia | exact H].
Qed.

(** A text with no dot in it is no stored password: checking anything
    against it raises. *)
Lemma comparePasswords_without_dot scrypt (supplied stored : string) :
  occurs "." stored = false ->
  comparePasswords scrypt supplied stored = None.
Proof.
  intros H. unfold comparePasswords. now rewrite (str_split_whole _ _ H).
Qed.

(* ================================================================== *)
(** ** Further properties: the report page and the interview clock *)
(* ================================================================== *)

(** The badge of a recommendation is the filled one exactly when
    the text, in lower case, contains [yes]; it shows the text itself
    exactly when the text contains neither [yes] nor [no].  So none of
    the five tags the Scorer is asked for gets the filled badge:
    [strong_hire], [hire] and [maybe] are shown as they are, [no_hire] as
    [No] and [strong_no_hire] as [Strong No]. *)
Theorem recommendation_badge_reads_yes_and_no :
  (forall r : string,
     (variant (recommendationBadge r) = VDefault
      <-> contains "yes" (toLowerCase r) = true) /\
     (variant (recommendationBadge r) = VSecondary
      <-> contains "yes" (toLowerCase r) = false /\
          contains "no" (toLowerCase r) = false) /\
     (variant (recommendationBadge r) = VSecondary ->
      label (recommendationBadge r) = r)) /\
  map recommendationBadge recommendations
  = [ {| variant := VSecondary; label := "strong_hire" |};
      {| variant := VSecondary; label := "hire" |};
      {| variant := VSecondary; label := "maybe" |};
      {| variant := VDestructive; label := "No" |};
      {| variant := VDestructive; label := "Strong No" |} ].
Proof.
  split; [ | reflexivity].
  intros r. unfold recommendationBadge.
  destruct (contains "strong" (toLowerCase r));
    destruct (contains "yes" (toLowerCase r));
    destruct (contains "no" (toLowerCase r)); simpl;
    repeat split; intros; try discriminate; try tauto;
    try reflexivity;
    try (match goal with H : _ /\ _ |- _ => destruct H; discriminate end).
Qed.

Lemma two_digits (n : nat) :
  (n < 60)%nat ->
  padStart 2 "0" (show (Z.of_nat n))
  = (show (Z.of_nat n / 10) ++ show (Z.of_nat n mod 10))%string.
Proof.
  intros H.
  do 60 (destruct n as [ | n]; [reflexivity | ]).
  lia.
Qed.

(** For a time limit, an opening time and a present time that are whole
    numbers of milliseconds from 0 to 2^52, the time left is a whole number
    from 0 to 2^53 and the clock of the interview page reads minutes
    (fewer than 10^21, hence printed digit by digit), a colon and two
    digits of seconds: the time left is never negative, and the seconds
    are padded to two digits. *)
Theorem clock_reads_minutes_and_seconds (timeLimitMs startTime now : Z) :
  clock_time timeLimitMs -> clock_time startTime -> clock_time now ->
  let ms := remaining timeLimitMs startTime now in
  0 <= ms < 2 ^ 53 /\
  exists m s : Z,
    0 <= m < 10 ^ 21 /\ 0 <= s < 60 /\ ms / 1000 = 60 * m + s /\
    formatTime ms = cat [show m; ":"; show (s / 10); show (s mod 10)].
Proof.
  intros Hlimit Hstart Hnow ms. unfold clock_time in *.
  assert (Hms : 0 <= ms < 2 ^ 53) by (unfold ms, remaining; lia).
  split; [exact Hms | ].
  set (t := ms / 1000).
  assert (Ht : 0 <= t < 2 ^ 53).
  { split; [apply Z.div_pos; lia | ].
    apply Z.div_lt_upper_bound; lia. }
  exists (t / 60), (t mod 60).
  assert (Hs : 0 <= t mod 60 < 60) by (apply Z.mod_pos_bound; lia).
  split.
  { split; [apply Z.div_pos; lia | ].
    apply Z.div_lt_upper_bound; lia. }
  split; [exact Hs | ].
  split; [apply Z.div_mod; lia | ].
  unfold formatTime. fold t.
  rewrite Z.rem_mod_nonneg by lia.
  rewrite <- (Z2Nat.id (t mod 60)) by lia.
  unfold cat. simpl String.concat.
  rewrite two_digits by lia.
  reflexivity.
Qed.

(** A quarter of an hour, a minute and half a second in. *)
Lemma clock_witness :
  formatTime (remaining 900000 1000 61500) = "13:59".
Proof.
  destruct (clock_reads_minutes_and_seconds 900000 1000 61500)
    as [_ [m [s [Hm [Hs [Hdiv Htext]]]]]];
    try (unfold clock_time; lia).
  change (remaining 900000 1000 61500 / 1000) with 839 in Hdiv.
  assert (Hm13 : m = 13) by lia.
  assert (Hs59 : s = 59) by lia.
  subst m s. exact Htext.
Defined.

(** The job route answers 200 only to the recruiter who owns the job, and
    then with that job; to any other recruiter it answers 403 whenever the
    job exists and the read succeeds. *)
Theorem job_is_shown_to_its_owner_only
    (renv : ReadEnv) (user jobId_ : Id) (s : Store) :
  (read_code (get_job renv user jobId_ s) = 200%nat ->
   exists job,
     job_of s jobId_ = Some job /\ job_id job = jobId_ /\
     ownerId job = user /\
     read_body (get_job renv user jobId_ s) = RJob job) /\
  (forall job,
     db_fails (base_env renv) OpGetJob = false ->
     job_of s jobId_ = Some job -> ownerId job <> user ->
     get_job renv user jobId_ s
     = {| read_code := 403; read_body := RMessage "Forbidden" |}).
Proof.
  unfold get_job, or_500, read_job, query, answer. split.
  - destruct (db_fails (base_env renv) OpGetJob); [discriminate | ].
    destruct (job_of s jobId_) as [job | ] eqn:Hjob; [ | discriminate].
    destruct (Nat.eqb_spec (ownerId job) user) as [Howner | _];
      [ | discriminate].
    intros _. exists job. repeat split; try assumption.
    unfold job_of in Hjob. apply find_some in Hjob.
    now apply Nat.eqb_eq.
  - intros job -> -> Hother.
    destruct (Nat.eqb_spec (ownerId job) user) as [Howner | _];
      [contradiction | reflexivity].
Qed.

(** The transcript route asks for no owner: with working reads, naming an
    application is enough to be answered with exactly its messages, those
    of no other application, ordered by creation time whatever the order
    of the rows in the table; it is the list the report shows to the owner
    of the job. *)
Theorem transcript_route_asks_for_no_owner
    (renv : ReadEnv) (appId : Id) (application : Application) (s : Store) :
  db_fails (base_env renv) OpGetApplication = false ->
  db_fails (base_env renv) OpGetMessagesByApplication = false ->
  application_of s appId = Some application ->
  let msgs := orderBy_createdAt (appended s appId) in
  get_messages renv appId s
  = {| read_code := 200; read_body := RMessages msgs |} /\
  Forall (fun m => msg_applicationId m = appId) msgs /\
  Permutation msgs (appended s appId) /\
  Sorted not_later msgs /\
  forall user a j e f listed,
    read_body (get_report renv user appId s) = RReport a j e f listed ->
    listed = msgs.
Proof.
  intros Hget Hlist Hfound msgs.
  pose proof (application_of_id _ _ _ Hfound) as Hid.
  split; [ | split; [ | split; [ | split]]].
  - unfold get_messages, or_500, read_application, read_messages, query,
      answer.
    rewrite Hget, Hfound, Hlist, Hid. reflexivity.
  - rewrite Forall_forall. intros m Hm.
    apply (Permutation_in _ (orderBy_perm _)) in Hm.
    unfold appended in Hm. apply filter_In in Hm.
    now apply Nat.eqb_eq.
  - apply orderBy_perm.
  - apply orderBy_sorted.
  - intros user a j e f listed.
    unfold get_report, or_500, read_application, read_job, read_evaluation,
      getFlagsByApplication, read_messages, query, answer.
    rewrite Hget, Hfound, Hlist, Hid.
    destruct (db_fails (base_env renv) OpGetJob); [discriminate | ].
    destruct (job_of s (jobId application)) as [job | ]; [ | discriminate].
    destruct (negb (ownerId job =? user)%nat); [discriminate | ].
    destruct (read_fails renv OpGetEvaluationByApplication);
      [discriminate | ].
    destruct (read_fails renv OpGetFlagsByApplication); [discriminate | ].
    intros H. now injection H as _ _ _ _ <-.
Qed.

Lemma transcript_route_witness :
  get_messages reading 2 two_recruiters
  = {| read_code := 200; read_body := RMessages sample_history |}.
Proof.
  apply (transcript_route_asks_for_no_owner reading 2
           (sample_application "evaluated") two_recruiters);
    reflexivity.
Defined.

Lemma job_route_witness :
  read_body (get_job reading 0 1 two_recruiters) = RJob sample_job /\
  read_code (get_job reading 10 1 two_recruiters) = 403%nat.
Proof.
  destruct (job_is_shown_to_its_owner_only reading 0 1 two_recruiters)
    as [Hshown Hrefused].
  destruct (Hshown eq_refl) as [job [Hjob [_ [_ Hbody]]]].
  injection Hjob as <-.
  split; [exact Hbody | ].
  destruct (job_is_shown_to_its_owner_only reading 10 1 two_recruiters)
    as [_ Hother].
  rewrite (Hother sample_job eq_refl eq_refl); [reflexivity | ].
  simpl. lia.
Defined.
